(** * Hera (Juno-60 emulation) plugin for Move Anything

    A shallow embedding of the plugin wrapper [hera_plugin.cpp]: the voice
    pool and its scheduler, MIDI dispatch, the parameter store, presets,
    the state snapshot, and the per-sample modulation arithmetic of the
    render pass.

    Conventions.
    - C [int] values are [Z]; array indices are [nat].
    - C [float] values are IEEE-754 binary32 numbers ([spec_float] with a
      24-bit significand), every arithmetic operation rounding to nearest
      even.
    - Fixed-size arrays are lists; [for] loops over a whole array are
      written as recursion or [map] over the list.
    - The Engine classes and libm are outside the sources: the former are
      represented by their control state, the latter is a parameter
      ([HeraDeps]).

    The theorems marked C1 to C10 are the properties of the engine
    specification; definitions come first, properties after them. *)

From Stdlib Require Import ZArith QArith Lia Bool.
From Stdlib Require Import Floats.SpecFloat.
From stdpp Require Import base list strings pretty.

#[local] Open Scope Z_scope.

(** ** binary32 arithmetic *)

Abbreviation float := spec_float.

Module F32.
Definition prec : Z := 24.
Definition emax : Z := 128.

Definition add : float -> float -> float := SFadd prec emax.
Definition mul : float -> float -> float := SFmul prec emax.
Definition div : float -> float -> float := SFdiv prec emax.
Definition ltb : float -> float -> bool := SFltb.
Definition eqb : float -> float -> bool := SFeqb.

(** Conversion of an [int] to [float]. *)
Definition of_int (z : Z) : float := binary_normalize prec emax z 0 false.

(** The decimal literal [n/d] (for [d] a power of ten): the binary32
    number nearest to it. *)
Definition dec (n d : Z) : float := div (of_int n) (of_int d).

(** Conversion of a [double] to [float]. *)
Definition of_double (x : float) : float :=
  match x with
  | S754_finite s m e => binary_round prec emax s m e
  | _ => x
  end.

(** Conversion of a [float] to [int]: truncation toward zero.  Out of
    the range of [int] the conversion is undefined in C; the model
    follows the build target (AArch64 [fcvtzs]): saturation, and 0 for
    a NaN. *)
Definition INT_MAX : Z := 2147483647.
Definition INT_MIN : Z := -2147483648.

Definition to_int (x : float) : Z :=
  match x with
  | S754_zero _ => 0
  | S754_nan => 0
  | S754_infinity s => if s then INT_MIN else INT_MAX
  | S754_finite s m e =>
      let a := match e with
               | Zneg p => Z.shiftr (Zpos m) (Zpos p)
               | _ => Z.shiftl (Zpos m) e
               end in
      Z.max INT_MIN (Z.min INT_MAX (if s then - a else a))
  end.

Definition is_nan (x : float) : bool :=
  match x with S754_nan => true | _ => false end.

(** The rational number a finite float denotes (0 for the others). *)
Definition to_Q (x : float) : Q :=
  match x with
  | S754_finite s m e =>
      let a := if s then Zneg m else Zpos m in
      match e with
      | Zneg p => Qmake a (2 ^ p)
      | _ => Qmake (a * 2 ^ e) 1
      end
  | _ => 0%Q
  end.

Definition zero : float := S754_zero false.
Definition one : float := of_int 1.
End F32.

(** The [if (x < lo) x = lo; if (x > hi) x = hi;] idiom on floats. *)
Definition clamp_float (lo hi x : float) : float :=
  let x := if F32.ltb x lo then lo else x in
  if F32.ltb hi x then hi else x.

(** The same idiom on ints. *)
Definition clamp_int (lo hi x : Z) : Z :=
  let x := if x <? lo then lo else x in
  if hi <? x then hi else x.

(** ** Constants *)

Definition MOVE_SAMPLE_RATE : Z := 44100.
Definition MAX_VOICES : nat := 6.
Definition MAX_PRESETS : nat := 128.
Definition MAX_BLOCK_SIZE : nat := 256.

(** Hera parameter indices. *)
Inductive HeraParam :=
| kHeraParamVCA
| kHeraParamVCAType
| kHeraParamPWMDepth
| kHeraParamPWMMod
| kHeraParamSawLevel
| kHeraParamPulseLevel
| kHeraParamSubLevel
| kHeraParamNoiseLevel
| kHeraParamPitchRange
| kHeraParamPitchModDepth
| kHeraParamVCFCutoff
| kHeraParamVCFResonance
| kHeraParamVCFEnvelopeModDepth
| kHeraParamVCFLFOModDepth
| kHeraParamVCFKeyboardModDepth
| kHeraParamVCFBendDepth
| kHeraParamAttack
| kHeraParamDecay
| kHeraParamSustain
| kHeraParamRelease
| kHeraParamLFOTriggerMode
| kHeraParamLFORate
| kHeraParamLFODelay
| kHeraParamHPF
| kHeraParamChorusI
| kHeraParamChorusII.

Definition kHeraNumParameters : nat := 26.

(** The enumerators in declaration order; an enumerator's value is its
    position. *)
Definition hera_params : list HeraParam :=
  [ kHeraParamVCA; kHeraParamVCAType; kHeraParamPWMDepth; kHeraParamPWMMod;
    kHeraParamSawLevel; kHeraParamPulseLevel; kHeraParamSubLevel;
    kHeraParamNoiseLevel; kHeraParamPitchRange; kHeraParamPitchModDepth;
    kHeraParamVCFCutoff; kHeraParamVCFResonance;
    kHeraParamVCFEnvelopeModDepth; kHeraParamVCFLFOModDepth;
    kHeraParamVCFKeyboardModDepth; kHeraParamVCFBendDepth; kHeraParamAttack;
    kHeraParamDecay; kHeraParamSustain; kHeraParamRelease;
    kHeraParamLFOTriggerMode; kHeraParamLFORate; kHeraParamLFODelay;
    kHeraParamHPF; kHeraParamChorusI; kHeraParamChorusII ].

#[global] Instance HeraParam_eq_dec : EqDecision HeraParam.
Proof. solve_decision. Defined.

Definition param_index (p : HeraParam) : nat :=
  match list_find (fun q => q = p) hera_params with
  | Some (i, _) => i
  | None => 0%nat
  end.

(** The enumerator of an [int] parameter index, if it is in range. *)
Definition param_of_index (idx : Z) : option HeraParam :=
  if idx <? 0 then None else hera_params !! Z.to_nat idx.

Definition kHeraVCATypeEnvelope : Z := 0.
Definition kHeraVCATypeGate : Z := 1.
Definition kHeraPWMManual : Z := 0.
Definition kHeraPWMLFO : Z := 1.
Definition kHeraPWMEnvelope : Z := 2.
Definition kHeraLFOManual : Z := 0.
Definition kHeraLFOAuto : Z := 1.

(** ** Components of the engine

    The Engine classes the wrapper includes ([HeraEnvelope],
    [HeraLFOWithEnvelope], [HeraDCO], [HeraVCF], [HeraHPF], [HeraVCA],
    [HeraChorus], [OnePoleSmoothValue], [LerpTable]) are not among the
    sources.  Each is represented by the control state the wrapper reads
    and writes; signal memories (filter stages, oscillator phase, delay
    lines) are not represented. *)

(** Functions the wrapper calls whose code is not among the sources: the
    two libm functions, the one-pole update of [SmoothValue.h] and the
    table lookup of [HeraTables.h].  The model is parametric in them. *)
Class HeraDeps := {
  (** [std::exp2(float)] *)
  exp2f : float -> float;
  (** [powf] *)
  powf : float -> float -> float;
  (** the next current value of a one-pole smoother, from its current
      and target values *)
  smooth_step : float -> float -> float;
  (** [LerpTable::operator()] on a table given by its data, minimum and
      maximum *)
  lerp : list float -> float -> float -> float -> float
}.

(** [OnePoleSmoothValue]. *)
Record OnePoleSmoothValue := {
  currentValue : float;
  targetValue : float
}.

Definition setTargetValue (x : float) (s : OnePoleSmoothValue) :=
  {| currentValue := currentValue s; targetValue := x |}.

Definition setCurrentAndTargetValue (x : float) (s : OnePoleSmoothValue) :=
  {| currentValue := x; targetValue := x |}.

Definition getTargetValue (s : OnePoleSmoothValue) : float := targetValue s.

Definition getNextValue `{HeraDeps} (s : OnePoleSmoothValue)
  : float * OnePoleSmoothValue :=
  let c := smooth_step (currentValue s) (targetValue s) in
  (c, {| currentValue := c; targetValue := targetValue s |}).

(** Modelled from the spec: [HeraEnvelope] (Engine/HeraEnvelope.h and .cpp
    are missing).  "States: Idle -> Attack -> Decay -> Sustain -> Release
    -> Idle, plus an immediate shutdown transition from any state to
    Idle"; "noteOn() from any state restarts at Attack"; "noteOff()
    transitions Sustain/Decay/Attack -> Release"; "isActive() is true
    whenever state <> Idle; isReleased() is true only in Release or
    Idle".  [reset], which the wrapper calls on the envelopes of a voice
    it deactivates, is taken to leave the envelope Idle like [shutdown].
    The output level is not represented. *)
Inductive EnvState := Idle | Attack | Decay | Sustain | Release.

#[global] Instance EnvState_eq_dec : EqDecision EnvState.
Proof. solve_decision. Defined.

Record HeraEnvelope := {
  env_state : EnvState;
  env_attack : float;
  env_decay : float;
  env_sustain : float;
  env_release : float
}.

Definition env_with_state (st : EnvState) (e : HeraEnvelope) : HeraEnvelope :=
  {| env_state := st; env_attack := env_attack e; env_decay := env_decay e;
     env_sustain := env_sustain e; env_release := env_release e |}.

Definition setAttack (x : float) (e : HeraEnvelope) : HeraEnvelope :=
  {| env_state := env_state e; env_attack := x; env_decay := env_decay e;
     env_sustain := env_sustain e; env_release := env_release e |}.

Definition setDecay (x : float) (e : HeraEnvelope) : HeraEnvelope :=
  {| env_state := env_state e; env_attack := env_attack e; env_decay := x;
     env_sustain := env_sustain e; env_release := env_release e |}.

Definition setSustain (x : float) (e : HeraEnvelope) : HeraEnvelope :=
  {| env_state := env_state e; env_attack := env_attack e;
     env_decay := env_decay e; env_sustain := x;
     env_release := env_release e |}.

Definition setRelease (x : float) (e : HeraEnvelope) : HeraEnvelope :=
  {| env_state := env_state e; env_attack := env_attack e;
     env_decay := env_decay e; env_sustain := env_sustain e;
     env_release := x |}.

Definition env_noteOn (e : HeraEnvelope) : HeraEnvelope :=
  env_with_state Attack e.

Definition env_noteOff (e : HeraEnvelope) : HeraEnvelope :=
  match env_state e with
  | Attack | Decay | Sustain => env_with_state Release e
  | Release | Idle => e
  end.

Definition env_shutdown (e : HeraEnvelope) : HeraEnvelope :=
  env_with_state Idle e.

Definition env_reset (e : HeraEnvelope) : HeraEnvelope :=
  env_with_state Idle e.

Definition env_isActive (e : HeraEnvelope) : bool :=
  match env_state e with Idle => false | _ => true end.

Definition env_isReleased (e : HeraEnvelope) : bool :=
  match env_state e with Release | Idle => true | _ => false end.

(** One stage boundary of the chain, with no note event: the attack ends
    in Decay, the decay in Sustain, the release in Idle; Sustain holds
    and Idle stays. *)
Definition env_next_stage (st : EnvState) : EnvState :=
  match st with
  | Attack => Decay
  | Decay => Sustain
  | Sustain => Sustain
  | Release => Idle
  | Idle => Idle
  end.

(** [processNextBlock] as far as the state is concerned.  How many stage
    boundaries a block crosses depends on the level arithmetic, which is
    missing; the count [k] is an input of the model. *)
Definition env_processNextBlock (k : nat) (e : HeraEnvelope) : HeraEnvelope :=
  env_with_state (Nat.iter k env_next_stage (env_state e)) e.

(** [HeraDCO] (Faust-generated): its control values. *)
Record HeraDCO := {
  dco_frequency : float;
  dco_sawLevel : float;
  dco_pulseLevel : float;
  dco_subLevel : float;
  dco_noiseLevel : float
}.

Definition dco_setFrequency (x : float) (d : HeraDCO) : HeraDCO :=
  {| dco_frequency := x; dco_sawLevel := dco_sawLevel d;
     dco_pulseLevel := dco_pulseLevel d; dco_subLevel := dco_subLevel d;
     dco_noiseLevel := dco_noiseLevel d |}.

Definition dco_setSawLevel (x : float) (d : HeraDCO) : HeraDCO :=
  {| dco_frequency := dco_frequency d; dco_sawLevel := x;
     dco_pulseLevel := dco_pulseLevel d; dco_subLevel := dco_subLevel d;
     dco_noiseLevel := dco_noiseLevel d |}.

Definition dco_setPulseLevel (x : float) (d : HeraDCO) : HeraDCO :=
  {| dco_frequency := dco_frequency d; dco_sawLevel := dco_sawLevel d;
     dco_pulseLevel := x; dco_subLevel := dco_subLevel d;
     dco_noiseLevel := dco_noiseLevel d |}.

Definition dco_setSubLevel (x : float) (d : HeraDCO) : HeraDCO :=
  {| dco_frequency := dco_frequency d; dco_sawLevel := dco_sawLevel d;
     dco_pulseLevel := dco_pulseLevel d; dco_subLevel := x;
     dco_noiseLevel := dco_noiseLevel d |}.

Definition dco_setNoiseLevel (x : float) (d : HeraDCO) : HeraDCO :=
  {| dco_frequency := dco_frequency d; dco_sawLevel := dco_sawLevel d;
     dco_pulseLevel := dco_pulseLevel d; dco_subLevel := dco_subLevel d;
     dco_noiseLevel := x |}.

(** Modelled from the spec: [HeraLFOWithEnvelope]
    (Engine/HeraLFOWithEnvelope.h is missing).  The shared LFO is
    "triggered" by [noteOn], which starts its delay+attack ramp, and shut
    down by the engine.  It is represented by the control values the
    wrapper hands it and by the gate calls it has received, most recent
    first. *)
Inductive LfoCall := LfoNoteOn | LfoNoteOff | LfoShutdown.

Record HeraLFOWithEnvelope := {
  lfo_calls : list LfoCall;
  lfo_type : Z;
  lfo_frequency : float;
  lfo_delayDuration : float;
  lfo_attackDuration : float
}.

(** [HeraLFO::Type] *)
Definition HeraLFO_Triangle : Z := 0.
Definition HeraLFO_Sine : Z := 1.

Definition lfo_call (c : LfoCall) (l : HeraLFOWithEnvelope) :=
  {| lfo_calls := c :: lfo_calls l; lfo_type := lfo_type l;
     lfo_frequency := lfo_frequency l;
     lfo_delayDuration := lfo_delayDuration l;
     lfo_attackDuration := lfo_attackDuration l |}.

Definition lfo_noteOn := lfo_call LfoNoteOn.
Definition lfo_noteOff := lfo_call LfoNoteOff.
Definition lfo_shutdown := lfo_call LfoShutdown.

Definition lfo_setType (t : Z) (l : HeraLFOWithEnvelope) :=
  {| lfo_calls := lfo_calls l; lfo_type := t;
     lfo_frequency := lfo_frequency l;
     lfo_delayDuration := lfo_delayDuration l;
     lfo_attackDuration := lfo_attackDuration l |}.

Definition lfo_setFrequency (x : float) (l : HeraLFOWithEnvelope) :=
  {| lfo_calls := lfo_calls l; lfo_type := lfo_type l; lfo_frequency := x;
     lfo_delayDuration := lfo_delayDuration l;
     lfo_attackDuration := lfo_attackDuration l |}.

Definition lfo_setDelayDuration (x : float) (l : HeraLFOWithEnvelope) :=
  {| lfo_calls := lfo_calls l; lfo_type := lfo_type l;
     lfo_frequency := lfo_frequency l; lfo_delayDuration := x;
     lfo_attackDuration := lfo_attackDuration l |}.

Definition lfo_setAttackDuration (x : float) (l : HeraLFOWithEnvelope) :=
  {| lfo_calls := lfo_calls l; lfo_type := lfo_type l;
     lfo_frequency := lfo_frequency l;
     lfo_delayDuration := lfo_delayDuration l; lfo_attackDuration := x |}.

(** [HeraChorus]: the two mode switches. *)
Record HeraChorus := {
  chorusI : float;
  chorusII : float
}.

(** [HeraTables.cpp]: the curves the wrapper evaluates
    ([DEFTABLE(id, 0.0, 1.0, {...})]). *)
Definition curve (data : list float) `{HeraDeps} (x : float) : float :=
  lerp data F32.zero F32.one x.

Definition curveFromLfoRateSliderToFreq `{HeraDeps} : float -> float :=
  curve [F32.dec 3 10; F32.dec 85 100; F32.dec 339 100; F32.dec 1149 100;
         F32.dec 2222 100].

Definition curveFromLfoDelaySliderToDelay `{HeraDeps} : float -> float :=
  curve [F32.zero; F32.dec 639 10000; F32.dec 85 100; F32.dec 12 10;
         F32.dec 2685 1000].

Definition curveFromLfoDelaySliderToAttack `{HeraDeps} : float -> float :=
  curve [F32.dec 1 1000; F32.dec 53 1000; F32.dec 188 1000;
         F32.dec 348 1000; F32.dec 115 100].

(** ** Voice structure - one per polyphony voice *)

Record HeraVoiceState := {
  active : bool;
  note : Z;                       (* MIDI note (after octave transpose) *)
  frequency : float;              (* Hz *)
  velocity : float;               (* 0-1 *)
  pitchBendFactor : float;
  dco : HeraDCO;
  normalEnvelope : HeraEnvelope;
  gateEnvelope : HeraEnvelope;
  smoothPWMDepth : OnePoleSmoothValue;
  voice_vcaType : Z;
  pwmMod : Z
}.

Definition set_active (x : bool) (v : HeraVoiceState) : HeraVoiceState :=
  {| active := x; note := note v; frequency := frequency v;
     velocity := velocity v; pitchBendFactor := pitchBendFactor v;
     dco := dco v; normalEnvelope := normalEnvelope v;
     gateEnvelope := gateEnvelope v; smoothPWMDepth := smoothPWMDepth v;
     voice_vcaType := voice_vcaType v; pwmMod := pwmMod v |}.

Definition set_note (x : Z) (v : HeraVoiceState) : HeraVoiceState :=
  {| active := active v; note := x; frequency := frequency v;
     velocity := velocity v; pitchBendFactor := pitchBendFactor v;
     dco := dco v; normalEnvelope := normalEnvelope v;
     gateEnvelope := gateEnvelope v; smoothPWMDepth := smoothPWMDepth v;
     voice_vcaType := voice_vcaType v; pwmMod := pwmMod v |}.

Definition set_frequency (x : float) (v : HeraVoiceState) : HeraVoiceState :=
  {| active := active v; note := note v; frequency := x;
     velocity := velocity v; pitchBendFactor := pitchBendFactor v;
     dco := dco v; normalEnvelope := normalEnvelope v;
     gateEnvelope := gateEnvelope v; smoothPWMDepth := smoothPWMDepth v;
     voice_vcaType := voice_vcaType v; pwmMod := pwmMod v |}.

Definition set_velocity (x : float) (v : HeraVoiceState) : HeraVoiceState :=
  {| active := active v; note := note v; frequency := frequency v;
     velocity := x; pitchBendFactor := pitchBendFactor v;
     dco := dco v; normalEnvelope := normalEnvelope v;
     gateEnvelope := gateEnvelope v; smoothPWMDepth := smoothPWMDepth v;
     voice_vcaType := voice_vcaType v; pwmMod := pwmMod v |}.

Definition with_dco (f : HeraDCO -> HeraDCO) (v : HeraVoiceState)
  : HeraVoiceState :=
  {| active := active v; note := note v; frequency := frequency v;
     velocity := velocity v; pitchBendFactor := pitchBendFactor v;
     dco := f (dco v); normalEnvelope := normalEnvelope v;
     gateEnvelope := gateEnvelope v; smoothPWMDepth := smoothPWMDepth v;
     voice_vcaType := voice_vcaType v; pwmMod := pwmMod v |}.

Definition with_normalEnvelope (f : HeraEnvelope -> HeraEnvelope)
  (v : HeraVoiceState) : HeraVoiceState :=
  {| active := active v; note := note v; frequency := frequency v;
     velocity := velocity v; pitchBendFactor := pitchBendFactor v;
     dco := dco v; normalEnvelope := f (normalEnvelope v);
     gateEnvelope := gateEnvelope v; smoothPWMDepth := smoothPWMDepth v;
     voice_vcaType := voice_vcaType v; pwmMod := pwmMod v |}.

Definition with_gateEnvelope (f : HeraEnvelope -> HeraEnvelope)
  (v : HeraVoiceState) : HeraVoiceState :=
  {| active := active v; note := note v; frequency := frequency v;
     velocity := velocity v; pitchBendFactor := pitchBendFactor v;
     dco := dco v; normalEnvelope := normalEnvelope v;
     gateEnvelope := f (gateEnvelope v); smoothPWMDepth := smoothPWMDepth v;
     voice_vcaType := voice_vcaType v; pwmMod := pwmMod v |}.

Definition with_smoothPWMDepth (f : OnePoleSmoothValue -> OnePoleSmoothValue)
  (v : HeraVoiceState) : HeraVoiceState :=
  {| active := active v; note := note v; frequency := frequency v;
     velocity := velocity v; pitchBendFactor := pitchBendFactor v;
     dco := dco v; normalEnvelope := normalEnvelope v;
     gateEnvelope := gateEnvelope v; smoothPWMDepth := f (smoothPWMDepth v);
     voice_vcaType := voice_vcaType v; pwmMod := pwmMod v |}.

Definition set_voice_vcaType (x : Z) (v : HeraVoiceState) : HeraVoiceState :=
  {| active := active v; note := note v; frequency := frequency v;
     velocity := velocity v; pitchBendFactor := pitchBendFactor v;
     dco := dco v; normalEnvelope := normalEnvelope v;
     gateEnvelope := gateEnvelope v; smoothPWMDepth := smoothPWMDepth v;
     voice_vcaType := x; pwmMod := pwmMod v |}.

Definition set_pwmMod (x : Z) (v : HeraVoiceState) : HeraVoiceState :=
  {| active := active v; note := note v; frequency := frequency v;
     velocity := velocity v; pitchBendFactor := pitchBendFactor v;
     dco := dco v; normalEnvelope := normalEnvelope v;
     gateEnvelope := gateEnvelope v; smoothPWMDepth := smoothPWMDepth v;
     voice_vcaType := voice_vcaType v; pwmMod := x |}.

(** [getCurrentEnvelope]: the envelope that governs the voice. *)
Definition getCurrentEnvelope (v : HeraVoiceState) : HeraEnvelope :=
  if voice_vcaType v =? kHeraVCATypeEnvelope
  then normalEnvelope v else gateEnvelope v.

(** An update through the reference [getCurrentEnvelope()] returns. *)
Definition with_currentEnvelope (f : HeraEnvelope -> HeraEnvelope)
  (v : HeraVoiceState) : HeraVoiceState :=
  if voice_vcaType v =? kHeraVCATypeEnvelope
  then with_normalEnvelope f v else with_gateEnvelope f v.

Definition isReleased (v : HeraVoiceState) : bool :=
  if voice_vcaType v =? kHeraVCATypeEnvelope
  then env_isReleased (normalEnvelope v)
  else env_isReleased (gateEnvelope v).

(** The voice constructor.  The gate envelope has fixed, short times.
    Members the constructor leaves to the default constructors of the
    missing classes are taken as zero; [v2_create_instance] overwrites
    them when it applies the default parameters. *)
Definition default_envelope : HeraEnvelope :=
  {| env_state := Idle; env_attack := F32.zero; env_decay := F32.zero;
     env_sustain := F32.zero; env_release := F32.zero |}.

Definition new_voice : HeraVoiceState :=
  {| active := false;
     note := -1;
     frequency := F32.of_int 440;
     velocity := F32.zero;
     pitchBendFactor := F32.one;
     dco := {| dco_frequency := F32.zero; dco_sawLevel := F32.zero;
               dco_pulseLevel := F32.zero; dco_subLevel := F32.zero;
               dco_noiseLevel := F32.zero |};
     normalEnvelope := default_envelope;
     gateEnvelope :=
       setRelease (F32.dec 57 10000)
         (setSustain (F32.dec 98 100)
            (setDecay (F32.dec 57 10000)
               (setAttack (F32.dec 247 100000) default_envelope)));
     smoothPWMDepth := {| currentValue := F32.zero; targetValue := F32.zero |};
     voice_vcaType := kHeraVCATypeEnvelope;
     pwmMod := kHeraPWMManual |}.

(** ** Presets and parameter tables *)

Record HeraPreset := {
  pname : string;
  values : list float            (* kHeraNumParameters entries *)
}.

(** Default parameter values, [g_param_defaults]. *)
Definition g_param_defaults : list float :=
  [ F32.dec 5 10;   (* VCA depth *)
    F32.zero;       (* VCA type (envelope) *)
    F32.dec 5 10;   (* PWM depth *)
    F32.zero;       (* PWM mod (manual) *)
    F32.one;        (* Saw level *)
    F32.zero;       (* Pulse level *)
    F32.zero;       (* Sub level *)
    F32.zero;       (* Noise level *)
    F32.one;        (* Pitch range (8') *)
    F32.zero;       (* Pitch mod depth *)
    F32.dec 5 10;   (* VCF cutoff *)
    F32.zero;       (* VCF resonance *)
    F32.zero;       (* VCF envelope mod depth *)
    F32.zero;       (* VCF LFO mod depth *)
    F32.zero;       (* VCF keyboard mod depth *)
    F32.zero;       (* VCF bend depth *)
    F32.zero;       (* Attack *)
    F32.zero;       (* Decay *)
    F32.zero;       (* Sustain *)
    F32.zero;       (* Release *)
    F32.one;        (* LFO trigger mode (auto) *)
    F32.zero;       (* LFO rate *)
    F32.zero;       (* LFO delay *)
    F32.zero;       (* HPF *)
    F32.zero;       (* Chorus I *)
    F32.zero ].     (* Chorus II *)

(** [param_def_t] of the missing [param_helper.h], as the table below
    initialises it: key, display name, type, engine index, range. *)
Inductive param_type := PARAM_TYPE_FLOAT | PARAM_TYPE_INT.

Record param_def_t := {
  key : string;
  name : string;
  type : param_type;
  index : HeraParam;
  min_val : float;
  max_val : float
}.

Definition pd (k n : string) (t : param_type) (i : HeraParam) (lo hi : Z)
  : param_def_t :=
  {| key := k; name := n; type := t; index := i;
     min_val := F32.of_int lo; max_val := F32.of_int hi |}.

(** Shadow UI parameter definitions, [g_shadow_params]: the static
    catalog of parameter ranges. *)
Definition g_shadow_params : list param_def_t :=
  [ (* DCO *)
    pd "saw_level" "Saw Level" PARAM_TYPE_FLOAT kHeraParamSawLevel 0 1;
    pd "pulse_level" "Pulse Level" PARAM_TYPE_FLOAT kHeraParamPulseLevel 0 1;
    pd "sub_level" "Sub Level" PARAM_TYPE_FLOAT kHeraParamSubLevel 0 1;
    pd "noise_level" "Noise Level" PARAM_TYPE_FLOAT kHeraParamNoiseLevel 0 1;
    pd "pwm_depth" "PWM Depth" PARAM_TYPE_FLOAT kHeraParamPWMDepth 0 1;
    pd "pwm_mod" "PWM Mod" PARAM_TYPE_INT kHeraParamPWMMod 0 2;
    pd "pitch_range" "Range" PARAM_TYPE_INT kHeraParamPitchRange 0 2;
    pd "pitch_mod" "Pitch Mod" PARAM_TYPE_FLOAT kHeraParamPitchModDepth 0 1;
    (* VCF *)
    pd "vcf_cutoff" "VCF Cutoff" PARAM_TYPE_FLOAT kHeraParamVCFCutoff 0 1;
    pd "vcf_resonance" "VCF Reso" PARAM_TYPE_FLOAT kHeraParamVCFResonance 0 1;
    pd "vcf_env" "VCF Env" PARAM_TYPE_FLOAT kHeraParamVCFEnvelopeModDepth
       (-1) 1;
    pd "vcf_lfo" "VCF LFO" PARAM_TYPE_FLOAT kHeraParamVCFLFOModDepth 0 1;
    pd "vcf_key" "VCF Key" PARAM_TYPE_FLOAT kHeraParamVCFKeyboardModDepth 0 1;
    pd "vcf_bend" "VCF Bend" PARAM_TYPE_FLOAT kHeraParamVCFBendDepth 0 1;
    (* VCA *)
    pd "vca_depth" "VCA Depth" PARAM_TYPE_FLOAT kHeraParamVCA 0 1;
    pd "vca_type" "VCA Type" PARAM_TYPE_INT kHeraParamVCAType 0 1;
    (* Envelope *)
    pd "attack" "Attack" PARAM_TYPE_FLOAT kHeraParamAttack 0 1;
    pd "decay" "Decay" PARAM_TYPE_FLOAT kHeraParamDecay 0 1;
    pd "sustain" "Sustain" PARAM_TYPE_FLOAT kHeraParamSustain 0 1;
    pd "release" "Release" PARAM_TYPE_FLOAT kHeraParamRelease 0 1;
    (* LFO *)
    pd "lfo_rate" "LFO Rate" PARAM_TYPE_FLOAT kHeraParamLFORate 0 1;
    pd "lfo_delay" "LFO Delay" PARAM_TYPE_FLOAT kHeraParamLFODelay 0 1;
    pd "lfo_trigger" "LFO Trigger" PARAM_TYPE_INT kHeraParamLFOTriggerMode 0 1;
    (* HPF *)
    pd "hpf" "HPF" PARAM_TYPE_FLOAT kHeraParamHPF 0 1;
    (* Chorus *)
    pd "chorus_i" "Chorus I" PARAM_TYPE_INT kHeraParamChorusI 0 1;
    pd "chorus_ii" "Chorus II" PARAM_TYPE_INT kHeraParamChorusII 0 1 ].

(** ** Instance structure

    The scratch buffers of the render pass are not part of the state:
    every render call overwrites what it reads from them. *)
Record hera_instance_t := {
  params : list float;                       (* kHeraNumParameters *)
  voices : list HeraVoiceState;              (* MAX_VOICES *)
  lfo : HeraLFOWithEnvelope;
  hpFilter : float;                          (* HeraHPF amount *)
  vca : float;                               (* HeraVCA amount *)
  chorus : HeraChorus;
  smoothPitchModDepth : OnePoleSmoothValue;
  smoothCutoff : OnePoleSmoothValue;
  smoothResonance : OnePoleSmoothValue;
  smoothVCFEnvModDepth : OnePoleSmoothValue;
  smoothVCFLFOModDepth : OnePoleSmoothValue;
  smoothVCFKeyboardModDepth : OnePoleSmoothValue;
  smoothVCFBendDepth : OnePoleSmoothValue;
  pitchFactor : float;
  vcaType : Z;
  lfoMode : Z;
  pitchBendSemitones : float;
  presets : list HeraPreset;                 (* preset_count entries *)
  current_preset : Z;
  preset_name : string;
  octave_transpose : Z;
  output_gain : float;
  volume : float
}.

Definition preset_count (inst : hera_instance_t) : Z :=
  Z.of_nat (length (presets inst)).

(** Field updates: [upd_f g inst] is [inst] with member [f] replaced by
    [g] of its value. *)
Definition upd_params (g : list float -> list float) (i : hera_instance_t)
  : hera_instance_t :=
  {| params := g (params i); voices := voices i; lfo := lfo i; hpFilter
     := hpFilter i; vca := vca i; chorus := chorus i;
     smoothPitchModDepth := smoothPitchModDepth i; smoothCutoff :=
     smoothCutoff i; smoothResonance := smoothResonance i;
     smoothVCFEnvModDepth := smoothVCFEnvModDepth i;
     smoothVCFLFOModDepth := smoothVCFLFOModDepth i;
     smoothVCFKeyboardModDepth := smoothVCFKeyboardModDepth i;
     smoothVCFBendDepth := smoothVCFBendDepth i; pitchFactor :=
     pitchFactor i; vcaType := vcaType i; lfoMode := lfoMode i;
     pitchBendSemitones := pitchBendSemitones i; presets := presets i;
     current_preset := current_preset i; preset_name := preset_name i;
     octave_transpose := octave_transpose i; output_gain := output_gain
     i; volume := volume i |}.

Definition upd_voices (g : list HeraVoiceState -> list HeraVoiceState) (i : hera_instance_t)
  : hera_instance_t :=
  {| params := params i; voices := g (voices i); lfo := lfo i; hpFilter
     := hpFilter i; vca := vca i; chorus := chorus i;
     smoothPitchModDepth := smoothPitchModDepth i; smoothCutoff :=
     smoothCutoff i; smoothResonance := smoothResonance i;
     smoothVCFEnvModDepth := smoothVCFEnvModDepth i;
     smoothVCFLFOModDepth := smoothVCFLFOModDepth i;
     smoothVCFKeyboardModDepth := smoothVCFKeyboardModDepth i;
     smoothVCFBendDepth := smoothVCFBendDepth i; pitchFactor :=
     pitchFactor i; vcaType := vcaType i; lfoMode := lfoMode i;
     pitchBendSemitones := pitchBendSemitones i; presets := presets i;
     current_preset := current_preset i; preset_name := preset_name i;
     octave_transpose := octave_transpose i; output_gain := output_gain
     i; volume := volume i |}.

Definition upd_lfo (g : HeraLFOWithEnvelope -> HeraLFOWithEnvelope) (i : hera_instance_t)
  : hera_instance_t :=
  {| params := params i; voices := voices i; lfo := g (lfo i); hpFilter
     := hpFilter i; vca := vca i; chorus := chorus i;
     smoothPitchModDepth := smoothPitchModDepth i; smoothCutoff :=
     smoothCutoff i; smoothResonance := smoothResonance i;
     smoothVCFEnvModDepth := smoothVCFEnvModDepth i;
     smoothVCFLFOModDepth := smoothVCFLFOModDepth i;
     smoothVCFKeyboardModDepth := smoothVCFKeyboardModDepth i;
     smoothVCFBendDepth := smoothVCFBendDepth i; pitchFactor :=
     pitchFactor i; vcaType := vcaType i; lfoMode := lfoMode i;
     pitchBendSemitones := pitchBendSemitones i; presets := presets i;
     current_preset := current_preset i; preset_name := preset_name i;
     octave_transpose := octave_transpose i; output_gain := output_gain
     i; volume := volume i |}.

Definition upd_hpFilter (g : float -> float) (i : hera_instance_t)
  : hera_instance_t :=
  {| params := params i; voices := voices i; lfo := lfo i; hpFilter := g
     (hpFilter i); vca := vca i; chorus := chorus i; smoothPitchModDepth
     := smoothPitchModDepth i; smoothCutoff := smoothCutoff i;
     smoothResonance := smoothResonance i; smoothVCFEnvModDepth :=
     smoothVCFEnvModDepth i; smoothVCFLFOModDepth :=
     smoothVCFLFOModDepth i; smoothVCFKeyboardModDepth :=
     smoothVCFKeyboardModDepth i; smoothVCFBendDepth :=
     smoothVCFBendDepth i; pitchFactor := pitchFactor i; vcaType :=
     vcaType i; lfoMode := lfoMode i; pitchBendSemitones :=
     pitchBendSemitones i; presets := presets i; current_preset :=
     current_preset i; preset_name := preset_name i; octave_transpose :=
     octave_transpose i; output_gain := output_gain i; volume := volume
     i |}.

Definition upd_vca (g : float -> float) (i : hera_instance_t)
  : hera_instance_t :=
  {| params := params i; voices := voices i; lfo := lfo i; hpFilter :=
     hpFilter i; vca := g (vca i); chorus := chorus i;
     smoothPitchModDepth := smoothPitchModDepth i; smoothCutoff :=
     smoothCutoff i; smoothResonance := smoothResonance i;
     smoothVCFEnvModDepth := smoothVCFEnvModDepth i;
     smoothVCFLFOModDepth := smoothVCFLFOModDepth i;
     smoothVCFKeyboardModDepth := smoothVCFKeyboardModDepth i;
     smoothVCFBendDepth := smoothVCFBendDepth i; pitchFactor :=
     pitchFactor i; vcaType := vcaType i; lfoMode := lfoMode i;
     pitchBendSemitones := pitchBendSemitones i; presets := presets i;
     current_preset := current_preset i; preset_name := preset_name i;
     octave_transpose := octave_transpose i; output_gain := output_gain
     i; volume := volume i |}.

Definition upd_chorus (g : HeraChorus -> HeraChorus) (i : hera_instance_t)
  : hera_instance_t :=
  {| params := params i; voices := voices i; lfo := lfo i; hpFilter :=
     hpFilter i; vca := vca i; chorus := g (chorus i);
     smoothPitchModDepth := smoothPitchModDepth i; smoothCutoff :=
     smoothCutoff i; smoothResonance := smoothResonance i;
     smoothVCFEnvModDepth := smoothVCFEnvModDepth i;
     smoothVCFLFOModDepth := smoothVCFLFOModDepth i;
     smoothVCFKeyboardModDepth := smoothVCFKeyboardModDepth i;
     smoothVCFBendDepth := smoothVCFBendDepth i; pitchFactor :=
     pitchFactor i; vcaType := vcaType i; lfoMode := lfoMode i;
     pitchBendSemitones := pitchBendSemitones i; presets := presets i;
     current_preset := current_preset i; preset_name := preset_name i;
     octave_transpose := octave_transpose i; output_gain := output_gain
     i; volume := volume i |}.

Definition upd_smoothPitchModDepth (g : OnePoleSmoothValue -> OnePoleSmoothValue) (i : hera_instance_t)
  : hera_instance_t :=
  {| params := params i; voices := voices i; lfo := lfo i; hpFilter :=
     hpFilter i; vca := vca i; chorus := chorus i; smoothPitchModDepth
     := g (smoothPitchModDepth i); smoothCutoff := smoothCutoff i;
     smoothResonance := smoothResonance i; smoothVCFEnvModDepth :=
     smoothVCFEnvModDepth i; smoothVCFLFOModDepth :=
     smoothVCFLFOModDepth i; smoothVCFKeyboardModDepth :=
     smoothVCFKeyboardModDepth i; smoothVCFBendDepth :=
     smoothVCFBendDepth i; pitchFactor := pitchFactor i; vcaType :=
     vcaType i; lfoMode := lfoMode i; pitchBendSemitones :=
     pitchBendSemitones i; presets := presets i; current_preset :=
     current_preset i; preset_name := preset_name i; octave_transpose :=
     octave_transpose i; output_gain := output_gain i; volume := volume
     i |}.

Definition upd_smoothCutoff (g : OnePoleSmoothValue -> OnePoleSmoothValue) (i : hera_instance_t)
  : hera_instance_t :=
  {| params := params i; voices := voices i; lfo := lfo i; hpFilter :=
     hpFilter i; vca := vca i; chorus := chorus i; smoothPitchModDepth
     := smoothPitchModDepth i; smoothCutoff := g (smoothCutoff i);
     smoothResonance := smoothResonance i; smoothVCFEnvModDepth :=
     smoothVCFEnvModDepth i; smoothVCFLFOModDepth :=
     smoothVCFLFOModDepth i; smoothVCFKeyboardModDepth :=
     smoothVCFKeyboardModDepth i; smoothVCFBendDepth :=
     smoothVCFBendDepth i; pitchFactor := pitchFactor i; vcaType :=
     vcaType i; lfoMode := lfoMode i; pitchBendSemitones :=
     pitchBendSemitones i; presets := presets i; current_preset :=
     current_preset i; preset_name := preset_name i; octave_transpose :=
     octave_transpose i; output_gain := output_gain i; volume := volume
     i |}.

Definition upd_smoothResonance (g : OnePoleSmoothValue -> OnePoleSmoothValue) (i : hera_instance_t)
  : hera_instance_t :=
  {| params := params i; voices := voices i; lfo := lfo i; hpFilter :=
     hpFilter i; vca := vca i; chorus := chorus i; smoothPitchModDepth
     := smoothPitchModDepth i; smoothCutoff := smoothCutoff i;
     smoothResonance := g (smoothResonance i); smoothVCFEnvModDepth :=
     smoothVCFEnvModDepth i; smoothVCFLFOModDepth :=
     smoothVCFLFOModDepth i; smoothVCFKeyboardModDepth :=
     smoothVCFKeyboardModDepth i; smoothVCFBendDepth :=
     smoothVCFBendDepth i; pitchFactor := pitchFactor i; vcaType :=
     vcaType i; lfoMode := lfoMode i; pitchBendSemitones :=
     pitchBendSemitones i; presets := presets i; current_preset :=
     current_preset i; preset_name := preset_name i; octave_transpose :=
     octave_transpose i; output_gain := output_gain i; volume := volume
     i |}.

Definition upd_smoothVCFEnvModDepth (g : OnePoleSmoothValue -> OnePoleSmoothValue) (i : hera_instance_t)
  : hera_instance_t :=
  {| params := params i; voices := voices i; lfo := lfo i; hpFilter :=
     hpFilter i; vca := vca i; chorus := chorus i; smoothPitchModDepth
     := smoothPitchModDepth i; smoothCutoff := smoothCutoff i;
     smoothResonance := smoothResonance i; smoothVCFEnvModDepth := g
     (smoothVCFEnvModDepth i); smoothVCFLFOModDepth :=
     smoothVCFLFOModDepth i; smoothVCFKeyboardModDepth :=
     smoothVCFKeyboardModDepth i; smoothVCFBendDepth :=
     smoothVCFBendDepth i; pitchFactor := pitchFactor i; vcaType :=
     vcaType i; lfoMode := lfoMode i; pitchBendSemitones :=
     pitchBendSemitones i; presets := presets i; current_preset :=
     current_preset i; preset_name := preset_name i; octave_transpose :=
     octave_transpose i; output_gain := output_gain i; volume := volume
     i |}.

Definition upd_smoothVCFLFOModDepth (g : OnePoleSmoothValue -> OnePoleSmoothValue) (i : hera_instance_t)
  : hera_instance_t :=
  {| params := params i; voices := voices i; lfo := lfo i; hpFilter :=
     hpFilter i; vca := vca i; chorus := chorus i; smoothPitchModDepth
     := smoothPitchModDepth i; smoothCutoff := smoothCutoff i;
     smoothResonance := smoothResonance i; smoothVCFEnvModDepth :=
     smoothVCFEnvModDepth i; smoothVCFLFOModDepth := g
     (smoothVCFLFOModDepth i); smoothVCFKeyboardModDepth :=
     smoothVCFKeyboardModDepth i; smoothVCFBendDepth :=
     smoothVCFBendDepth i; pitchFactor := pitchFactor i; vcaType :=
     vcaType i; lfoMode := lfoMode i; pitchBendSemitones :=
     pitchBendSemitones i; presets := presets i; current_preset :=
     current_preset i; preset_name := preset_name i; octave_transpose :=
     octave_transpose i; output_gain := output_gain i; volume := volume
     i |}.

Definition upd_smoothVCFKeyboardModDepth (g : OnePoleSmoothValue -> OnePoleSmoothValue) (i : hera_instance_t)
  : hera_instance_t :=
  {| params := params i; voices := voices i; lfo := lfo i; hpFilter :=
     hpFilter i; vca := vca i; chorus := chorus i; smoothPitchModDepth
     := smoothPitchModDepth i; smoothCutoff := smoothCutoff i;
     smoothResonance := smoothResonance i; smoothVCFEnvModDepth :=
     smoothVCFEnvModDepth i; smoothVCFLFOModDepth :=
     smoothVCFLFOModDepth i; smoothVCFKeyboardModDepth := g
     (smoothVCFKeyboardModDepth i); smoothVCFBendDepth :=
     smoothVCFBendDepth i; pitchFactor := pitchFactor i; vcaType :=
     vcaType i; lfoMode := lfoMode i; pitchBendSemitones :=
     pitchBendSemitones i; presets := presets i; current_preset :=
     current_preset i; preset_name := preset_name i; octave_transpose :=
     octave_transpose i; output_gain := output_gain i; volume := volume
     i |}.

Definition upd_smoothVCFBendDepth (g : OnePoleSmoothValue -> OnePoleSmoothValue) (i : hera_instance_t)
  : hera_instance_t :=
  {| params := params i; voices := voices i; lfo := lfo i; hpFilter :=
     hpFilter i; vca := vca i; chorus := chorus i; smoothPitchModDepth
     := smoothPitchModDepth i; smoothCutoff := smoothCutoff i;
     smoothResonance := smoothResonance i; smoothVCFEnvModDepth :=
     smoothVCFEnvModDepth i; smoothVCFLFOModDepth :=
     smoothVCFLFOModDepth i; smoothVCFKeyboardModDepth :=
     smoothVCFKeyboardModDepth i; smoothVCFBendDepth := g
     (smoothVCFBendDepth i); pitchFactor := pitchFactor i; vcaType :=
     vcaType i; lfoMode := lfoMode i; pitchBendSemitones :=
     pitchBendSemitones i; presets := presets i; current_preset :=
     current_preset i; preset_name := preset_name i; octave_transpose :=
     octave_transpose i; output_gain := output_gain i; volume := volume
     i |}.

Definition upd_pitchFactor (g : float -> float) (i : hera_instance_t)
  : hera_instance_t :=
  {| params := params i; voices := voices i; lfo := lfo i; hpFilter :=
     hpFilter i; vca := vca i; chorus := chorus i; smoothPitchModDepth
     := smoothPitchModDepth i; smoothCutoff := smoothCutoff i;
     smoothResonance := smoothResonance i; smoothVCFEnvModDepth :=
     smoothVCFEnvModDepth i; smoothVCFLFOModDepth :=
     smoothVCFLFOModDepth i; smoothVCFKeyboardModDepth :=
     smoothVCFKeyboardModDepth i; smoothVCFBendDepth :=
     smoothVCFBendDepth i; pitchFactor := g (pitchFactor i); vcaType :=
     vcaType i; lfoMode := lfoMode i; pitchBendSemitones :=
     pitchBendSemitones i; presets := presets i; current_preset :=
     current_preset i; preset_name := preset_name i; octave_transpose :=
     octave_transpose i; output_gain := output_gain i; volume := volume
     i |}.

Definition upd_vcaType (g : Z -> Z) (i : hera_instance_t)
  : hera_instance_t :=
  {| params := params i; voices := voices i; lfo := lfo i; hpFilter :=
     hpFilter i; vca := vca i; chorus := chorus i; smoothPitchModDepth
     := smoothPitchModDepth i; smoothCutoff := smoothCutoff i;
     smoothResonance := smoothResonance i; smoothVCFEnvModDepth :=
     smoothVCFEnvModDepth i; smoothVCFLFOModDepth :=
     smoothVCFLFOModDepth i; smoothVCFKeyboardModDepth :=
     smoothVCFKeyboardModDepth i; smoothVCFBendDepth :=
     smoothVCFBendDepth i; pitchFactor := pitchFactor i; vcaType := g
     (vcaType i); lfoMode := lfoMode i; pitchBendSemitones :=
     pitchBendSemitones i; presets := presets i; current_preset :=
     current_preset i; preset_name := preset_name i; octave_transpose :=
     octave_transpose i; output_gain := output_gain i; volume := volume
     i |}.

Definition upd_lfoMode (g : Z -> Z) (i : hera_instance_t)
  : hera_instance_t :=
  {| params := params i; voices := voices i; lfo := lfo i; hpFilter :=
     hpFilter i; vca := vca i; chorus := chorus i; smoothPitchModDepth
     := smoothPitchModDepth i; smoothCutoff := smoothCutoff i;
     smoothResonance := smoothResonance i; smoothVCFEnvModDepth :=
     smoothVCFEnvModDepth i; smoothVCFLFOModDepth :=
     smoothVCFLFOModDepth i; smoothVCFKeyboardModDepth :=
     smoothVCFKeyboardModDepth i; smoothVCFBendDepth :=
     smoothVCFBendDepth i; pitchFactor := pitchFactor i; vcaType :=
     vcaType i; lfoMode := g (lfoMode i); pitchBendSemitones :=
     pitchBendSemitones i; presets := presets i; current_preset :=
     current_preset i; preset_name := preset_name i; octave_transpose :=
     octave_transpose i; output_gain := output_gain i; volume := volume
     i |}.

Definition upd_pitchBendSemitones (g : float -> float) (i : hera_instance_t)
  : hera_instance_t :=
  {| params := params i; voices := voices i; lfo := lfo i; hpFilter :=
     hpFilter i; vca := vca i; chorus := chorus i; smoothPitchModDepth
     := smoothPitchModDepth i; smoothCutoff := smoothCutoff i;
     smoothResonance := smoothResonance i; smoothVCFEnvModDepth :=
     smoothVCFEnvModDepth i; smoothVCFLFOModDepth :=
     smoothVCFLFOModDepth i; smoothVCFKeyboardModDepth :=
     smoothVCFKeyboardModDepth i; smoothVCFBendDepth :=
     smoothVCFBendDepth i; pitchFactor := pitchFactor i; vcaType :=
     vcaType i; lfoMode := lfoMode i; pitchBendSemitones := g
     (pitchBendSemitones i); presets := presets i; current_preset :=
     current_preset i; preset_name := preset_name i; octave_transpose :=
     octave_transpose i; output_gain := output_gain i; volume := volume
     i |}.

Definition upd_presets (g : list HeraPreset -> list HeraPreset)
  (i : hera_instance_t) : hera_instance_t :=
  {| params := params i; voices := voices i; lfo := lfo i; hpFilter :=
     hpFilter i; vca := vca i; chorus := chorus i; smoothPitchModDepth
     := smoothPitchModDepth i; smoothCutoff := smoothCutoff i;
     smoothResonance := smoothResonance i; smoothVCFEnvModDepth :=
     smoothVCFEnvModDepth i; smoothVCFLFOModDepth :=
     smoothVCFLFOModDepth i; smoothVCFKeyboardModDepth :=
     smoothVCFKeyboardModDepth i; smoothVCFBendDepth :=
     smoothVCFBendDepth i; pitchFactor := pitchFactor i; vcaType :=
     vcaType i; lfoMode := lfoMode i; pitchBendSemitones :=
     pitchBendSemitones i; presets := g (presets i); current_preset :=
     current_preset i; preset_name := preset_name i; octave_transpose :=
     octave_transpose i; output_gain := output_gain i; volume := volume
     i |}.

Definition upd_current_preset (g : Z -> Z) (i : hera_instance_t)
  : hera_instance_t :=
  {| params := params i; voices := voices i; lfo := lfo i; hpFilter :=
     hpFilter i; vca := vca i; chorus := chorus i; smoothPitchModDepth
     := smoothPitchModDepth i; smoothCutoff := smoothCutoff i;
     smoothResonance := smoothResonance i; smoothVCFEnvModDepth :=
     smoothVCFEnvModDepth i; smoothVCFLFOModDepth :=
     smoothVCFLFOModDepth i; smoothVCFKeyboardModDepth :=
     smoothVCFKeyboardModDepth i; smoothVCFBendDepth :=
     smoothVCFBendDepth i; pitchFactor := pitchFactor i; vcaType :=
     vcaType i; lfoMode := lfoMode i; pitchBendSemitones :=
     pitchBendSemitones i; presets := presets i; current_preset := g
     (current_preset i); preset_name := preset_name i; octave_transpose
     := octave_transpose i; output_gain := output_gain i; volume :=
     volume i |}.

Definition upd_preset_name (g : string -> string) (i : hera_instance_t)
  : hera_instance_t :=
  {| params := params i; voices := voices i; lfo := lfo i; hpFilter :=
     hpFilter i; vca := vca i; chorus := chorus i; smoothPitchModDepth
     := smoothPitchModDepth i; smoothCutoff := smoothCutoff i;
     smoothResonance := smoothResonance i; smoothVCFEnvModDepth :=
     smoothVCFEnvModDepth i; smoothVCFLFOModDepth :=
     smoothVCFLFOModDepth i; smoothVCFKeyboardModDepth :=
     smoothVCFKeyboardModDepth i; smoothVCFBendDepth :=
     smoothVCFBendDepth i; pitchFactor := pitchFactor i; vcaType :=
     vcaType i; lfoMode := lfoMode i; pitchBendSemitones :=
     pitchBendSemitones i; presets := presets i; current_preset :=
     current_preset i; preset_name := g (preset_name i);
     octave_transpose := octave_transpose i; output_gain := output_gain
     i; volume := volume i |}.

Definition upd_octave_transpose (g : Z -> Z) (i : hera_instance_t)
  : hera_instance_t :=
  {| params := params i; voices := voices i; lfo := lfo i; hpFilter :=
     hpFilter i; vca := vca i; chorus := chorus i; smoothPitchModDepth
     := smoothPitchModDepth i; smoothCutoff := smoothCutoff i;
     smoothResonance := smoothResonance i; smoothVCFEnvModDepth :=
     smoothVCFEnvModDepth i; smoothVCFLFOModDepth :=
     smoothVCFLFOModDepth i; smoothVCFKeyboardModDepth :=
     smoothVCFKeyboardModDepth i; smoothVCFBendDepth :=
     smoothVCFBendDepth i; pitchFactor := pitchFactor i; vcaType :=
     vcaType i; lfoMode := lfoMode i; pitchBendSemitones :=
     pitchBendSemitones i; presets := presets i; current_preset :=
     current_preset i; preset_name := preset_name i; octave_transpose :=
     g (octave_transpose i); output_gain := output_gain i; volume :=
     volume i |}.

Definition upd_volume (g : float -> float) (i : hera_instance_t)
  : hera_instance_t :=
  {| params := params i; voices := voices i; lfo := lfo i; hpFilter :=
     hpFilter i; vca := vca i; chorus := chorus i; smoothPitchModDepth
     := smoothPitchModDepth i; smoothCutoff := smoothCutoff i;
     smoothResonance := smoothResonance i; smoothVCFEnvModDepth :=
     smoothVCFEnvModDepth i; smoothVCFLFOModDepth :=
     smoothVCFLFOModDepth i; smoothVCFKeyboardModDepth :=
     smoothVCFKeyboardModDepth i; smoothVCFBendDepth :=
     smoothVCFBendDepth i; pitchFactor := pitchFactor i; vcaType :=
     vcaType i; lfoMode := lfoMode i; pitchBendSemitones :=
     pitchBendSemitones i; presets := presets i; current_preset :=
     current_preset i; preset_name := preset_name i; octave_transpose :=
     octave_transpose i; output_gain := output_gain i; volume := g
     (volume i) |}.

Definition upd_voice (vi : nat) (f : HeraVoiceState -> HeraVoiceState)
  : hera_instance_t -> hera_instance_t :=
  upd_voices (alter f vi).

(** ** MIDI note to frequency *)

Definition midi_to_freq `{HeraDeps} (note : Z) : float :=
  F32.mul (F32.of_int 440)
    (powf (F32.of_int 2) (F32.div (F32.of_int (note - 69)) (F32.of_int 12))).

(** ** Apply a parameter value to the synth engine *)

Definition apply_param `{HeraDeps} (inst : hera_instance_t) (param_idx : Z)
  (value : float) : hera_instance_t :=
  match param_of_index param_idx with
  | None => inst
  | Some p =>
    let inst := upd_params (<[Z.to_nat param_idx := value]>) inst in
    match p with
    | kHeraParamVCA => upd_vca (fun _ => value) inst
    | kHeraParamVCAType =>
        let inst := upd_vcaType (fun _ => F32.to_int value) inst in
        upd_voices (fmap (set_voice_vcaType (vcaType inst))) inst
    | kHeraParamPWMDepth =>
        upd_voices (fmap (with_smoothPWMDepth (setTargetValue value))) inst
    | kHeraParamPWMMod =>
        upd_voices (fmap (set_pwmMod (F32.to_int value))) inst
    | kHeraParamSawLevel =>
        upd_voices (fmap (with_dco (dco_setSawLevel value))) inst
    | kHeraParamPulseLevel =>
        upd_voices (fmap (with_dco (dco_setPulseLevel value))) inst
    | kHeraParamSubLevel =>
        upd_voices (fmap (with_dco (dco_setSubLevel value))) inst
    | kHeraParamNoiseLevel =>
        upd_voices (fmap (with_dco (dco_setNoiseLevel value))) inst
    | kHeraParamPitchRange =>
        let factors := [F32.dec 5 10; F32.one; F32.of_int 2] in
        let idx := Z.max 0 (Z.min 2 (F32.to_int value)) in
        upd_pitchFactor
          (fun old => default old (factors !! Z.to_nat idx)) inst
    | kHeraParamPitchModDepth =>
        upd_smoothPitchModDepth (setTargetValue value) inst
    | kHeraParamVCFCutoff => upd_smoothCutoff (setTargetValue value) inst
    | kHeraParamVCFResonance =>
        upd_smoothResonance (setTargetValue value) inst
    | kHeraParamVCFEnvelopeModDepth =>
        upd_smoothVCFEnvModDepth (setTargetValue value) inst
    | kHeraParamVCFLFOModDepth =>
        upd_smoothVCFLFOModDepth (setTargetValue value) inst
    | kHeraParamVCFKeyboardModDepth =>
        upd_smoothVCFKeyboardModDepth (setTargetValue value) inst
    | kHeraParamVCFBendDepth =>
        upd_smoothVCFBendDepth (setTargetValue value) inst
    | kHeraParamAttack =>
        upd_voices (fmap (with_normalEnvelope (setAttack value))) inst
    | kHeraParamDecay =>
        upd_voices (fmap (with_normalEnvelope (setDecay value))) inst
    | kHeraParamSustain =>
        upd_voices (fmap (with_normalEnvelope (setSustain value))) inst
    | kHeraParamRelease =>
        upd_voices (fmap (with_normalEnvelope (setRelease value))) inst
    | kHeraParamLFOTriggerMode =>
        let newMode := F32.to_int value in
        if lfoMode inst =? newMode then inst
        else upd_lfoMode (fun _ => newMode) (upd_lfo lfo_shutdown inst)
    | kHeraParamLFORate =>
        upd_lfo (lfo_setFrequency (curveFromLfoRateSliderToFreq value)) inst
    | kHeraParamLFODelay =>
        upd_lfo (lfo_setAttackDuration (curveFromLfoDelaySliderToAttack value))
          (upd_lfo
             (lfo_setDelayDuration (curveFromLfoDelaySliderToDelay value))
             inst)
    | kHeraParamHPF => upd_hpFilter (fun _ => value) inst
    | kHeraParamChorusI =>
        upd_chorus
          (fun c => {| chorusI := value; chorusII := chorusII c |}) inst
    | kHeraParamChorusII =>
        upd_chorus
          (fun c => {| chorusI := chorusI c; chorusII := value |}) inst
    end
  end.

(** The loop [for (i = 0; i < kHeraNumParameters; i++) apply_param(inst,
    i, vals[i])], on the entries of [vals] from index [i] on. *)
Fixpoint apply_values `{HeraDeps} (i : nat) (vals : list float)
  (inst : hera_instance_t) : hera_instance_t :=
  match vals with
  | [] => inst
  | v :: vals' => apply_values (S i) vals' (apply_param inst (Z.of_nat i) v)
  end.

Definition apply_preset `{HeraDeps} (inst : hera_instance_t) (preset_idx : Z)
  : hera_instance_t :=
  if (preset_idx <? 0) || (preset_count inst <=? preset_idx) then inst
  else
    match presets inst !! Z.to_nat preset_idx with
    | None => inst
    | Some p =>
        let inst := upd_current_preset (fun _ => preset_idx) inst in
        let inst := upd_preset_name (fun _ => pname p) inst in
        apply_values 0 (take kHeraNumParameters (values p)) inst
    end.

(** ** Voice management *)

(** The first index whose voice satisfies [p]: a [for] loop over the pool
    that leaves at the first hit. *)
Fixpoint find_voice (p : HeraVoiceState -> bool) (vs : list HeraVoiceState)
  : option nat :=
  match vs with
  | [] => None
  | v :: vs' => if p v then Some 0%nat else S <$> find_voice p vs'
  end.

Definition unreleased (v : HeraVoiceState) : bool :=
  active v && negb (isReleased v).

Definition has_unreleased_voices (inst : hera_instance_t) : bool :=
  existsb unreleased (voices inst).

Definition find_free_voice (inst : hera_instance_t) : nat :=
  (* First: find an inactive voice *)
  match find_voice (fun v => negb (active v)) (voices inst) with
  | Some i => i
  | None =>
    (* Second: steal the oldest released voice *)
    match find_voice isReleased (voices inst) with
    | Some i => i
    | None =>
      (* Last resort: steal voice 0 *)
      0%nat
    end
  end.

Definition note_on `{HeraDeps} (inst : hera_instance_t) (n : Z)
  (vel : float) : hera_instance_t :=
  let vi := find_free_voice inst in
  let inst :=
    upd_voice vi
      (fun voice =>
         set_voice_vcaType (vcaType inst)
           (set_velocity vel
              (set_frequency (midi_to_freq n)
                 (set_note n (set_active true voice))))) inst in
  (* LFO auto-trigger *)
  let inst :=
    if lfoMode inst =? kHeraLFOAuto then
      if negb (has_unreleased_voices inst) then upd_lfo lfo_noteOn inst
      else inst
    else inst in
  upd_voice vi
    (fun voice =>
       (* Start envelope *)
       let voice := with_currentEnvelope env_noteOn voice in
       (* Set DCO frequency; [flushSmoothValues] acts on the oscillator's
          signal memory only *)
       let voice := with_dco (dco_setFrequency (frequency voice)) voice in
       (* Reset PWM smoother *)
       with_smoothPWMDepth
         (fun s => setCurrentAndTargetValue (getTargetValue s) s) voice)
    inst.

Definition note_off_match (n : Z) (v : HeraVoiceState) : bool :=
  active v && (note v =? n) && negb (isReleased v).

Definition note_off (inst : hera_instance_t) (n : Z) : hera_instance_t :=
  match find_voice (note_off_match n) (voices inst) with
  | None => inst
  | Some i =>
      let inst := upd_voice i (with_currentEnvelope env_noteOff) inst in
      (* LFO auto mode: check if all voices released *)
      if lfoMode inst =? kHeraLFOAuto then
        if negb (has_unreleased_voices inst) then upd_lfo lfo_noteOff inst
        else inst
      else inst
  end.

Definition all_notes_off (inst : hera_instance_t) : hera_instance_t :=
  upd_voices
    (fmap (fun voice =>
            if active voice then
              set_note (-1)
                (set_active false (with_currentEnvelope env_shutdown voice))
            else voice)) inst.

(** ** Audio rendering: modulation arithmetic

    A block buffer is represented by its first [frames] entries. *)

(** The values [getNextValue] returns on [n] successive calls. *)
Fixpoint smooth_values `{HeraDeps} (n : nat) (s : OnePoleSmoothValue)
  : list float :=
  match n with
  | O => []
  | S n' => let '(c, s') := getNextValue s in c :: smooth_values n' s'
  end.

(** The smoother after [n] calls of [getNextValue]. *)
Definition smooth_advance `{HeraDeps} (n : nat) (s : OnePoleSmoothValue)
  : OnePoleSmoothValue :=
  Nat.iter n (fun s => snd (getNextValue s)) s.

(** Process detune (pitch modulation from LFO): the first loop of
    [v2_render_block], over the LFO buffer. *)
Fixpoint detune_loop `{HeraDeps} (detuneFactor : float)
  (lfoBuffer : list float) (s : OnePoleSmoothValue)
  : list float * OnePoleSmoothValue :=
  match lfoBuffer with
  | [] => ([], s)
  | l :: rest =>
      let '(depth, s) := getNextValue s in
      let d :=
        F32.mul detuneFactor
          (exp2f (F32.mul (F32.mul l (F32.dec 25 100)) depth)) in
      let '(out, s) := detune_loop detuneFactor rest s in
      (d :: out, s)
  end.

(** Entry [i] of the modulation buses the second loop fills. *)
Record ModSample := {
  cutoffOctaves : float;
  resonance : float;
  vcfEnvMod : float;
  vcfLFODetuneOctaves : float;
  vcfKeyboardMod : float;
  vcfBendDepth : float
}.

(** The bus entries of one sample, from the six smoothed parameter
    values of that sample and the LFO value. *)
Definition mod_values (cutoff reso envd lfod keyd bendd lfo_i : float)
  : ModSample :=
  let cutoffDetuneOctaves :=
    F32.mul cutoff (F32.div (F32.of_int 200) (F32.of_int 12)) in
  let resonanceDetuneOctaves := F32.mul reso (F32.dec 5 10) in
  {| cutoffOctaves := F32.add cutoffDetuneOctaves resonanceDetuneOctaves;
     resonance := reso;
     vcfEnvMod := envd;
     vcfLFODetuneOctaves := F32.mul (F32.mul lfod lfo_i) (F32.of_int 3);
     vcfKeyboardMod := keyd;
     vcfBendDepth := bendd |}.

(** One iteration of the cutoff and resonance smoothing loop. *)
Definition mod_sample `{HeraDeps} (lfo_i : float) (inst : hera_instance_t)
  : ModSample * hera_instance_t :=
  let '(cutoff, sc) := getNextValue (smoothCutoff inst) in
  let '(reso, sr) := getNextValue (smoothResonance inst) in
  let '(envd, se) := getNextValue (smoothVCFEnvModDepth inst) in
  let '(lfod, sl) := getNextValue (smoothVCFLFOModDepth inst) in
  let '(keyd, sk) := getNextValue (smoothVCFKeyboardModDepth inst) in
  let '(bendd, sb) := getNextValue (smoothVCFBendDepth inst) in
  (mod_values cutoff reso envd lfod keyd bendd lfo_i,
   upd_smoothVCFBendDepth (fun _ => sb)
     (upd_smoothVCFKeyboardModDepth (fun _ => sk)
        (upd_smoothVCFLFOModDepth (fun _ => sl)
           (upd_smoothVCFEnvModDepth (fun _ => se)
              (upd_smoothResonance (fun _ => sr)
                 (upd_smoothCutoff (fun _ => sc) inst)))))).

Fixpoint mod_loop `{HeraDeps} (lfoBuffer : list float)
  (inst : hera_instance_t) : list ModSample * hera_instance_t :=
  match lfoBuffer with
  | [] => ([], inst)
  | l :: rest =>
      let '(m, inst) := mod_sample l inst in
      let '(out, inst) := mod_loop rest inst in
      (m :: out, inst)
  end.

(** The sum of octave contributions of one sample in [render_voice], the
    argument of [exp2]. *)
Definition cutoff_octaves (m : ModSample) (modEnvelopeIn ampEnvelopeIn : float)
  (filterNoteFactor pitchbendFactor : float) : float :=
  let envDetuneOctaves :=
    F32.mul (F32.mul (vcfEnvMod m) modEnvelopeIn) (F32.of_int 12) in
  let lfoDetuneOctaves := F32.mul (vcfLFODetuneOctaves m) ampEnvelopeIn in
  let keyboardDetuneOctaves := F32.mul (vcfKeyboardMod m) filterNoteFactor in
  let filterBendOctaves := F32.mul (vcfBendDepth m) pitchbendFactor in
  F32.add
    (F32.add
       (F32.add (F32.add (cutoffOctaves m) envDetuneOctaves)
          lfoDetuneOctaves)
       keyboardDetuneOctaves)
    filterBendOctaves.

Definition filterNoteFactor (voice : HeraVoiceState) : float :=
  F32.mul (F32.of_int (note voice - 60))
    (F32.div F32.one (F32.of_int 12)).

Definition pitchbendFactor (inst : hera_instance_t) : float :=
  F32.mul (pitchBendSemitones inst)
    (F32.div (F32.of_int 48) (F32.mul (F32.of_int 12) (F32.of_int 7))).

(** Process VCF: the cutoff loop of [render_voice].  Its result is the
    buffer [cutoff] handed to [voice.vcf.processNextBlock].  The envelope
    buffers are the outputs of the envelopes' [processNextBlock]. *)
Fixpoint cutoff_loop `{HeraDeps} (fnf pbf : float) (buses : list ModSample)
  (modEnvelopeIn ampEnvelopeIn : list float) : list float :=
  match buses, modEnvelopeIn, ampEnvelopeIn with
  | m :: buses', me :: modEnv', ae :: ampEnv' =>
      F32.mul (F32.dec 78 10) (exp2f (cutoff_octaves m me ae fnf pbf))
      :: cutoff_loop fnf pbf buses' modEnv' ampEnv'
  | _, _, _ => []
  end.

Definition render_voice_cutoff `{HeraDeps} (inst : hera_instance_t)
  (voice : HeraVoiceState) (buses : list ModSample)
  (envelopeBuffer gateBuffer : list float) : list float :=
  let modEnvelopeIn := envelopeBuffer in
  let ampEnvelopeIn :=
    if voice_vcaType voice =? kHeraVCATypeEnvelope
    then envelopeBuffer else gateBuffer in
  cutoff_loop (filterNoteFactor voice) (pitchbendFactor inst) buses
    modEnvelopeIn ampEnvelopeIn.

(** ** Audio rendering: voice life cycle *)

(** What [render_voice] leaves in the voice.  [stages] gives the number
    of stage boundaries the normal and the gate envelope cross in this
    block.  The oscillator and filter memories the deactivation clears
    ([dco.instanceClear], [vcf.reset]) are not represented. *)
Definition render_voice `{HeraDeps} (stages : nat * nat) (numSamples : nat)
  (voice : HeraVoiceState) : HeraVoiceState :=
  (* Process envelope *)
  let voice := with_normalEnvelope (env_processNextBlock (fst stages)) voice in
  let voice :=
    if voice_vcaType voice =? kHeraVCATypeEnvelope then voice
    else with_gateEnvelope (env_processNextBlock (snd stages)) voice in
  (* Process PWM *)
  let voice := with_smoothPWMDepth (smooth_advance numSamples) voice in
  (* Check if voice should be deactivated *)
  if env_isActive (getCurrentEnvelope voice) then voice
  else
    set_note (-1)
      (set_active false
         (with_gateEnvelope env_reset
            (with_currentEnvelope env_reset voice))).

(** What [v2_render_block] leaves in the instance.  [stages v] is the
    envelope progress of voice [v] during the block. *)
Definition v2_render_block `{HeraDeps} (inst : hera_instance_t)
  (frames : nat) (stages : nat -> nat * nat) : hera_instance_t :=
  let frames := Nat.min frames MAX_BLOCK_SIZE in
  let inst := upd_smoothPitchModDepth (smooth_advance frames) inst in
  let inst := upd_smoothCutoff (smooth_advance frames) inst in
  let inst := upd_smoothResonance (smooth_advance frames) inst in
  let inst := upd_smoothVCFEnvModDepth (smooth_advance frames) inst in
  let inst := upd_smoothVCFLFOModDepth (smooth_advance frames) inst in
  let inst := upd_smoothVCFKeyboardModDepth (smooth_advance frames) inst in
  let inst := upd_smoothVCFBendDepth (smooth_advance frames) inst in
  (* Render all active voices into mix buffer *)
  upd_voices
    (imap (fun v voice =>
             if active voice then render_voice (stages v) frames voice
             else voice)) inst.

(** ** Plugin API v2: instance creation and MIDI *)

Definition new_smoother : OnePoleSmoothValue :=
  {| currentValue := F32.zero; targetValue := F32.zero |}.

(** The instance as [v2_create_instance] sets it up before it applies
    the default parameters. *)
Definition new_instance : hera_instance_t :=
  {| params := replicate kHeraNumParameters F32.zero;
  voices := replicate MAX_VOICES new_voice;
  lfo := {| lfo_calls := []; lfo_type := HeraLFO_Sine;
            lfo_frequency := F32.zero; lfo_delayDuration := F32.zero;
            lfo_attackDuration := F32.zero |};
  hpFilter := F32.zero;
  vca := F32.zero;
  chorus := {| chorusI := F32.zero; chorusII := F32.zero |};
  smoothPitchModDepth := new_smoother;
  smoothCutoff := setCurrentAndTargetValue F32.one new_smoother;
  smoothResonance := new_smoother;
  smoothVCFEnvModDepth := new_smoother;
  smoothVCFLFOModDepth := new_smoother;
  smoothVCFKeyboardModDepth := new_smoother;
  smoothVCFBendDepth := new_smoother;
  pitchFactor := F32.one;
  vcaType := kHeraVCATypeEnvelope;
  lfoMode := kHeraLFOAuto;
  pitchBendSemitones := F32.zero;
  presets := [];
  current_preset := 0;
  preset_name := "Init";
  octave_transpose := 0;
  output_gain := F32.one;
  volume := F32.dec 8 10 |}.

(** [v2_create_instance].  [bank] is what [load_presets] reads from the
    module's preset directory, file by file (preset file parsing is
    outside the model). *)
Definition v2_create_instance `{HeraDeps} (bank : list HeraPreset)
  : hera_instance_t :=
  let inst := new_instance in
  (* Set default parameters *)
  let inst := apply_values 0 g_param_defaults inst in
  (* Load presets *)
  let inst := upd_presets (fun _ => take MAX_PRESETS bank) inst in
  if 0 <? preset_count inst
  then apply_preset (upd_current_preset (fun _ => 0) inst) 0
  else inst.

(** The bend in semitones of a raw pitch-bend value [(data2 << 7) | data1]. *)
Definition bend_semitones (raw : Z) : float :=
  let bend := raw - 8192 in
  F32.mul (F32.div (F32.of_int bend) (F32.of_int 8192)) (F32.of_int 7).

(** [v2_on_midi].  [msg] holds the [len] bytes of the message, each a
    [uint8_t]. *)
Definition v2_on_midi `{HeraDeps} (inst : hera_instance_t) (msg : list Z)
  : hera_instance_t :=
  if (length msg <? 2)%nat then inst
  else
    let status := Z.land (nth 0 msg 0) 0xF0 in
    let data1 := nth 1 msg 0 in
    let data2 := if (2 <? length msg)%nat then nth 2 msg 0 else 0 in
    let n := data1 in
    let n :=
      if (status =? 0x90) || (status =? 0x80)
      then clamp_int 0 127 (n + octave_transpose inst * 12)
      else n in
    if status =? 0x90 then
      if 0 <? data2
      then note_on inst n (F32.div (F32.of_int data2) (F32.of_int 127))
      else note_off inst n
    else if status =? 0x80 then note_off inst n
    else if status =? 0xB0 then
      if (data1 =? 120) || (data1 =? 123)   (* All Sound / All Notes Off *)
      then all_notes_off inst
      else inst
    else if status =? 0xE0 then
      let inst :=
        upd_pitchBendSemitones
          (fun _ => bend_semitones (Z.lor (Z.shiftl data2 7) data1)) inst in
      (* Update all active voice frequencies *)
      let bendFactor :=
        exp2f (F32.div (pitchBendSemitones inst) (F32.of_int 12)) in
      upd_voices
        (fmap (fun voice =>
                if active voice then
                  let baseFreq := midi_to_freq (note voice) in
                  with_dco (dco_setFrequency (F32.mul baseFreq bendFactor))
                    voice
                else voice)) inst
    else inst.

(** ** Text values of the parameter interface

    [set_param] and [get_param] exchange C strings.  The two shapes of
    text the plugin reads and writes are represented: a decimal numeral,
    and a flat JSON object whose values are numerals. *)

(** A numeral as [printf] writes it: [(-)n / 10^scale] printed with
    [scale] decimals ([%d]: scale 0, [%.4f]: scale 4), or a non-finite
    value. *)
Inductive numeral :=
| Dec (neg : bool) (n : N) (scale : nat)
| NumInf (neg : bool)
| NumNaN.

Definition json_record := list (string * numeral).

Inductive text :=
| TextNum (x : numeral)
| TextRecord (r : json_record).

(** [printf("%d", z)] *)
Definition print_int (z : Z) : numeral := Dec (z <? 0) (Z.abs_N z) 0.

(** [printf("%.4f", x)]: the float (promoted to double without change)
    is rounded to four decimals, ties to even. *)
Definition round_half_even (num den : Z) : Z :=
  let q := num / den in
  let r := num mod den in
  match 2 * r ?= den with
  | Lt => q
  | Gt => q + 1
  | Eq => if Z.even q then q else q + 1
  end.

Definition print_float4 (x : float) : numeral :=
  match x with
  | S754_zero s => Dec s 0 4
  | S754_infinity s => NumInf s
  | S754_nan => NumNaN
  | S754_finite s m e =>
      let n :=
        match e with
        | Zneg p => round_half_even (Zpos m * 10000) (2 ^ Zpos p)
        | _ => Zpos m * 2 ^ e * 10000
        end in
      Dec s (Z.to_N n) 4
  end.

(** [atof]: the double nearest to the numeral. *)
Definition atof (x : numeral) : float :=
  match x with
  | Dec neg 0%N _ => S754_zero neg
  | Dec neg (Npos n) k =>
      SFdiv 53 1024 (S754_finite neg n 0)
        (S754_finite false (Z.to_pos (10 ^ Z.of_nat k)) 0)
  | NumInf neg => S754_infinity neg
  | NumNaN => S754_nan
  end.

(** [atoi]: the digits before the decimal point. *)
Definition atoi (x : numeral) : Z :=
  match x with
  | Dec neg n k =>
      let a := (Z.of_N n / 10 ^ Z.of_nat k) in if neg then - a else a
  | _ => 0
  end.

(** The characters of a numeral. *)
Definition numeral_text (x : numeral) : string :=
  match x with
  | Dec neg n k =>
      let p := (10 ^ N.of_nat k)%N in
      let frac := String.substring 1 k (pretty (p + n mod p)%N) in
      ((if neg then "-" else "") +:+ pretty (n / p)%N
       +:+ (match k with O => "" | _ => "." +:+ frac end))%string
  | NumInf neg => if neg then "-inf" else "inf"
  | NumNaN => "nan"
  end.

(** The characters of a flat record, [{"k1":v1,"k2":v2,...}]. *)
Definition field_text (kv : string * numeral) : string :=
  String (Ascii.ascii_of_nat 34) (fst kv) +:+ String (Ascii.ascii_of_nat 34) ":"
  +:+ numeral_text (snd kv).

Definition record_text (r : json_record) : string :=
  "{" +:+ String.concat "," (fmap field_text r) +:+ "}".

(** [json_get_number]: the number after the first occurrence of
    ["key":].  In a flat record of numerals that is the value of the
    first field named [key]. *)
Definition json_get_number (json : text) (k : string) : option float :=
  match json with
  | TextNum _ => None
  | TextRecord r =>
      F32.of_double <$> (atof <$> (snd <$> List.find (fun kv => String.eqb (fst kv) k) r))
  end.

Definition text_atof (val : text) : float :=
  match val with
  | TextNum x => F32.of_double (atof x)
  | TextRecord _ => F32.zero
  end.

Definition text_atoi (val : text) : Z :=
  match val with
  | TextNum x => atoi x
  | TextRecord _ => 0
  end.

(** ** Plugin API v2: parameters and state *)

(** The catalog entry a key names: the first match of the loop over
    [g_shadow_params]. *)
Definition find_shadow_param (k : string) : option param_def_t :=
  List.find (fun p => String.eqb k (key p)) g_shadow_params.

Definition shadow_index (p : param_def_t) : Z :=
  Z.of_nat (param_index (index p)).

(** One iteration of the loop "Restore all shadow params". *)
Definition restore_shadow_param `{HeraDeps} (val : text)
  (inst : hera_instance_t) (p : param_def_t) : hera_instance_t :=
  match json_get_number val (key p) with
  | Some fval =>
      apply_param inst (shadow_index p)
        (clamp_float (min_val p) (max_val p) fval)
  | None => inst
  end.

Definition v2_set_param `{HeraDeps} (inst : hera_instance_t) (k : string)
  (val : text) : hera_instance_t :=
  (* State restore from patch save *)
  if String.eqb k "state" then
    let inst :=
      match json_get_number val "preset" with
      | Some fval =>
          let idx := F32.to_int fval in
          if (0 <=? idx) && (idx <? preset_count inst)
          then apply_preset (upd_current_preset (fun _ => idx) inst) idx
          else inst
      | None => inst
      end in
    let inst :=
      match json_get_number val "octave_transpose" with
      | Some fval =>
          upd_octave_transpose (fun _ => clamp_int (-3) 3 (F32.to_int fval))
            inst
      | None => inst
      end in
    (* Restore all shadow params *)
    foldl (restore_shadow_param val) inst g_shadow_params
  else if String.eqb k "preset" then
    let idx := text_atoi val in
    if (0 <=? idx) && (idx <? preset_count inst)
    then
      apply_preset
        (upd_current_preset (fun _ => idx) (all_notes_off inst)) idx
    else inst
  else if String.eqb k "volume" then
    upd_volume (fun _ => clamp_float F32.zero F32.one (text_atof val)) inst
  else if String.eqb k "octave_transpose" then
    upd_octave_transpose (fun _ => clamp_int (-3) 3 (text_atoi val)) inst
  else if String.eqb k "all_notes_off" then all_notes_off inst
  else
    (* Named parameter access via helper (for shadow UI) *)
    let fval := text_atof val in
    match find_shadow_param k with
    | Some p =>
        apply_param inst (shadow_index p)
          (clamp_float (min_val p) (max_val p) fval)
    | None => inst
    end.

(** State serialization for patch save/load: the fields
    [v2_get_param(inst, "state", ...)] writes, in order. *)
Definition state_record (inst : hera_instance_t) : json_record :=
  [ ("preset", print_int (current_preset inst));
    ("volume", print_float4 (volume inst));
    ("octave_transpose", print_int (octave_transpose inst)) ]
  ++ fmap (fun p =>
            (key p,
             print_float4
               (default F32.zero (params inst !! param_index (index p)))))
       g_shadow_params.

(** [v2_get_param] for the key "state": the record, unless its text does
    not fit the buffer of [buf_len] bytes (the -1 result). *)
Definition v2_get_param_state (inst : hera_instance_t) (buf_len : Z)
  : option json_record :=
  let r := state_record inst in
  if Z.of_nat (String.length (record_text r)) <? buf_len then Some r
  else None.

(** ** A concrete set of dependencies

    Used to run the model on concrete inputs.  [exp2f] and [powf] are
    defined on the arguments where every libm agrees - an integral
    exponent, whose power of two is a binary32 number - and are NaN
    elsewhere; the smoother jumps to its target; a table lookup returns
    its argument.  No theorem below is specific to these choices unless
    its statement names [run_deps]. *)
Definition integral_exponent (x : float) : option Z :=
  match x with
  | S754_zero _ => Some 0
  | S754_finite s m e =>
      match e with
      | Zneg p =>
          if Zpos m mod 2 ^ Zpos p =? 0
          then Some ((if s then -1 else 1) * (Zpos m / 2 ^ Zpos p))
          else None
      | _ => Some ((if s then -1 else 1) * (Zpos m * 2 ^ e))
      end
  | _ => None
  end.

Definition exp2_integral (x : float) : float :=
  match integral_exponent x with
  | Some k => SFldexp F32.prec F32.emax F32.one k
  | None => S754_nan
  end.

Definition run_deps : HeraDeps :=
  {| exp2f := exp2_integral;
     powf := fun b x =>
               if F32.eqb b (F32.of_int 2) then exp2_integral x
               else S754_nan;
     smooth_step := fun _ target => target;
     lerp := fun _ _ _ x => x |}.

(** ** Vocabulary of the statements *)

(** [i] is the lowest index of [vs] whose voice satisfies [p]. *)
Definition first_voice (p : HeraVoiceState -> bool)
  (vs : list HeraVoiceState) (i : nat) : Prop :=
  (exists v, vs !! i = Some v /\ p v = true)
  /\ forall j v, (j < i)%nat -> vs !! j = Some v -> p v = false.

(** The conditional gate call on the shared LFO that [note_on] and
    [note_off] both contain: in key-triggered mode, when no voice is
    active and unreleased. *)
Definition lfo_gate (c : LfoCall) (inst : hera_instance_t) : hera_instance_t :=
  if lfoMode inst =? kHeraLFOAuto then
    if negb (has_unreleased_voices inst) then upd_lfo (lfo_call c) inst
    else inst
  else inst.


(** Events of a session and the run of an instance over them. *)
Inductive Event :=
| NoteOn (n : Z) (vel : float)
| NoteOff (n : Z)
| Render (frames : nat) (stages : nat -> nat * nat).

Definition step `{HeraDeps} (inst : hera_instance_t) (ev : Event)
  : hera_instance_t :=
  match ev with
  | NoteOn n vel => note_on inst n vel
  | NoteOff n => note_off inst n
  | Render frames stages => v2_render_block inst frames stages
  end.

Definition run `{HeraDeps} (evs : list Event) (inst : hera_instance_t)
  : hera_instance_t :=
  foldl step inst evs.

(** The number of voices that are active. *)
Definition active_count (inst : hera_instance_t) : nat :=
  length (List.filter active (voices inst)).

Definition is_note_on (ev : Event) : bool :=
  match ev with NoteOn _ _ => true | _ => false end.

Definition is_note_off (ev : Event) : bool :=
  match ev with NoteOff _ => true | _ => false end.

(** The number of note-on events of a session. *)
Definition note_ons (evs : list Event) : nat :=
  length (List.filter is_note_on evs).

(** A voice is held: active and not released. *)
Definition held (v : HeraVoiceState) : Prop :=
  active v = true /\ isReleased v = false.

(** The first [k] slots are held and the others are free. *)
Definition held_prefix (k : nat) (vs : list HeraVoiceState) : Prop :=
  forall i v, vs !! i = Some v ->
    ((i < k)%nat -> held v) /\ ((k <= i)%nat -> active v = false).

(** Six notes switched on, none switched off. *)
Definition six_notes : list Event :=
  [ NoteOn 60 F32.one; NoteOn 62 F32.one; NoteOn 64 F32.one;
    NoteOn 65 F32.one; NoteOn 67 F32.one; NoteOn 69 F32.one ].

(** An instance holding the notes 60, 64 and 60 again in its first three
    slots. *)
Definition held_voice (n : Z) : HeraVoiceState :=
  set_note n (set_active true (with_normalEnvelope env_noteOn new_voice)).

Definition chord_instance : hera_instance_t :=
  upd_voices
    (fun _ => [held_voice 60; held_voice 64; held_voice 60;
               new_voice; new_voice; new_voice]) new_instance.

(** The integers [0 .. n-1]. *)
Definition zrange (n : nat) : list Z := Z.of_nat <$> seq 0 n.

(** The bend computed from the data bytes [d1] (low 7 bits) and [d2]
    (high 7 bits) is exactly [((v - 8192) / 8192) * 7] for the 14-bit
    value [v = 128 * d2 + d1]. *)
Definition bend_exact (d1 d2 : Z) : bool :=
  (Z.lor (Z.shiftl d2 7) d1 =? 128 * d2 + d1)
  && Qeq_bool (F32.to_Q (bend_semitones (Z.lor (Z.shiftl d2 7) d1)))
       (((128 * d2 + d1 - 8192) # 8192) * 7).

(** The detune buffer and the modulation buses [v2_render_block] computes
    from the LFO buffer. *)
Definition detuneBuffer `{HeraDeps} (inst : hera_instance_t)
  (lfoBuffer : list float) : list float :=
  fst (detune_loop (pitchFactor inst) lfoBuffer (smoothPitchModDepth inst)).

Definition modBuses `{HeraDeps} (inst : hera_instance_t)
  (lfoBuffer : list float) : list ModSample :=
  fst (mod_loop lfoBuffer inst).

(** The octave sum as the specification words it: the LFO contribution is
    the LFO depth times the amplitude envelope value. *)
Definition spec_cutoff_octaves (cutoff reso envd lfod keyd bendd : float)
  (env_i amp_i : float) (n : Z) (bend : float) : float :=
  let base :=
    F32.add (F32.mul cutoff (F32.div (F32.of_int 200) (F32.of_int 12)))
      (F32.mul reso (F32.dec 5 10)) in
  F32.add
    (F32.add
       (F32.add
          (F32.add base (F32.mul (F32.mul envd env_i) (F32.of_int 12)))
          (F32.mul lfod amp_i))
       (F32.mul keyd
          (F32.mul (F32.of_int (n - 60)) (F32.div F32.one (F32.of_int 12)))))
    (F32.mul bendd
       (F32.mul bend
          (F32.div (F32.of_int 48) (F32.mul (F32.of_int 12) (F32.of_int 7))))).

(** A voice on note 60 in an instance with no bend; one sample in which
    the envelope depth, the LFO depth, the LFO, and both envelope values
    are 1 and the other smoothed values 0. *)
Definition loud_sample : ModSample :=
  mod_values F32.zero F32.zero F32.one F32.one F32.zero F32.zero F32.one.

(** An instance whose filter smoothers have settled with the cutoff and
    resonance at 0 and the envelope and LFO depths at 1 (all within the
    catalog ranges). *)
Definition settled (x : float) : OnePoleSmoothValue :=
  {| currentValue := x; targetValue := x |}.

Definition loud_instance : hera_instance_t :=
  upd_smoothVCFLFOModDepth (fun _ => settled F32.one)
    (upd_smoothVCFEnvModDepth (fun _ => settled F32.one)
       (upd_smoothCutoff (fun _ => settled F32.zero) chord_instance)).

(** Another voice than slot [vi] is held. *)
Definition other_held (vi : nat) (inst : hera_instance_t) : Prop :=
  exists j v, j <> vi /\ voices inst !! j = Some v /\ held v.

(** A session over the plugin API, with the LFO key-triggered throughout:
    a note is switched on with the VCA following the envelope; the VCA
    type is set to gate; all notes are switched off; the VCA type is set
    back to envelope. *)
Definition stale_session `{HeraDeps} : hera_instance_t :=
  let inst := v2_create_instance [] in
  let inst := v2_on_midi inst [0x90; 69; 100] in
  let inst := v2_set_param inst "vca_type" (TextNum (Dec false 1 0)) in
  let inst := v2_set_param inst "all_notes_off" (TextNum (Dec false 1 0)) in
  v2_set_param inst "vca_type" (TextNum (Dec false 0 0)).

(** A catalog range is a proper interval. *)
Definition range_ok (p : param_def_t) : bool :=
  negb (F32.is_nan (min_val p)) && negb (F32.is_nan (max_val p))
  && SFleb (min_val p) (max_val p).

(** A preset bank whose second preset asks for a filter cutoff of 5. *)
Definition init_preset : HeraPreset :=
  {| pname := "Init"; values := g_param_defaults |}.

Definition hot_preset : HeraPreset :=
  {| pname := "Hot";
     values := <[param_index kHeraParamVCFCutoff := F32.of_int 5]>
                 g_param_defaults |}.

(** What every instance the plugin builds satisfies: the parameter store
    has its 26 entries, the bank at most [MAX_PRESETS] presets, the preset
    index is 0 or names a preset of the bank, and the octave transpose is
    within [-3, 3]. *)
Definition instance_ok (inst : hera_instance_t) : Prop :=
  length (params inst) = kHeraNumParameters
  /\ (length (presets inst) <= MAX_PRESETS)%nat
  /\ 0 <= current_preset inst
  /\ (current_preset inst < preset_count inst \/ current_preset inst = 0)
  /\ -3 <= octave_transpose inst <= 3.

(** An [int] survives [printf("%d")], [atof], the cast to [float] and the
    cast back. *)
Definition int_round_trip (z : Z) : bool :=
  F32.to_int (F32.of_double (atof (print_int z))) =? z.

(** The keys of a state record. *)
Definition state_keys : list string :=
  ["preset"; "volume"; "octave_transpose"] ++ (key <$> g_shadow_params).

(** The number of catalog entries of a parameter id. *)
Definition catalog_entries (q : HeraParam) : nat :=
  length (List.filter (fun p => bool_decide (index p = q)) g_shadow_params).

(** An instance whose filter cutoff was set to 0.015625 (1/64) through
    the named-parameter interface. *)
Definition fine_instance `{HeraDeps} : hera_instance_t :=
  v2_set_param (v2_create_instance []) "vcf_cutoff"
    (TextNum (Dec false 15625 6)).

(** Calls of the plugin API on an instance, and the run of an instance
    over a sequence of them. *)
Inductive ApiCall :=
| OnMidi (msg : list Z)
| SetParam (k : string) (val : text)
| RenderBlock (frames : nat) (stages : nat -> nat * nat).

Definition api_step `{HeraDeps} (inst : hera_instance_t) (c : ApiCall)
  : hera_instance_t :=
  match c with
  | OnMidi msg => v2_on_midi inst msg
  | SetParam k val => v2_set_param inst k val
  | RenderBlock frames stages => v2_render_block inst frames stages
  end.

Definition api_run `{HeraDeps} (calls : list ApiCall) (inst : hera_instance_t)
  : hera_instance_t :=
  foldl api_step inst calls.

(** Two instances agree on the parameter store, the preset bank, the
    preset index and the octave transpose. *)
Definition same_meta (a b : hera_instance_t) : Prop :=
  params a = params b /\ presets a = presets b
  /\ current_preset a = current_preset b
  /\ octave_transpose a = octave_transpose b.

(** The same editing of the VCA type with the audio callback running, and
    without [all_notes_off]: a note is switched on, the VCA type is set to
    gate (the next block deactivates the voice, whose gate envelope is
    idle), then back to envelope.  Every block lets each envelope cross
    one stage boundary. *)
Definition stale_calls : list ApiCall :=
  [ OnMidi [0x90; 69; 100];
    RenderBlock 128 (fun _ => (1, 1)%nat);
    SetParam "vca_type" (TextNum (Dec false 1 0));
    RenderBlock 128 (fun _ => (1, 1)%nat);
    SetParam "vca_type" (TextNum (Dec false 0 0));
    RenderBlock 128 (fun _ => (1, 1)%nat) ].

(** ** Vocabulary of the further properties *)

(** The note of a voice agrees with its [active] flag: a MIDI note number
    for an assigned voice, -1 for a free one. *)
Definition note_ok (v : HeraVoiceState) : Prop :=
  if active v then 0 <= note v <= 127 else note v = -1.

(** The number of stage boundaries the governing envelope of a voice
    crosses in a block, out of the pair for its two envelopes. *)
Definition governing_stages (stages : nat * nat) (v : HeraVoiceState) : nat :=
  if voice_vcaType v =? kHeraVCATypeEnvelope then fst stages else snd stages.

(** The note a note message with data byte [d1] names: transposed by the
    octave setting, clamped to the MIDI range. *)
Definition midi_note (inst : hera_instance_t) (d1 : Z) : Z :=
  clamp_int 0 127 (d1 + octave_transpose inst * 12).

(** The gain [render_voice] mixes a voice with: scaled by the squared
    velocity and divided by the voice count for headroom. *)
Definition noteVolume (velocity : float) : float :=
  F32.mul (F32.mul velocity velocity)
    (F32.div F32.one (F32.of_int (Z.of_nat MAX_VOICES))).

(** The velocity [data2 / 127.0f] of a note-on lies in (0, 1], and the
    mix gain it gives in (0, 1/6]. *)
Definition velocity_ok (data2 : Z) : bool :=
  let vel := F32.div (F32.of_int data2) (F32.of_int 127) in
  SFltb F32.zero vel && SFleb vel F32.one
  && SFltb F32.zero (noteVolume vel)
  && SFleb (noteVolume vel) (F32.div F32.one (F32.of_int 6)).

(** The pitch factor the range switch selects,
    [factors[max(0, min(2, (int)value))]] with factors 0.5, 1 and 2. *)
Definition pitch_range_factor (value : float) : float :=
  let idx := Z.max 0 (Z.min 2 (F32.to_int value)) in
  if idx =? 0 then F32.dec 5 10
  else if idx =? 1 then F32.one else F32.of_int 2.

(** Value [x] of parameter [p] is what voice [v] plays with: the member
    of the voice that [apply_param] writes for [p] holds [x] (its cast to
    [int] for the two switches).  Parameters the voices do not consume
    ask nothing. *)
Definition voice_holds (p : HeraParam) (x : float) (v : HeraVoiceState)
  : Prop :=
  match p with
  | kHeraParamVCAType => voice_vcaType v = F32.to_int x
  | kHeraParamPWMDepth => targetValue (smoothPWMDepth v) = x
  | kHeraParamPWMMod => pwmMod v = F32.to_int x
  | kHeraParamSawLevel => dco_sawLevel (dco v) = x
  | kHeraParamPulseLevel => dco_pulseLevel (dco v) = x
  | kHeraParamSubLevel => dco_subLevel (dco v) = x
  | kHeraParamNoiseLevel => dco_noiseLevel (dco v) = x
  | kHeraParamAttack => env_attack (normalEnvelope v) = x
  | kHeraParamDecay => env_decay (normalEnvelope v) = x
  | kHeraParamSustain => env_sustain (normalEnvelope v) = x
  | kHeraParamRelease => env_release (normalEnvelope v) = x
  | _ => True
  end.

(** The same for the members of the instance: effect amounts, smoother
    targets, the mode switches, the pitch factor and the LFO settings
    (the latter through the slider curves). *)
Definition engine_holds `{HeraDeps} (p : HeraParam) (x : float)
  (inst : hera_instance_t) : Prop :=
  match p with
  | kHeraParamVCA => vca inst = x
  | kHeraParamVCAType => vcaType inst = F32.to_int x
  | kHeraParamPitchRange => pitchFactor inst = pitch_range_factor x
  | kHeraParamPitchModDepth => targetValue (smoothPitchModDepth inst) = x
  | kHeraParamVCFCutoff => targetValue (smoothCutoff inst) = x
  | kHeraParamVCFResonance => targetValue (smoothResonance inst) = x
  | kHeraParamVCFEnvelopeModDepth =>
      targetValue (smoothVCFEnvModDepth inst) = x
  | kHeraParamVCFLFOModDepth => targetValue (smoothVCFLFOModDepth inst) = x
  | kHeraParamVCFKeyboardModDepth =>
      targetValue (smoothVCFKeyboardModDepth inst) = x
  | kHeraParamVCFBendDepth => targetValue (smoothVCFBendDepth inst) = x
  | kHeraParamLFOTriggerMode => lfoMode inst = F32.to_int x
  | kHeraParamLFORate =>
      lfo_frequency (lfo inst) = curveFromLfoRateSliderToFreq x
  | kHeraParamLFODelay =>
      lfo_delayDuration (lfo inst) = curveFromLfoDelaySliderToDelay x
      /\ lfo_attackDuration (lfo inst) = curveFromLfoDelaySliderToAttack x
  | kHeraParamHPF => hpFilter inst = x
  | kHeraParamChorusI => chorusI (chorus inst) = x
  | kHeraParamChorusII => chorusII (chorus inst) = x
  | _ => True
  end.

Definition in_force `{HeraDeps} (p : HeraParam) (x : float)
  (inst : hera_instance_t) : Prop :=
  engine_holds p x inst /\ Forall (voice_holds p x) (voices inst).

(** The entry of the parameter store for [p], if there is one, is in
    force. *)
Definition in_force_at `{HeraDeps} (inst : hera_instance_t) (p : HeraParam)
  : Prop :=
  forall x, params inst !! param_index p = Some x -> in_force p x inst.

(** The members of a voice and of the instance that parameters are
    written to. *)
Definition voice_controls (v : HeraVoiceState) :=
  (voice_vcaType v, targetValue (smoothPWMDepth v), pwmMod v,
   (dco_sawLevel (dco v), dco_pulseLevel (dco v), dco_subLevel (dco v),
    dco_noiseLevel (dco v)),
   (env_attack (normalEnvelope v), env_decay (normalEnvelope v),
    env_sustain (normalEnvelope v), env_release (normalEnvelope v))).

Definition controls (inst : hera_instance_t) :=
  (params inst, vca inst, vcaType inst, pitchFactor inst,
   (targetValue (smoothPitchModDepth inst), targetValue (smoothCutoff inst),
    targetValue (smoothResonance inst),
    targetValue (smoothVCFEnvModDepth inst),
    targetValue (smoothVCFLFOModDepth inst),
    targetValue (smoothVCFKeyboardModDepth inst),
    targetValue (smoothVCFBendDepth inst)),
   (lfoMode inst, lfo_frequency (lfo inst), lfo_delayDuration (lfo inst),
    lfo_attackDuration (lfo inst)),
   (hpFilter inst, chorus inst)).



(** A bank with one preset whose values are all 1/4, and an instance
    that holds it. *)
Definition quarter_preset : HeraPreset :=
  {| pname := "Quarter";
     values := replicate kHeraNumParameters (F32.dec 25 100) |}.

Definition quarter_instance : hera_instance_t :=
  upd_presets (fun _ => [quarter_preset]) new_instance.

(** ** Reading values back *)




(** ** Audio rendering: conversion of the output *)





(** A volume is usable: a number in [0, 1], or a NaN (which the clamp of
    [v2_set_param] lets through). *)
Definition volume_ok (x : float) : Prop :=
  F32.is_nan x = true
  \/ (SFleb F32.zero x = true /\ SFleb x F32.one = true).

(** ** Preset loading from XML files

    Texts are C strings.  File contents are strings that may hold NUL
    characters; a C string function sees them up to the first NUL. *)

Definition dquote : Ascii.ascii := Ascii.ascii_of_nat 34.
Definition lt_sign : Ascii.ascii := Ascii.ascii_of_nat 60.
Definition eq_sign : Ascii.ascii := Ascii.ascii_of_nat 61.

Fixpoint c_str (s : string) : string :=
  match s with
  | EmptyString => EmptyString
  | String c s' =>
      if Ascii.eqb c Ascii.zero then EmptyString else String c (c_str s')
  end.

(** [s] begins with [pat]. *)
Fixpoint starts_with (pat s : string) {struct pat} : bool :=
  match pat with
  | EmptyString => true
  | String a pat' =>
      match s with
      | EmptyString => false
      | String b s' => Ascii.eqb a b && starts_with pat' s'
      end
  end.

(** [strstr(s, pat)]: the rest of [s] from the first occurrence of [pat]
    on; [None] is the null pointer. *)
Fixpoint strstr (s pat : string) {struct s} : option string :=
  if starts_with pat s then Some s
  else match s with
       | EmptyString => None
       | String _ s' => strstr s' pat
       end.

(** [strchr(s, c)] *)
Fixpoint strchr (s : string) (c : Ascii.ascii) : option string :=
  match s with
  | EmptyString => None
  | String a s' => if Ascii.eqb a c then Some s else strchr s' c
  end.

(** The pointer [s + n], for [n] up to the length of [s]. *)
Fixpoint advance (n : nat) (s : string) : string :=
  match n, s with
  | S n', String _ s' => advance n' s'
  | _, _ => s
  end.

(** Parameter IDs (strings used in XML presets), [g_param_ids]. *)
Definition g_param_ids : list string :=
  [ "VCADepth"; "VCAType"; "DCOPWMDepth"; "DCOPWMMod"; "DCOSawLevel";
    "DCOPulseLevel"; "DCOSubLevel"; "DCONoiseLevel"; "DCORange";
    "DCOPitchModDepth"; "VCFCutoff"; "VCFResonance"; "VCFEnv"; "VCFLFO";
    "VCFKey"; "VCFBendDepth"; "ENVAttack"; "ENVDecay"; "ENVSustain";
    "ENVRelease"; "LFOTrigMode"; "LFORate"; "LFODelay"; "HPF"; "ChorusI";
    "ChorusII" ].

(** Simple XML attribute parser, [find_xml_attr]: what it leaves in
    [buf]; [None] is its null result.  [buf_len] is at least 1 (the
    callers pass 64 and 32). *)
Definition find_xml_attr (xml attr_name : string) (buf_len : nat)
  : option string :=
  (* snprintf(search, sizeof(search), ...): at most 63 characters *)
  let search :=
    String.substring 0 63 (attr_name +:+ "=" +:+ String dquote "") in
  match strstr xml search with
  | None => None
  | Some pos =>
      let pos := advance (String.length search) pos in
      match strchr pos dquote with
      | None => None
      | Some end_ =>
          let len := (String.length pos - String.length end_)%nat in
          let len := if (buf_len <=? len)%nat then (buf_len - 1)%nat else len in
          Some (String.substring 0 len pos)
      end
  end.

(** The loop "Find matching parameter": the value goes to the first
    index whose id equals [id_buf]. *)
Definition store_param (id_buf : string) (val : float) (vals : list float)
  : list float :=
  match list_find (fun id => id = id_buf) g_param_ids with
  | Some (i, _) => <[i := val]> vals
  | None => vals
  end.

Section Preset_files.
(** [atof] of libc, on a C string: the [double] it returns. *)
Variable atof_c : string -> float.

(** The body of the loop over the [<PARAM ] tags, with [pos] at a tag. *)
Definition param_tag (pos : string) (vals : list float) : list float :=
  match find_xml_attr pos "id" 64 with
  | Some id_buf =>
      match find_xml_attr pos "value" 32 with
      | Some val_buf => store_param id_buf (F32.of_double (atof_c val_buf)) vals
      | None => vals
      end
  | None => vals
  end.

(** [while ((pos = strstr(pos, "<PARAM ")) != NULL) { ...; pos++; }].
    Every round moves [pos] forward, so the length of the text bounds the
    number of rounds; [fuel] is that bound. *)
Fixpoint param_loop (fuel : nat) (pos : string) (vals : list float)
  : list float :=
  match fuel with
  | O => vals
  | S fuel' =>
      match strstr pos "<PARAM " with
      | None => vals
      | Some pos' => param_loop fuel' (advance 1 pos') (param_tag pos' vals)
      end
  end.

(** [load_preset_xml]: the preset it writes to slot [preset_idx], or
    [None] for its result -1.  [file] is the content of the file at
    [path], [None] if it cannot be opened. *)
Definition load_preset_xml (file : option string) (preset_idx : Z)
  : option HeraPreset :=
  if Z.of_nat MAX_PRESETS <=? preset_idx then None
  else
    match file with
    | None => None
    | Some bytes =>
        let size := Z.of_nat (String.length bytes) in
        if (size <=? 0) || (65536 <? size) then None
        else
          let data := c_str bytes in
          (* Extract preset name from <PROGRAM name="..."/> *)
          let name :=
            match find_xml_attr data "name" 64 with
            | Some name_buf => String.substring 0 63 name_buf
            | None =>
                String.substring 0 63
                  ("Preset " +:+ numeral_text (print_int preset_idx))
            end in
          (* Set defaults; extract parameter values *)
          Some {| pname := name;
                  values := param_loop (S (String.length data)) data
                              g_param_defaults |}
    end.

(** [load_presets]: the bank it builds from the files Preset000.xml,
    Preset001.xml, ... of the preset directory, given in this order
    ([None]: the file does not exist, which ends the loop). *)
Fixpoint load_presets_loop (files : list (option string))
  (bank : list HeraPreset) : list HeraPreset :=
  match files with
  | [] => bank
  | None :: _ => bank
  | Some bytes :: files' =>
      match load_preset_xml (Some bytes) (Z.of_nat (length bank)) with
      | Some p => load_presets_loop files' (bank ++ [p])
      | None => load_presets_loop files' bank
      end
  end.

Definition load_presets (dir : nat -> option string) : list HeraPreset :=
  load_presets_loop (dir <$> seq 0 MAX_PRESETS) [].

(** The same loop over the tags as a scan of every position of the
    text. *)
Fixpoint param_scan (pos : string) (vals : list float) : list float :=
  match pos with
  | EmptyString => vals
  | String _ rest =>
      param_scan rest
        (if starts_with "<PARAM " pos then param_tag pos vals else vals)
  end.
End Preset_files.

(** A [<PARAM .../>] element as the preset files write it. *)
Definition param_element (id val : string) : string :=
  "<PARAM id=" +:+ String dquote id +:+ String dquote " value="
  +:+ String dquote val +:+ String dquote "/>".

(** A character occurs in a text. *)
Fixpoint has_char (c : Ascii.ascii) (s : string) : bool :=
  match s with
  | EmptyString => false
  | String a s' => Ascii.eqb a c || has_char c s'
  end.

(** A preset document: a head, then [<PARAM .../>] elements, each
    followed by some text (white space, closing tags).  An element is
    given by its id, its value and the text that follows it. *)
Definition entry_text (e : string * string * string) : string :=
  param_element e.1.1 e.1.2 +:+ e.2.

Definition entries_text (es : list (string * string * string)) : string :=
  String.concat "" (entry_text <$> es).

(** The id and the value hold no quote and no [<], the id no [=]; they
    fit the buffers of the parser (63 and 31 characters); the text after
    the element holds no [<]. *)
Definition entry_ok (e : string * string * string) : bool :=
  negb (has_char dquote e.1.1) && negb (has_char lt_sign e.1.1)
  && negb (has_char eq_sign e.1.1) && (String.length e.1.1 <=? 63)%nat
  && negb (has_char dquote e.1.2) && negb (has_char lt_sign e.1.2)
  && (String.length e.1.2 <=? 31)%nat
  && negb (has_char lt_sign e.2).

(** What the elements of a document store, in their order. *)
Definition store_entries (atof_c : string -> float)
  (es : list (string * string * string)) (vals : list float) : list float :=
  foldl (fun vals e => store_param e.1.1 (F32.of_double (atof_c e.1.2)) vals)
    vals es.

(** A stand-in for [atof], used to run the model on concrete inputs: it
    reads an optional sign, decimal digits and an optional fraction, as
    [atof] reads such a text, and stops at any other character (so it
    knows no exponent, infinity or NaN). *)
Definition digit_of (c : Ascii.ascii) : option N :=
  let n := Ascii.N_of_ascii c in
  if (48 <=? n)%N && (n <=? 57)%N then Some (n - 48)%N else None.

Fixpoint read_digits (s : string) (acc : N) (k : nat) : N * nat * string :=
  match s with
  | String c s' =>
      match digit_of c with
      | Some d => read_digits s' (10 * acc + d)%N (S k)
      | None => (acc, k, s)
      end
  | EmptyString => (acc, k, s)
  end.

Definition run_atof (s : string) : float :=
  let '(neg, s) :=
    match s with
    | String c s' =>
        if Ascii.eqb c (Ascii.ascii_of_nat 45) then (true, s')
        else if Ascii.eqb c (Ascii.ascii_of_nat 43) then (false, s')
        else (false, s)
    | EmptyString => (false, s)
    end in
  let '(n, _, s) := read_digits s 0 0 in
  match s with
  | String c s' =>
      if Ascii.eqb c (Ascii.ascii_of_nat 46)
      then let '(m, k, _) := read_digits s' n 0 in atof (Dec neg m k)
      else atof (Dec neg n 0)
  | EmptyString => atof (Dec neg n 0)
  end.

(** A small preset document. *)
Definition sample_head : string :=
  "<PROGRAM name=" +:+ String dquote "Brass" +:+ String dquote ">".

Definition sample_entries : list (string * string * string) :=
  [ ("VCFCutoff", "0.25", " "); ("Unknown", "3", " ");
    ("ENVAttack", "0.5", " "); ("VCFCutoff", "0.75", "") ].

Definition sample_document : string :=
  sample_head +:+ entries_text sample_entries +:+ "</PROGRAM>".

(** The fallback name of slot [i] is the text "Preset i", in full. *)
Definition fallback_name_ok (i : Z) : bool :=
  String.eqb
    (String.substring 0 63 ("Preset " +:+ numeral_text (print_int i)))
    ("Preset " +:+ numeral_text (print_int i)).

(** A session of one note-on, and the voice in slot 0 of an instance. *)
Definition one_note : list ApiCall := [OnMidi [0x90; 60; 100]].

Definition slot0 (inst : hera_instance_t) : HeraVoiceState :=
  default new_voice (voices inst !! 0%nat).

(** ** JSON helpers on the text *)

Definition space : Ascii.ascii := Ascii.ascii_of_nat 32.
Definition colon : Ascii.ascii := Ascii.ascii_of_nat 58.

(** [while ( *pos == ' ') pos++;] *)
Fixpoint skip_spaces (s : string) : string :=
  match s with
  | String c s' => if Ascii.eqb c space then skip_spaces s' else s
  | EmptyString => s
  end.

(** [json_get_number] on the characters of the text, up to its call of
    [atof]: the text [atof] is handed, or [None] for the result -1.  The
    search text is cut to the 63 characters of [search]. *)
Definition json_number_text (json k : string) : option string :=
  let search :=
    String.substring 0 63 (String dquote (k +:+ String dquote ":")) in
  match strstr json search with
  | None => None
  | Some pos => Some (skip_spaces (advance (String.length search) pos))
  end.

(** A key that the search text holds in full and that no other part of a
    record can be taken for: no quote in it, no colon at its start, at
    most 60 characters. *)
Definition key_ok (k : string) : bool :=
  negb (has_char dquote k) && negb (starts_with ":" k)
  && (String.length k <=? 60)%nat.

(** The text of a record after one of its fields: the other fields, each
    after a comma, and the closing brace. *)
Fixpoint fields_tail (r : json_record) : string :=
  match r with
  | [] => "}"
  | kv :: r' => "," +:+ field_text kv +:+ fields_tail r'
  end.

(** A decimal digit. *)
Definition digit_char (c : Ascii.ascii) : bool :=
  match digit_of c with Some _ => true | None => false end.

(** The snapshot of a fresh instance. *)
Definition fresh_record : json_record := state_record new_instance.

(** ** Writing into the buffer of [v2_get_param]

    [offset += snprintf(buf + offset, buf_len - offset, ...)] for a call
    that produces the text [s], with [0 <= offset <= buf_len]: the new
    offset counts the whole of [s]; the buffer receives the characters of
    [s] that fit before the terminator. *)
Definition snprintf_at (buf_len : Z) (st : Z * string) (s : string)
  : Z * string :=
  let '(offset, buf) := st in
  (offset + Z.of_nat (String.length s),
   buf +:+ String.substring 0 (Z.to_nat (buf_len - offset - 1)) s).

(** A sequence of such calls, each followed by
    [if (offset >= buf_len) return -1;]. *)
Fixpoint snprintf_all (buf_len : Z) (pieces : list string) (st : Z * string)
  : option (Z * string) :=
  match pieces with
  | [] => Some st
  | s :: pieces' =>
      let st' := snprintf_at buf_len st s in
      if buf_len <=? fst st' then None else snprintf_all buf_len pieces' st'
  end.

(** State serialization for patch save/load, call by call: the head with
    preset, volume and octave; one call per catalog parameter; the
    closing brace.  The result is the final offset and the buffer, or
    [None] for -1. *)
Definition state_pieces (inst : hera_instance_t) : list string :=
  [ "{" +:+ field_text ("preset", print_int (current_preset inst))
    +:+ "," +:+ field_text ("volume", print_float4 (volume inst))
    +:+ "," +:+ field_text
                  ("octave_transpose", print_int (octave_transpose inst)) ]
  ++ fmap (fun p =>
             "," +:+ field_text
                       (key p,
                        print_float4
                          (default F32.zero
                             (params inst !! param_index (index p)))))
       g_shadow_params
  ++ ["}"].

Definition v2_get_param_state_calls (inst : hera_instance_t) (buf_len : Z)
  : option (Z * string) :=
  snprintf_all buf_len (state_pieces inst) (0, "").

(** ** Chain params metadata

    The branch of [v2_get_param] for the key "chain_params", as far as
    its buffer arithmetic goes: the [size] argument of every [snprintf]
    call, the number of catalog entries written, and the result. *)

(** [s] in quotes. *)
Definition quoted (s : string) : string := String dquote (s +:+ String dquote "").

Definition chain_object (k n t lo hi : string) : string :=
  "{" +:+ quoted "key" +:+ ":" +:+ quoted k
  +:+ "," +:+ quoted "name" +:+ ":" +:+ quoted n
  +:+ "," +:+ quoted "type" +:+ ":" +:+ quoted t
  +:+ "," +:+ quoted "min" +:+ ":" +:+ lo
  +:+ "," +:+ quoted "max" +:+ ":" +:+ hi +:+ "}".

(** The text of the first call: the three fixed entries. *)
Definition chain_header : string :=
  "[" +:+ chain_object "preset" "Preset" "int" "0" "9999"
  +:+ "," +:+ chain_object "volume" "Volume" "float" "0" "1"
  +:+ "," +:+ chain_object "octave_transpose" "Octave" "int" "-3" "3".

Section Chain_params.
(** [printf("%g", x)] of libc. *)
Variable print_g : float -> string.

(** The text of the call for one catalog entry. *)
Definition chain_entry (p : param_def_t) : string :=
  "," +:+ chain_object (key p)
            (match name p with EmptyString => key p | _ => name p end)
            (match type p with
             | PARAM_TYPE_INT => "int"
             | PARAM_TYPE_FLOAT => "float"
             end)
            (print_g (min_val p)) (print_g (max_val p)).

(** The loop over the catalog, which goes on while
    [offset < buf_len - 100]: the offset, the sizes handed to [snprintf]
    so far, the number of entries written. *)
Fixpoint chain_loop (buf_len : Z) (ps : list param_def_t)
  (st : Z * list Z * nat) : Z * list Z * nat :=
  match ps with
  | [] => st
  | p :: ps' =>
      let '(offset, sizes, n) := st in
      if offset <? buf_len - 100 then
        chain_loop buf_len ps'
          (offset + Z.of_nat (String.length (chain_entry p)),
           sizes ++ [buf_len - offset], S n)
      else st
  end.

(** The whole branch: the result, the sizes of all calls, the number of
    catalog entries written. *)
Definition chain_params_calls (buf_len : Z) : Z * list Z * nat :=
  let offset := Z.of_nat (String.length chain_header) in
  let '(offset, sizes, n) :=
    chain_loop buf_len g_shadow_params (offset, [buf_len], 0%nat) in
  (offset + 1, sizes ++ [buf_len - offset], n).
End Chain_params.

(** A stand-in for [%g], used to run the model: integers of at most six
    digits are printed as [%g] prints them. *)
Definition run_print_g (x : float) : string :=
  match integral_exponent x with
  | Some k => if Z.abs k <? 1000000 then numeral_text (print_int k) else "?"
  | None => "?"
  end.

(** The number of characters of the texts of a list of catalog entries. *)
Definition entries_length (print_g : float -> string)
  (ps : list param_def_t) : Z :=
  foldr (fun p acc => Z.of_nat (String.length (chain_entry print_g p)) + acc)
    0 ps.

(** ** The xorshift generator of the LFO ([SimplePRNG])

    The state is a [uint32_t]: a left shift drops the bits that leave the
    32-bit word. *)

Definition uint32 (x : Z) : Z := x mod 2 ^ 32.

Definition prng_seed : Z := 12345.

Definition next_state (state : Z) : Z :=
  let state := Z.lxor state (uint32 (Z.shiftl state 13)) in
  let state := Z.lxor state (Z.shiftr state 17) in
  let state := Z.lxor state (uint32 (Z.shiftl state 5)) in
  state.

Definition nextFloat (state : Z) : Z * float :=
  let state := next_state state in
  (state,
   F32.div (F32.of_int (Z.land state 2147483647)) (F32.of_int 2147483647)).

(** [n] draws from the generator: the results, and the state left. *)
Fixpoint draws (n : nat) (state : Z) : list float * Z :=
  match n with
  | O => ([], state)
  | S n' =>
      let '(state', x) := nextFloat state in
      let '(xs, last) := draws n' state' in
      (x :: xs, last)
  end.
(** * Properties *)

(** ** The pool scan *)

Lemma first_voice_cons_false p v vs i :
  p v = false -> first_voice p (v :: vs) (S i) <-> first_voice p vs i.
Proof.
  intros Hp. unfold first_voice. simpl. split.
  - intros [Hv Hlow]. split; [exact Hv|].
    intros j w Hj Hw. apply (Hlow (S j)); [lia|done].
  - intros [Hv Hlow]. split; [exact Hv|].
    intros [|j] w Hj Hw; simpl in Hw; [congruence|].
    apply (Hlow j); [lia|done].
Qed.

Lemma find_voice_Some p vs i :
  find_voice p vs = Some i <-> first_voice p vs i.
Proof.
  revert i. induction vs as [|v vs IH]; intros i; simpl.
  - split; [discriminate|]. intros [[w [Hw _]] _]. discriminate.
  - destruct (p v) eqn:Hp.
    + split.
      * intros [= <-]. split; [eauto|]. intros j w Hj. lia.
      * intros [[w [Hw Hpw]] Hlow]. destruct i as [|i]; [done|].
        specialize (Hlow 0%nat v ltac:(lia) eq_refl). congruence.
    + destruct i as [|i].
      * split.
        -- destruct (find_voice p vs); discriminate.
        -- intros [[w [Hw Hpw]] _]. simpl in Hw. congruence.
      * rewrite first_voice_cons_false by done. rewrite <- IH.
        destruct (find_voice p vs); simpl; split; congruence.
Qed.

Lemma find_voice_None p vs :
  find_voice p vs = None <-> forall v, v ∈ vs -> p v = false.
Proof.
  induction vs as [|v vs IH]; simpl.
  - split; [|done]. intros _ w Hw. inversion Hw.
  - destruct (p v) eqn:Hp.
    + split; [discriminate|]. intros H. specialize (H v ltac:(left)).
      congruence.
    + transitivity (find_voice p vs = None).
      { destruct (find_voice p vs); simpl; split; congruence. }
      rewrite IH. split.
      * intros H w Hw. inversion Hw; subst; [done|]. by apply H.
      * intros H w Hw. apply H. by right.
Qed.

Lemma find_voice_lt p vs i : find_voice p vs = Some i -> (i < length vs)%nat.
Proof.
  intros [[v [Hv _]] _]%find_voice_Some. by eapply lookup_lt_Some.
Qed.

Lemma first_voice_unique p vs i j :
  first_voice p vs i -> first_voice p vs j -> i = j.
Proof.
  intros Hi%find_voice_Some Hj%find_voice_Some. congruence.
Qed.

(** ** Voice updates keep what they do not write *)

Lemma voices_upd_voice vi f inst :
  voices (upd_voice vi f inst) = alter f vi (voices inst).
Proof. reflexivity. Qed.

Lemma active_with_currentEnvelope f v :
  active (with_currentEnvelope f v) = active v.
Proof. unfold with_currentEnvelope. by destruct (_ =? _). Qed.

Lemma note_with_currentEnvelope f v :
  note (with_currentEnvelope f v) = note v.
Proof. unfold with_currentEnvelope. by destruct (_ =? _). Qed.

Lemma vcaType_with_currentEnvelope f v :
  voice_vcaType (with_currentEnvelope f v) = voice_vcaType v.
Proof. unfold with_currentEnvelope. by destruct (_ =? _). Qed.

Lemma getCurrentEnvelope_with_currentEnvelope f v :
  getCurrentEnvelope (with_currentEnvelope f v) = f (getCurrentEnvelope v).
Proof.
  unfold getCurrentEnvelope, with_currentEnvelope.
  destruct (voice_vcaType v =? _) eqn:E; simpl; by rewrite E.
Qed.

Lemma isReleased_current v :
  isReleased v = env_isReleased (getCurrentEnvelope v).
Proof. unfold isReleased, getCurrentEnvelope. by destruct (_ =? _). Qed.

Lemma find_free_voice_lt inst :
  length (voices inst) = MAX_VOICES -> (find_free_voice inst < MAX_VOICES)%nat.
Proof.
  intros Hlen. unfold find_free_voice.
  destruct (find_voice _ _) as [i|] eqn:H1.
  { apply find_voice_lt in H1. lia. }
  destruct (find_voice isReleased _) as [i|] eqn:H2.
  { apply find_voice_lt in H2. lia. }
  unfold MAX_VOICES. lia.
Qed.

Lemma lookup_upd_voice_eq vi f inst v :
  voices inst !! vi = Some v ->
  voices (upd_voice vi f inst) !! vi = Some (f v).
Proof.
  intros Hv. by rewrite voices_upd_voice, list_lookup_alter_eq, Hv.
Qed.

Lemma lookup_upd_voice_ne vi f inst j :
  vi <> j -> voices (upd_voice vi f inst) !! j = voices inst !! j.
Proof. intros Hne. by rewrite voices_upd_voice, list_lookup_alter_ne. Qed.

Lemma voices_lfo_gate c inst : voices (lfo_gate c inst) = voices inst.
Proof.
  unfold lfo_gate. destruct (_ =? _); [destruct (negb _)|]; reflexivity.
Qed.

Lemma note_on_unfold `{HeraDeps} inst n vel :
  note_on inst n vel =
  upd_voice (find_free_voice inst)
    (fun voice =>
       with_smoothPWMDepth
         (fun s => setCurrentAndTargetValue (getTargetValue s) s)
         (with_dco
            (dco_setFrequency
               (frequency (with_currentEnvelope env_noteOn voice)))
            (with_currentEnvelope env_noteOn voice)))
    (lfo_gate LfoNoteOn
       (upd_voice (find_free_voice inst)
          (fun voice =>
             set_voice_vcaType (vcaType inst)
               (set_velocity vel
                  (set_frequency (midi_to_freq n)
                     (set_note n (set_active true voice))))) inst)).
Proof. reflexivity. Qed.

(** The voice a note-on writes. *)
Lemma note_on_voice `{HeraDeps} inst n vel v :
  voices inst !! find_free_voice inst = Some v ->
  exists v',
    voices (note_on inst n vel) !! find_free_voice inst = Some v'
    /\ active v' = true /\ note v' = n
    /\ voice_vcaType v' = vcaType inst
    /\ env_state (getCurrentEnvelope v') = Attack.
Proof.
  intros Hv. rewrite note_on_unfold. eexists. split.
  - apply lookup_upd_voice_eq. rewrite voices_lfo_gate.
    by apply lookup_upd_voice_eq.
  - unfold with_currentEnvelope, getCurrentEnvelope. simpl.
    destruct (vcaType inst =? _) eqn:E; simpl; rewrite ?E; done.
Qed.

Lemma note_on_other `{HeraDeps} inst n vel j :
  find_free_voice inst <> j ->
  voices (note_on inst n vel) !! j = voices inst !! j.
Proof.
  intros Hne. rewrite note_on_unfold.
  rewrite lookup_upd_voice_ne, voices_lfo_gate, lookup_upd_voice_ne; done.
Qed.

(** The three cases of the scan. *)
Lemma find_free_voice_cases inst :
  (forall i, first_voice (fun v => negb (active v)) (voices inst) i ->
     find_free_voice inst = i)
  /\ ((forall v, v ∈ voices inst -> active v = true) ->
      forall i, first_voice isReleased (voices inst) i ->
        find_free_voice inst = i)
  /\ ((forall v, v ∈ voices inst -> active v = true /\ isReleased v = false) ->
      find_free_voice inst = 0%nat).
Proof.
  repeat split.
  - intros i Hi. apply find_voice_Some in Hi.
    unfold find_free_voice. by rewrite Hi.
  - intros Hall i Hi. apply find_voice_Some in Hi.
    unfold find_free_voice.
    assert (find_voice (fun v => negb (active v)) (voices inst) = None) as ->.
    { apply find_voice_None. intros v Hv. by rewrite (Hall v Hv). }
    by rewrite Hi.
  - intros Hall. unfold find_free_voice.
    assert (find_voice (fun v => negb (active v)) (voices inst) = None) as ->.
    { apply find_voice_None. intros v Hv. by destruct (Hall v Hv) as [-> _]. }
    assert (find_voice isReleased (voices inst) = None) as ->; [|done].
    apply find_voice_None. intros v Hv. by destruct (Hall v Hv).
Qed.

(** C1: for every note-on the scheduler picks the lowest-indexed slot that
    is not assigned; if every slot is assigned, the lowest-indexed slot
    whose governing envelope reports released; if none is released, slot
    0.  The slot is always one of the pool, and after the note-on it is
    assigned to the new note: a note-on is never dropped. *)
Theorem find_free_voice_policy `{HeraDeps} inst n vel :
  length (voices inst) = MAX_VOICES ->
  let vi := find_free_voice inst in
  (forall i, first_voice (fun v => negb (active v)) (voices inst) i -> vi = i)
  /\ ((forall v, v ∈ voices inst -> active v = true) ->
      forall i, first_voice isReleased (voices inst) i -> vi = i)
  /\ ((forall v, v ∈ voices inst -> active v = true /\ isReleased v = false) ->
      vi = 0%nat)
  /\ (vi < MAX_VOICES)%nat
  /\ exists v', voices (note_on inst n vel) !! vi = Some v'
       /\ active v' = true /\ note v' = n.
Proof.
  intros Hlen vi.
  destruct (find_free_voice_cases inst) as (H1 & H2 & H3).
  split; [exact H1|]. split; [exact H2|]. split; [exact H3|].
  split; [by apply find_free_voice_lt|].
  destruct (lookup_lt_is_Some_2 (voices inst) vi) as [v Hv].
  { rewrite Hlen. by apply find_free_voice_lt. }
  destruct (note_on_voice inst n vel v Hv) as (v' & Hv' & Ha & Hn & _).
  eauto.
Qed.

Lemma find_free_voice_policy_witness :
  (find_free_voice (@v2_create_instance run_deps []) < MAX_VOICES)%nat.
Proof.
  exact (proj1 (proj2 (proj2 (proj2
    (@find_free_voice_policy run_deps (@v2_create_instance run_deps [])
       60 F32.one eq_refl))))).
Defined.

(** ** The pool keeps its size *)

Lemma length_voices_apply_param `{HeraDeps} inst idx x :
  length (voices (apply_param inst idx x)) = length (voices inst).
Proof.
  unfold apply_param. destruct (param_of_index idx) as [p|]; [|done].
  destruct p; simpl; rewrite ?length_fmap; try done.
  by destruct (_ =? _).
Qed.

Lemma length_voices_apply_values `{HeraDeps} vals i inst :
  length (voices (apply_values i vals inst)) = length (voices inst).
Proof.
  revert i inst. induction vals as [|x vals IH]; intros i inst; simpl.
  - done.
  - by rewrite IH, length_voices_apply_param.
Qed.

Lemma length_voices_apply_preset `{HeraDeps} inst idx :
  length (voices (apply_preset inst idx)) = length (voices inst).
Proof.
  unfold apply_preset. destruct (_ || _); [done|].
  destruct (presets inst !! _); [|done]. by rewrite length_voices_apply_values.
Qed.

Lemma voices_upd_presets g inst : voices (upd_presets g inst) = voices inst.
Proof. reflexivity. Qed.

Lemma voices_upd_current_preset g inst :
  voices (upd_current_preset g inst) = voices inst.
Proof. reflexivity. Qed.

Lemma length_voices_create `{HeraDeps} bank :
  length (voices (v2_create_instance bank)) = MAX_VOICES.
Proof.
  unfold v2_create_instance. destruct (0 <? _).
  - rewrite length_voices_apply_preset, voices_upd_current_preset.
    rewrite voices_upd_presets, length_voices_apply_values. reflexivity.
  - rewrite voices_upd_presets, length_voices_apply_values. reflexivity.
Qed.

Lemma length_voices_note_on `{HeraDeps} inst n vel :
  length (voices (note_on inst n vel)) = length (voices inst).
Proof.
  rewrite note_on_unfold, voices_upd_voice, length_alter, voices_lfo_gate.
  by rewrite voices_upd_voice, length_alter.
Qed.

Lemma note_off_unfold inst n :
  note_off inst n =
  match find_voice (note_off_match n) (voices inst) with
  | None => inst
  | Some i =>
      lfo_gate LfoNoteOff (upd_voice i (with_currentEnvelope env_noteOff) inst)
  end.
Proof. reflexivity. Qed.

Lemma length_voices_note_off inst n :
  length (voices (note_off inst n)) = length (voices inst).
Proof.
  rewrite note_off_unfold. destruct (find_voice _ _); [|done].
  by rewrite voices_lfo_gate, voices_upd_voice, length_alter.
Qed.

Lemma length_voices_render `{HeraDeps} inst frames stages :
  length (voices (v2_render_block inst frames stages)) = length (voices inst).
Proof. unfold v2_render_block. simpl. by rewrite length_imap. Qed.

Lemma length_voices_step `{HeraDeps} inst ev :
  length (voices (step inst ev)) = length (voices inst).
Proof.
  destruct ev; simpl.
  - apply length_voices_note_on.
  - apply length_voices_note_off.
  - apply length_voices_render.
Qed.

Lemma length_voices_run `{HeraDeps} evs inst :
  length (voices (run evs inst)) = length (voices inst).
Proof.
  revert inst. induction evs as [|ev evs IH]; intros inst; [done|].
  change (run (ev :: evs) inst) with (run evs (step inst ev)).
  by rewrite IH, length_voices_step.
Qed.

Lemma active_count_le inst : (active_count inst <= length (voices inst))%nat.
Proof. apply List.filter_length_le. Qed.

(** ** Held voices stay held while no note-off arrives *)

Lemma held_iff v :
  held v <->
  active v = true /\ env_isReleased (getCurrentEnvelope v) = false.
Proof. unfold held. by rewrite isReleased_current. Qed.

Lemma env_isReleased_iter k st :
  match st with Attack | Decay | Sustain => True | _ => False end ->
  match Nat.iter k env_next_stage st with
  | Attack | Decay | Sustain => True
  | _ => False
  end.
Proof.
  intros Hst. induction k as [|k IH]; simpl; [done|].
  by destruct (Nat.iter k env_next_stage st).
Qed.

Lemma env_processNextBlock_unreleased k e :
  env_isReleased e = false ->
  env_isReleased (env_processNextBlock k e) = false
  /\ env_isActive (env_processNextBlock k e) = true.
Proof.
  unfold env_isReleased, env_isActive, env_processNextBlock. simpl.
  intros He. pose proof (env_isReleased_iter k (env_state e)) as Hk.
  destruct (env_state e); try discriminate;
    by destruct (Nat.iter k env_next_stage _); try (by destruct Hk).
Qed.

Lemma render_voice_held `{HeraDeps} stages frames v :
  held v -> held (render_voice stages frames v).
Proof.
  rewrite !held_iff. intros [Ha Hr]. unfold render_voice.
  unfold getCurrentEnvelope in *. simpl.
  destruct (voice_vcaType v =? kHeraVCATypeEnvelope) eqn:E; simpl; rewrite E.
  - destruct (env_processNextBlock_unreleased (fst stages) _ Hr) as [H1 H2].
    rewrite H2. simpl. by rewrite E.
  - destruct (env_processNextBlock_unreleased (snd stages) _ Hr) as [H1 H2].
    rewrite H2. simpl. by rewrite E.
Qed.

Lemma render_block_held_prefix `{HeraDeps} k inst frames stages :
  held_prefix k (voices inst) ->
  held_prefix k (voices (v2_render_block inst frames stages)).
Proof.
  intros Hp i v'. unfold v2_render_block. cbn [voices upd_voices].
  cbn [voices upd_smoothVCFBendDepth upd_smoothVCFKeyboardModDepth
         upd_smoothVCFLFOModDepth upd_smoothVCFEnvModDepth
         upd_smoothResonance upd_smoothCutoff upd_smoothPitchModDepth].
  rewrite list_lookup_imap.
  destruct (voices inst !! i) as [v|] eqn:Hv; simpl; [|done].
  intros [= <-]. destruct (Hp i v Hv) as [Hlt Hge]. split.
  - intros Hi. destruct (Hlt Hi) as [Ha Hr]. rewrite Ha.
    by apply render_voice_held.
  - intros Hi. rewrite (Hge Hi). by apply Hge.
Qed.

Lemma held_prefix_first_free k vs :
  (k < length vs)%nat -> held_prefix k vs ->
  find_voice (fun v => negb (active v)) vs = Some k.
Proof.
  intros Hk Hp. apply find_voice_Some. split.
  - destruct (lookup_lt_is_Some_2 vs k Hk) as [v Hv]. exists v. split; [done|].
    destruct (Hp k v Hv) as [_ Hge]. by rewrite Hge.
  - intros j v Hj Hv. destruct (Hp j v Hv) as [Hlt _].
    destruct (Hlt Hj) as [-> _]. done.
Qed.

Lemma held_prefix_all_held vs :
  held_prefix (length vs) vs -> forall v, v ∈ vs -> held v.
Proof.
  intros Hp v [i Hi]%list_elem_of_lookup.
  apply (Hp i v Hi). by eapply lookup_lt_Some.
Qed.

Lemma all_held_find_free_voice inst :
  (forall v, v ∈ voices inst -> held v) -> find_free_voice inst = 0%nat.
Proof.
  intros Hall. unfold find_free_voice.
  assert (find_voice (fun v => negb (active v)) (voices inst) = None) as ->.
  { apply find_voice_None. intros v Hv. by destruct (Hall v Hv) as [-> _]. }
  assert (find_voice isReleased (voices inst) = None) as ->; [|done].
  apply find_voice_None. intros v Hv. by destruct (Hall v Hv).
Qed.

Lemma note_on_held_prefix `{HeraDeps} k inst n vel :
  (k <= length (voices inst))%nat ->
  held_prefix k (voices inst) ->
  held_prefix (Nat.min (S k) (length (voices inst)))
    (voices (note_on inst n vel)).
Proof.
  intros Hk Hp.
  assert (forall vi v, find_free_voice inst = vi ->
            voices inst !! vi = Some v ->
            forall i w, voices (note_on inst n vel) !! i = Some w ->
              (i = vi /\ held w) \/ (i <> vi /\ voices inst !! i = Some w))
    as Hcase.
  { intros vi v Hvi Hv i w Hw. destruct (decide (i = vi)) as [->|Hne].
    - left. split; [done|]. rewrite <- Hvi in Hv.
      destruct (note_on_voice inst n vel v Hv) as (v' & Hv' & Ha & _ & _ & Hs).
      rewrite Hvi in Hv'. assert (w = v') as -> by congruence.
      apply held_iff. split; [done|]. unfold env_isReleased. by rewrite Hs.
    - right. split; [done|]. rewrite <- Hw. symmetry.
      apply note_on_other. congruence. }
  destruct (decide (k = length (voices inst))) as [Heq|Hlt].
  - (* the pool is full: slot 0 is taken over *)
    subst k. rewrite Nat.min_r by lia.
    pose proof (all_held_find_free_voice inst (held_prefix_all_held _ Hp)) as H0.
    intros i w Hw. split; [|intros Hi; apply lookup_lt_Some in Hw;
      rewrite length_voices_note_on in Hw; lia].
    intros Hi. destruct (voices inst !! 0%nat) as [v|] eqn:Hv.
    + destruct (Hcase 0%nat v H0 Hv i w Hw) as [[_ Hh]|[_ Hold]]; [done|].
      by apply (Hp i w Hold).
    + apply lookup_ge_None in Hv. lia.
  - (* slot [k] is the first free one *)
    assert (k < length (voices inst))%nat as Hk' by lia.
    rewrite Nat.min_l by lia.
    assert (find_free_voice inst = k) as Hvi.
    { unfold find_free_voice. by rewrite (held_prefix_first_free k _ Hk' Hp). }
    destruct (lookup_lt_is_Some_2 (voices inst) k Hk') as [v Hv].
    intros i w Hw. destruct (Hcase k v Hvi Hv i w Hw) as [[-> Hh]|[Hne Hold]].
    + split; [done|lia].
    + destruct (Hp i w Hold) as [Hl Hg]. split.
      * intros Hi. apply Hl. lia.
      * intros Hi. apply Hg. lia.
Qed.

Lemma apply_param_active `{HeraDeps} inst idx x i v' :
  voices (apply_param inst idx x) !! i = Some v' ->
  exists v, voices inst !! i = Some v /\ active v' = active v.
Proof.
  unfold apply_param. destruct (param_of_index idx) as [p|]; [|by eauto].
  destruct p; simpl; rewrite ?list_lookup_fmap;
    try (destruct (voices inst !! i) as [v|]; simpl; [|done];
         intros [= <-]; by eauto);
    try by eauto.
  destruct (_ =? _); simpl; by eauto.
Qed.

Lemma apply_values_active `{HeraDeps} vals k inst i v' :
  voices (apply_values k vals inst) !! i = Some v' ->
  exists v, voices inst !! i = Some v /\ active v' = active v.
Proof.
  revert k inst v'. induction vals as [|x vals IH]; intros k inst v'; simpl.
  - by eauto.
  - intros (v1 & Hv1 & E1)%IH.
    destruct (apply_param_active _ _ _ _ _ Hv1) as (v & Hv & E).
    exists v. split; [done|congruence].
Qed.

Lemma apply_preset_active `{HeraDeps} inst idx i v' :
  voices (apply_preset inst idx) !! i = Some v' ->
  exists v, voices inst !! i = Some v /\ active v' = active v.
Proof.
  unfold apply_preset. destruct (_ || _); [by eauto|].
  destruct (presets inst !! _); [|by eauto].
  intros Hv. by apply apply_values_active in Hv.
Qed.

Lemma create_held_prefix `{HeraDeps} bank :
  held_prefix 0 (voices (v2_create_instance bank)).
Proof.
  assert (forall i v, voices (v2_create_instance bank) !! i = Some v ->
            active v = false) as Hfree.
  { intros i v. unfold v2_create_instance.
    assert (forall w,
      voices (upd_presets (fun _ => take MAX_PRESETS bank)
                (apply_values 0 g_param_defaults new_instance)) !! i = Some w ->
      active w = false) as Hbase.
    { intros w. rewrite voices_upd_presets.
      intros (v0 & Hv0 & ->)%apply_values_active.
      unfold new_instance in Hv0. cbn [voices] in Hv0.
      apply lookup_replicate in Hv0 as [-> _]. reflexivity. }
    destruct (0 <? _).
    - intros (v0 & Hv0 & ->)%apply_preset_active.
      rewrite voices_upd_current_preset in Hv0. revert Hv0. apply Hbase.
    - apply Hbase. }
  intros i v Hv. split; [lia|]. intros _. by eapply Hfree.
Qed.

Lemma run_held_prefix `{HeraDeps} evs :
  forall inst k,
    (k <= length (voices inst))%nat ->
    held_prefix k (voices inst) ->
    forallb (fun ev => negb (is_note_off ev)) evs = true ->
    held_prefix (Nat.min (k + note_ons evs) (length (voices inst)))
      (voices (run evs inst)).
Proof.
  induction evs as [|ev evs IH]; intros inst k Hk Hp Hno.
  - unfold note_ons. simpl. by replace (Nat.min (k + 0) _) with k by lia.
  - simpl in Hno. apply andb_prop in Hno as [Hev Hno].
    change (run (ev :: evs) inst) with (run evs (step inst ev)).
    destruct ev as [n vel|n|frames stages]; simpl in Hev; [|done|].
    + pose proof (note_on_held_prefix k inst n vel Hk Hp) as Hp'.
      specialize (IH (note_on inst n vel)
                    (Nat.min (S k) (length (voices inst)))
                    ltac:(rewrite length_voices_note_on; lia) Hp' Hno).
      rewrite length_voices_note_on in IH.
      change (note_ons (NoteOn n vel :: evs)) with (S (note_ons evs)).
      replace (Nat.min (k + S (note_ons evs)) _)
        with (Nat.min (Nat.min (S k) (length (voices inst)) + note_ons evs)
                (length (voices inst))) by lia.
      exact IH.
    + pose proof (render_block_held_prefix k inst frames stages Hp) as Hp'.
      specialize (IH (v2_render_block inst frames stages) k
                    ltac:(rewrite length_voices_render; lia) Hp' Hno).
      rewrite length_voices_render in IH. exact IH.
Qed.

Lemma all_active_count vs :
  (forall v, v ∈ vs -> active v = true) ->
  length (List.filter active vs) = length vs.
Proof.
  induction vs as [|v vs IH]; intros Hall; simpl; [done|].
  rewrite (Hall v ltac:(left)). simpl. f_equal. apply IH.
  intros w Hw. apply Hall. by right.
Qed.

(** C2: after any sequence of note-on, note-off and render events on a
    fresh instance the pool still has its 6 slots, so at most 6 voices are
    active, also after one more note-on.  When every slot is assigned, the
    slot the next note-on takes is the first released one, and slot 0 when
    none is released.  In particular, once 6 or more notes have been
    switched on and none switched off, all six voices are held, the next
    note-on takes slot 0 and 6 voices are active after it. *)
Theorem polyphony_bound `{HeraDeps} bank evs n vel :
  let s := run evs (v2_create_instance bank) in
  length (voices s) = MAX_VOICES
  /\ (active_count s <= MAX_VOICES)%nat
  /\ (active_count (note_on s n vel) <= MAX_VOICES)%nat
  /\ ((forall v, v ∈ voices s -> active v = true) ->
      (forall k, first_voice isReleased (voices s) k -> find_free_voice s = k)
      /\ ((forall v, v ∈ voices s -> isReleased v = false) ->
          find_free_voice s = 0%nat))
  /\ (forallb (fun ev => negb (is_note_off ev)) evs = true ->
      (MAX_VOICES <= note_ons evs)%nat ->
      (forall v, v ∈ voices s -> held v)
      /\ find_free_voice s = 0%nat
      /\ active_count (note_on s n vel) = MAX_VOICES).
Proof.
  intros s.
  assert (length (voices s) = MAX_VOICES) as Hlen.
  { subst s. by rewrite length_voices_run, length_voices_create. }
  split; [done|]. split.
  { rewrite <- Hlen. apply active_count_le. }
  split.
  { rewrite <- Hlen, <- (length_voices_note_on s n vel). apply active_count_le. }
  split.
  - intros Hall.
    destruct (find_free_voice_cases s) as (_ & H2 & H3).
    split; [by apply H2|]. intros Hrel. apply H3. intros v Hv.
    split; [by apply Hall|by apply Hrel].
  - intros Hno Hsix.
    pose proof (run_held_prefix evs (v2_create_instance bank) 0%nat
                  ltac:(lia) (create_held_prefix bank) Hno) as Hp.
    rewrite length_voices_create in Hp. fold s in Hp.
    rewrite Nat.min_r in Hp by lia. rewrite <- Hlen in Hp.
    pose proof (held_prefix_all_held _ Hp) as Hheld.
    split; [done|]. split; [by apply all_held_find_free_voice|].
    pose proof (note_on_held_prefix (length (voices s)) s n vel
                  ltac:(lia) Hp) as Hp'.
    rewrite Nat.min_r in Hp' by lia.
    rewrite <- (length_voices_note_on s n vel) in Hp'.
    unfold active_count. rewrite all_active_count.
    + by rewrite length_voices_note_on.
    + intros v Hv. by destruct (held_prefix_all_held _ Hp' v Hv).
Qed.

Lemma polyphony_bound_witness :
  find_free_voice (@run run_deps six_notes (@v2_create_instance run_deps []))
  = 0%nat.
Proof.
  destruct (@polyphony_bound run_deps [] six_notes 71 F32.one)
    as (_ & _ & _ & _ & Hheld).
  apply Hheld.
  - reflexivity.
  - vm_compute. lia.
Defined.

(** ** Note-off *)

Lemma env_noteOff_released e :
  env_isReleased e = false -> env_state (env_noteOff e) = Release.
Proof.
  unfold env_isReleased, env_noteOff. by destruct (env_state e).
Qed.

(** The voice in slot [j] after a note-off. *)
Lemma note_off_lookup inst n j v :
  voices inst !! j = Some v ->
  (first_voice (note_off_match n) (voices inst) j ->
     voices (note_off inst n) !! j = Some (with_currentEnvelope env_noteOff v)
     /\ env_state (getCurrentEnvelope (with_currentEnvelope env_noteOff v))
        = Release
     /\ with_currentEnvelope env_noteOff v <> v)
  /\ (~ first_voice (note_off_match n) (voices inst) j ->
      voices (note_off inst n) !! j = Some v).
Proof.
  intros Hv. rewrite note_off_unfold. split.
  - intros Hj. pose proof Hj as Hfind%find_voice_Some. rewrite Hfind.
    rewrite voices_lfo_gate. split; [by apply lookup_upd_voice_eq|].
    destruct Hj as [[w [Hw Hm]] _]. assert (w = v) as -> by congruence.
    unfold note_off_match in Hm.
    apply andb_prop in Hm as [_ Hrel]. apply negb_true_iff in Hrel.
    rewrite isReleased_current in Hrel.
    assert (env_state (getCurrentEnvelope (with_currentEnvelope env_noteOff v))
            = Release) as Hst.
    { rewrite getCurrentEnvelope_with_currentEnvelope.
      by apply env_noteOff_released. }
    split; [done|]. intros Heq. rewrite Heq in Hst.
    unfold env_isReleased in Hrel. rewrite Hst in Hrel. discriminate.
  - intros Hnj. destruct (find_voice _ _) as [i|] eqn:Hfind; [|done].
    rewrite voices_lfo_gate, lookup_upd_voice_ne; [done|].
    intros ->. by apply Hnj, find_voice_Some.
Qed.

(** A note-off assigns no voice: the [active] flags and the notes of the
    pool stay as they are. *)
Lemma note_off_assignment inst n :
  active <$> voices (note_off inst n) = active <$> voices inst
  /\ note <$> voices (note_off inst n) = note <$> voices inst.
Proof.
  rewrite note_off_unfold. destruct (find_voice _ _) as [i|]; [|done].
  rewrite voices_lfo_gate, voices_upd_voice. split.
  - rewrite (list_fmap_alter active _ id).
    + by apply list_alter_id.
    + apply Forall_forall. intros v _. apply active_with_currentEnvelope.
  - rewrite (list_fmap_alter note _ id).
    + by apply list_alter_id.
    + apply Forall_forall. intros v _. apply note_with_currentEnvelope.
Qed.

(** C6: a note-off affects the first (lowest-indexed) voice that is
    active, holds the note and is not yet released, and no other: that
    voice has its governing envelope released, and nothing else about it
    changes; every voice that is not this first match - a later voice
    holding the same note included - is left as it was.  At most one slot
    is the first match. *)
Theorem note_off_first_match inst n j v :
  voices inst !! j = Some v ->
  (first_voice (note_off_match n) (voices inst) j ->
     voices (note_off inst n) !! j = Some (with_currentEnvelope env_noteOff v)
     /\ env_state (getCurrentEnvelope (with_currentEnvelope env_noteOff v))
        = Release
     /\ with_currentEnvelope env_noteOff v <> v)
  /\ (~ first_voice (note_off_match n) (voices inst) j ->
      voices (note_off inst n) !! j = Some v)
  /\ (forall i, first_voice (note_off_match n) (voices inst) i ->
      first_voice (note_off_match n) (voices inst) j -> i = j).
Proof.
  intros Hv. destruct (note_off_lookup inst n j v Hv) as [Hfirst Hother].
  split; [exact Hfirst|]. split; [exact Hother|].
  intros i Hi Hj. by eapply first_voice_unique.
Qed.

Lemma note_off_first_match_witness :
  voices (note_off chord_instance 60) !! 2%nat = Some (held_voice 60).
Proof.
  destruct (note_off_first_match chord_instance 60 2%nat (held_voice 60)
              eq_refl) as (_ & Hother & _).
  apply Hother. intros [_ Hlow].
  specialize (Hlow 0%nat (held_voice 60) ltac:(lia) eq_refl).
  vm_compute in Hlow. discriminate.
Defined.

(** A note-off no voice matches changes nothing. *)
Lemma note_off_no_match inst n :
  (forall v, v ∈ voices inst -> note_off_match n v = false) ->
  note_off inst n = inst.
Proof.
  intros Hno. rewrite note_off_unfold.
  by rewrite (proj2 (find_voice_None _ _) Hno).
Qed.

(** ** MIDI dispatch *)

(** C10: a note-on message (status 0x90) with velocity byte 0 is a
    note-off for its (transposed, clamped) note: the instance is the one
    [note_off] gives, no voice is assigned ([active] flags and notes stay),
    and the first active, not yet released voice that holds the note has
    its governing envelope released while the other voices stay as they
    are. *)
Theorem note_on_velocity_zero `{HeraDeps} inst st d1 tl :
  Z.land st 0xF0 = 0x90 ->
  let n := clamp_int 0 127 (d1 + octave_transpose inst * 12) in
  let inst' := v2_on_midi inst (st :: d1 :: 0 :: tl) in
  inst' = note_off inst n
  /\ active <$> voices inst' = active <$> voices inst
  /\ note <$> voices inst' = note <$> voices inst
  /\ forall j v, voices inst !! j = Some v ->
       (first_voice (note_off_match n) (voices inst) j ->
          voices inst' !! j = Some (with_currentEnvelope env_noteOff v)
          /\ env_state (getCurrentEnvelope (with_currentEnvelope env_noteOff v))
             = Release)
       /\ (~ first_voice (note_off_match n) (voices inst) j ->
           voices inst' !! j = Some v).
Proof.
  intros Hst n inst'.
  assert (inst' = note_off inst n) as ->.
  { subst inst' n. unfold v2_on_midi. cbn [length nth Nat.ltb Nat.leb].
    rewrite Hst. reflexivity. }
  split; [done|].
  destruct (note_off_assignment inst n) as [Ha Hn]. split; [done|].
  split; [done|]. intros j v Hv.
  destruct (note_off_lookup inst n j v Hv) as [Hfirst Hother].
  split; [|exact Hother]. intros Hj.
  destruct (Hfirst Hj) as (H1 & H2 & _). by split.
Qed.

Lemma note_on_velocity_zero_witness :
  @v2_on_midi run_deps chord_instance [0x90; 60; 0]
  = note_off chord_instance 60.
Proof.
  exact (proj1 (@note_on_velocity_zero run_deps chord_instance 0x90 60 []
                  eq_refl)).
Defined.

(** ** Pitch bend *)

Lemma elem_of_zrange n z : 0 <= z < Z.of_nat n -> In z (zrange n).
Proof.
  intros Hz. unfold zrange. apply in_map_iff. exists (Z.to_nat z).
  split; [lia|]. apply in_seq. lia.
Qed.

Lemma bend_exact_all :
  forallb (fun d2 => forallb (fun d1 => bend_exact d1 d2) (zrange 128))
    (zrange 128) = true.
Proof. vm_compute. reflexivity. Qed.

Lemma bend_semitones_exact d1 d2 :
  0 <= d1 < 128 -> 0 <= d2 < 128 ->
  Z.lor (Z.shiftl d2 7) d1 = 128 * d2 + d1
  /\ (F32.to_Q (bend_semitones (Z.lor (Z.shiftl d2 7) d1))
      == ((128 * d2 + d1 - 8192) # 8192) * 7)%Q.
Proof.
  intros H1 H2. pose proof bend_exact_all as Hall.
  rewrite forallb_forall in Hall.
  specialize (Hall d2 (elem_of_zrange 128 d2 H2)).
  rewrite forallb_forall in Hall.
  specialize (Hall d1 (elem_of_zrange 128 d1 H1)).
  unfold bend_exact in Hall. apply andb_prop in Hall as [Hraw Hq].
  apply Z.eqb_eq in Hraw. split; [done|]. by apply Qeq_bool_iff.
Qed.

(** C5: a pitch-bend message with data bytes [d1], [d2] - the raw 14-bit
    value [v = 128 * d2 + d1] - sets the bend to exactly
    [((v - 8192) / 8192) * 7] semitones.  Every active voice gets the
    oscillator frequency [midi_to_freq(note) * exp2(semitones / 12)];
    inactive voices are not touched; no envelope, [active] flag or note
    changes.  A raw value 4096 above the centre gives 3.5 semitones. *)
Theorem pitch_bend `{HeraDeps} inst st d1 d2 tl :
  Z.land st 0xF0 = 0xE0 ->
  0 <= d1 < 128 -> 0 <= d2 < 128 ->
  let v := 128 * d2 + d1 in
  let inst' := v2_on_midi inst (st :: d1 :: d2 :: tl) in
  let semis := pitchBendSemitones inst' in
  semis = bend_semitones v
  /\ (F32.to_Q semis == ((v - 8192) # 8192) * 7)%Q
  /\ (forall j voice, voices inst !! j = Some voice ->
      exists voice',
        voices inst' !! j = Some voice'
        /\ (active voice = true ->
            dco_frequency (dco voice')
            = F32.mul (midi_to_freq (note voice))
                (exp2f (F32.div semis (F32.of_int 12))))
        /\ (active voice = false -> voice' = voice)
        /\ normalEnvelope voice' = normalEnvelope voice
        /\ gateEnvelope voice' = gateEnvelope voice
        /\ active voice' = active voice
        /\ note voice' = note voice)
  /\ bend_semitones (8192 + 4096) = F32.dec 35 10
  /\ (F32.to_Q (F32.dec 35 10) == 7 # 2)%Q.
Proof.
  intros Hst H1 H2 v inst' semis.
  destruct (bend_semitones_exact d1 d2 H1 H2) as [Hraw Hq].
  assert (inst' =
    upd_voices
      (fmap (fun voice =>
               if active voice then
                 with_dco
                   (dco_setFrequency
                      (F32.mul (midi_to_freq (note voice))
                         (exp2f (F32.div (bend_semitones v) (F32.of_int 12)))))
                   voice
               else voice))
      (upd_pitchBendSemitones (fun _ => bend_semitones v) inst)) as Hinst.
  { subst inst' v. unfold v2_on_midi. cbn [length nth Nat.ltb Nat.leb].
    rewrite Hst, Hraw. reflexivity. }
  assert (semis = bend_semitones v) as Hsemis.
  { subst semis. by rewrite Hinst. }
  split; [done|]. split.
  { rewrite Hsemis. subst v. rewrite Hraw in Hq. exact Hq. }
  split.
  - intros j voice Hv. rewrite Hsemis, Hinst. cbn [voices upd_voices].
    cbn [voices upd_pitchBendSemitones].
    rewrite list_lookup_fmap, Hv. simpl. eexists. split; [done|].
    destruct (active voice) eqn:Ha; repeat split; try done.
  - split; [by vm_compute|]. by vm_compute.
Qed.

Lemma pitch_bend_witness :
  pitchBendSemitones (@v2_on_midi run_deps chord_instance [0xE0; 0; 96])
  = F32.dec 35 10.
Proof.
  destruct (@pitch_bend run_deps chord_instance 0xE0 0 96 [] eq_refl
              ltac:(lia) ltac:(lia)) as (Hsemis & _).
  rewrite Hsemis. vm_compute. reflexivity.
Defined.

(** ** Modulation arithmetic of the render pass *)

Lemma smooth_values_S `{HeraDeps} n s :
  smooth_values (S n) s
  = fst (getNextValue s) :: smooth_values n (snd (getNextValue s)).
Proof. reflexivity. Qed.

Lemma detune_loop_cons `{HeraDeps} pf l rest s :
  fst (detune_loop pf (l :: rest) s)
  = F32.mul pf
      (exp2f (F32.mul (F32.mul l (F32.dec 25 100)) (fst (getNextValue s))))
    :: fst (detune_loop pf rest (snd (getNextValue s))).
Proof.
  simpl. destruct (detune_loop _ _ _) as [out s0]. reflexivity.
Qed.

Lemma detune_loop_lookup `{HeraDeps} pf lfoBuffer :
  forall s i l d,
    lfoBuffer !! i = Some l ->
    smooth_values (length lfoBuffer) s !! i = Some d ->
    fst (detune_loop pf lfoBuffer s) !! i
    = Some (F32.mul pf (exp2f (F32.mul (F32.mul l (F32.dec 25 100)) d))).
Proof.
  induction lfoBuffer as [|x rest IH]; intros s i l d Hl Hd; [done|].
  rewrite detune_loop_cons. cbn [length] in Hd.
  rewrite smooth_values_S in Hd. destruct i as [|i]; simpl in Hl, Hd.
  - injection Hl as ->. injection Hd as <-. reflexivity.
  - by apply IH.
Qed.

Lemma detune_loop_length `{HeraDeps} pf lfoBuffer s :
  length (fst (detune_loop pf lfoBuffer s)) = length lfoBuffer.
Proof.
  revert s. induction lfoBuffer as [|x rest IH]; intros s; [done|].
  rewrite detune_loop_cons. simpl. by rewrite IH.
Qed.

(** C8: entry [i] of the detune buffer of a block is
    [pitch_range * exp2(lfo[i] * 0.25 * depth[i])]: [lfo[i]] the shared
    LFO buffer value, [pitch_range] the instance's pitch-range factor,
    [depth[i]] the value the pitch-mod-depth smoother returns on its
    [i]-th call of the block.  The buffer has one entry per frame. *)
Theorem detune_formula `{HeraDeps} inst lfoBuffer i l d :
  lfoBuffer !! i = Some l ->
  smooth_values (length lfoBuffer) (smoothPitchModDepth inst) !! i = Some d ->
  detuneBuffer inst lfoBuffer !! i
  = Some (F32.mul (pitchFactor inst)
            (exp2f (F32.mul (F32.mul l (F32.dec 25 100)) d)))
  /\ length (detuneBuffer inst lfoBuffer) = length lfoBuffer.
Proof.
  intros Hl Hd. unfold detuneBuffer. split.
  - by apply detune_loop_lookup.
  - apply detune_loop_length.
Qed.

Lemma detune_formula_witness :
  @detuneBuffer run_deps new_instance [F32.one; F32.zero] !! 1%nat
  = Some F32.one.
Proof.
  destruct (@detune_formula run_deps new_instance [F32.one; F32.zero] 1%nat
              F32.zero F32.zero eq_refl eq_refl) as [Hd _].
  rewrite Hd. vm_compute. reflexivity.
Defined.

Lemma mod_loop_cons `{HeraDeps} l rest inst :
  fst (mod_loop (l :: rest) inst)
  = fst (mod_sample l inst) :: fst (mod_loop rest (snd (mod_sample l inst))).
Proof.
  simpl. destruct (mod_sample l inst) as [m inst1]. simpl.
  destruct (mod_loop _ _) as [out inst2]. reflexivity.
Qed.

Lemma mod_loop_lookup `{HeraDeps} lfoBuffer :
  forall inst i lfo_i c r e l k b,
    lfoBuffer !! i = Some lfo_i ->
    smooth_values (length lfoBuffer) (smoothCutoff inst) !! i = Some c ->
    smooth_values (length lfoBuffer) (smoothResonance inst) !! i = Some r ->
    smooth_values (length lfoBuffer) (smoothVCFEnvModDepth inst) !! i
    = Some e ->
    smooth_values (length lfoBuffer) (smoothVCFLFOModDepth inst) !! i
    = Some l ->
    smooth_values (length lfoBuffer) (smoothVCFKeyboardModDepth inst) !! i
    = Some k ->
    smooth_values (length lfoBuffer) (smoothVCFBendDepth inst) !! i
    = Some b ->
    fst (mod_loop lfoBuffer inst) !! i = Some (mod_values c r e l k b lfo_i).
Proof.
  induction lfoBuffer as [|x rest IH];
    intros inst i lfo_i c r e l k b Hlfo Hc Hr He Hl Hk Hb; [done|].
  rewrite mod_loop_cons. cbn [length] in *.
  rewrite smooth_values_S in Hc, Hr, He, Hl, Hk, Hb.
  destruct i as [|i]; simpl in Hlfo, Hc, Hr, He, Hl, Hk, Hb.
  - injection Hlfo as ->. injection Hc as <-. injection Hr as <-.
    injection He as <-. injection Hl as <-. injection Hk as <-.
    injection Hb as <-. reflexivity.
  - by apply IH.
Qed.

Lemma cutoff_loop_lookup `{HeraDeps} fnf pbf buses :
  forall modEnv ampEnv i m me ae,
    buses !! i = Some m -> modEnv !! i = Some me -> ampEnv !! i = Some ae ->
    cutoff_loop fnf pbf buses modEnv ampEnv !! i
    = Some (F32.mul (F32.dec 78 10) (exp2f (cutoff_octaves m me ae fnf pbf))).
Proof.
  induction buses as [|x buses IH]; intros modEnv ampEnv i m me ae Hm Hme Hae;
    [done|].
  destruct modEnv as [|y modEnv]; [done|].
  destruct ampEnv as [|z ampEnv]; [done|].
  destruct i as [|i]; simpl in Hm, Hme, Hae.
  - injection Hm as ->. injection Hme as ->. injection Hae as ->.
    reflexivity.
  - by apply IH.
Qed.

(** C3 (as amended): for a voice and a sample [i] of a block, the cutoff
    handed to the resonant filter is [7.8 * exp2(total)], where [total]
    sums, in this order, the base contribution
    [cutoff[i] * (200/12) + resonance[i] * 0.5], the envelope contribution
    [envelope_depth[i] * envelope[i] * 12], the LFO contribution
    [lfo_depth[i] * lfo[i] * 3 * amplitude_envelope[i]], the key-track
    contribution [key_depth[i] * ((note - 60) * (1/12))] and the bend
    contribution [bend_depth[i] * (bend_semitones * (48/84))]; the depths
    are the smoothed parameter values of the sample.  The value goes to
    the filter as computed. *)
Theorem filter_cutoff_formula `{HeraDeps} inst voice lfoBuffer envelopeBuffer
  gateBuffer i lfo_i env_i amp_i c r e l k b :
  lfoBuffer !! i = Some lfo_i ->
  envelopeBuffer !! i = Some env_i ->
  (if voice_vcaType voice =? kHeraVCATypeEnvelope
   then envelopeBuffer else gateBuffer) !! i = Some amp_i ->
  smooth_values (length lfoBuffer) (smoothCutoff inst) !! i = Some c ->
  smooth_values (length lfoBuffer) (smoothResonance inst) !! i = Some r ->
  smooth_values (length lfoBuffer) (smoothVCFEnvModDepth inst) !! i = Some e ->
  smooth_values (length lfoBuffer) (smoothVCFLFOModDepth inst) !! i = Some l ->
  smooth_values (length lfoBuffer) (smoothVCFKeyboardModDepth inst) !! i
  = Some k ->
  smooth_values (length lfoBuffer) (smoothVCFBendDepth inst) !! i = Some b ->
  let base :=
    F32.add (F32.mul c (F32.div (F32.of_int 200) (F32.of_int 12)))
      (F32.mul r (F32.dec 5 10)) in
  let env_octaves := F32.mul (F32.mul e env_i) (F32.of_int 12) in
  let lfo_octaves :=
    F32.mul (F32.mul (F32.mul l lfo_i) (F32.of_int 3)) amp_i in
  let key_octaves :=
    F32.mul k
      (F32.mul (F32.of_int (note voice - 60))
         (F32.div F32.one (F32.of_int 12))) in
  let bend_octaves :=
    F32.mul b
      (F32.mul (pitchBendSemitones inst)
         (F32.div (F32.of_int 48) (F32.mul (F32.of_int 12) (F32.of_int 7)))) in
  render_voice_cutoff inst voice (modBuses inst lfoBuffer) envelopeBuffer
    gateBuffer !! i
  = Some (F32.mul (F32.dec 78 10)
            (exp2f
               (F32.add
                  (F32.add
                     (F32.add (F32.add base env_octaves) lfo_octaves)
                     key_octaves)
                  bend_octaves))).
Proof.
  intros Hlfo Henv Hamp Hc Hr He Hl Hk Hb. cbv zeta.
  unfold render_voice_cutoff, modBuses.
  rewrite (cutoff_loop_lookup _ _ _ _ _ i (mod_values c r e l k b lfo_i)
             env_i amp_i); [reflexivity| |done|done].
  by apply mod_loop_lookup.
Qed.

Lemma filter_cutoff_formula_witness :
  @render_voice_cutoff run_deps loud_instance (held_voice 60)
    (@modBuses run_deps loud_instance [F32.one]) [F32.one] [] !! 0%nat
  = Some (F32.mul (F32.dec 78 10) (F32.of_int 32768)).
Proof.
  rewrite (@filter_cutoff_formula run_deps loud_instance (held_voice 60)
             [F32.one] [F32.one] [] 0%nat F32.one F32.one F32.one
             F32.zero F32.zero F32.one F32.one F32.zero F32.zero
             eq_refl eq_refl eq_refl eq_refl eq_refl eq_refl eq_refl eq_refl
             eq_refl).
  vm_compute. reflexivity.
Defined.

(** Whatever libm is used, as long as its [exp2] of 15 is 32768: with the
    envelope and LFO depths at 1 and the envelope and the LFO at their
    full value, the filter is handed 7.8 * 32768 Hz, more than the sample
    rate. *)
Lemma render_voice_cutoff_unclamped `{HeraDeps} :
  exp2f (F32.of_int 15) = F32.of_int 32768 ->
  render_voice_cutoff loud_instance (held_voice 60) [loud_sample] [F32.one] []
  = [F32.mul (F32.dec 78 10) (F32.of_int 32768)]
  /\ F32.ltb (F32.of_int MOVE_SAMPLE_RATE)
       (F32.mul (F32.dec 78 10) (F32.of_int 32768)) = true.
Proof.
  intros Hexp. split; [|by vm_compute].
  unfold render_voice_cutoff.
  change (if voice_vcaType (held_voice 60) =? kHeraVCATypeEnvelope
          then [F32.one] else []) with [F32.one].
  cbn [cutoff_loop].
  assert (cutoff_octaves loud_sample F32.one F32.one
            (filterNoteFactor (held_voice 60)) (pitchbendFactor loud_instance)
          = F32.of_int 15) as -> by (by vm_compute).
  by rewrite Hexp.
Qed.

(** C3 as stated fails twice.  First, the LFO contribution depends on the
    LFO value: with LFO depth 1, LFO value 1/2 and amplitude envelope 1
    (everything else 0) the code's octave sum is 3/2 where the stated sum
    is 1.  Second, the cutoff is not clamped: from the settled instance
    above the filter is handed 7.8 * 2^15 Hz, more than the sample rate. *)
Lemma filter_cutoff_counterexample :
  (cutoff_octaves
     (mod_values F32.zero F32.zero F32.zero F32.one F32.zero F32.zero
        (F32.dec 5 10))
     F32.zero F32.one (filterNoteFactor (held_voice 60))
     (pitchbendFactor chord_instance)
   = F32.dec 15 10
   /\ spec_cutoff_octaves F32.zero F32.zero F32.zero F32.one F32.zero F32.zero
        F32.zero F32.one 60 (pitchBendSemitones chord_instance)
      = F32.one
   /\ F32.dec 15 10 <> F32.one)
  /\ (@modBuses run_deps loud_instance [F32.one] = [loud_sample]
      /\ @render_voice_cutoff run_deps loud_instance (held_voice 60)
           [loud_sample] [F32.one] []
         = [F32.mul (F32.dec 78 10) (F32.of_int 32768)]
      /\ F32.ltb (F32.of_int MOVE_SAMPLE_RATE)
           (F32.mul (F32.dec 78 10) (F32.of_int 32768)) = true).
Proof.
  split.
  - split; [by vm_compute|]. split; [by vm_compute|]. by vm_compute.
  - split; [by vm_compute|].
    apply (@render_voice_cutoff_unclamped run_deps). by vm_compute.
Qed.

(** ** Key-triggered LFO *)

Lemma has_unreleased_voices_iff inst :
  has_unreleased_voices inst = true
  <-> exists j v, voices inst !! j = Some v /\ held v.
Proof.
  unfold has_unreleased_voices. rewrite existsb_exists. split.
  - intros (v & Hin & Hv). apply list_elem_of_In in Hin.
    apply list_elem_of_lookup in Hin as [j Hj]. exists j, v. split; [done|].
    unfold unreleased in Hv. apply andb_prop in Hv as [Ha Hr].
    apply negb_true_iff in Hr. by split.
  - intros (j & v & Hj & Ha & Hr). exists v. split.
    + apply list_elem_of_In, list_elem_of_lookup. eauto.
    + unfold unreleased. by rewrite Ha, Hr.
Qed.

Lemma lfo_lfo_gate c inst :
  lfo (lfo_gate c inst)
  = if (lfoMode inst =? kHeraLFOAuto) && negb (has_unreleased_voices inst)
    then lfo_call c (lfo inst) else lfo inst.
Proof.
  unfold lfo_gate. destruct (_ =? _); [destruct (negb _)|]; reflexivity.
Qed.

Lemma note_on_lfo `{HeraDeps} inst n vel :
  lfo (note_on inst n vel)
  = lfo (lfo_gate LfoNoteOn
           (upd_voice (find_free_voice inst)
              (fun voice =>
                 set_voice_vcaType (vcaType inst)
                   (set_velocity vel
                      (set_frequency (midi_to_freq n)
                         (set_note n (set_active true voice))))) inst)).
Proof. reflexivity. Qed.

(** A note-on while another voice is held does not touch the LFO. *)
Lemma note_on_lfo_untouched `{HeraDeps} inst n vel :
  other_held (find_free_voice inst) inst ->
  lfo (note_on inst n vel) = lfo inst.
Proof.
  intros (j & v & Hne & Hj & Hheld). rewrite note_on_lfo, lfo_lfo_gate.
  match goal with |- context [has_unreleased_voices ?i] =>
    assert (has_unreleased_voices i = true) as ->
  end.
  { apply has_unreleased_voices_iff. exists j, v. split; [|done].
    by rewrite lookup_upd_voice_ne. }
  by rewrite andb_false_r.
Qed.

(** In key-triggered mode, a note-on while no other voice is held
    triggers the LFO, provided the governing envelope of the slot it
    takes reads released or idle when the slot is taken. *)
Lemma note_on_lfo_trigger `{HeraDeps} inst n vel v0 :
  lfoMode inst = kHeraLFOAuto ->
  voices inst !! find_free_voice inst = Some v0 ->
  isReleased (set_voice_vcaType (vcaType inst) v0) = true ->
  ~ other_held (find_free_voice inst) inst ->
  lfo (note_on inst n vel) = lfo_noteOn (lfo inst).
Proof.
  intros Hauto Hv0 Hrel Hno. rewrite note_on_lfo, lfo_lfo_gate.
  match goal with |- context [has_unreleased_voices ?i] =>
    assert (has_unreleased_voices i = false) as ->
  end.
  { apply not_true_is_false. intros (j & v & Hj & Ha & Hr)%has_unreleased_voices_iff.
    destruct (decide (find_free_voice inst = j)) as [<-|Hne].
    - erewrite lookup_upd_voice_eq in Hj by done. injection Hj as <-.
      unfold isReleased in Hr, Hrel. simpl in Hr, Hrel. congruence.
    - rewrite lookup_upd_voice_ne in Hj by done. apply Hno.
      exists j, v. by repeat split. }
  change (lfoMode (upd_voice _ _ inst)) with (lfoMode inst).
  by rewrite Hauto.
Qed.

(** In key-triggered mode, the note-off that releases the last held voice
    calls [noteOff] on the LFO; while another voice is held the LFO is
    not touched. *)
Lemma note_off_lfo inst n i :
  lfoMode inst = kHeraLFOAuto ->
  first_voice (note_off_match n) (voices inst) i ->
  (~ other_held i inst -> lfo (note_off inst n) = lfo_noteOff (lfo inst))
  /\ (other_held i inst -> lfo (note_off inst n) = lfo inst).
Proof.
  intros Hauto Hi. pose proof Hi as Hfind%find_voice_Some.
  rewrite note_off_unfold, Hfind, lfo_lfo_gate.
  change (lfoMode (upd_voice _ _ inst)) with (lfoMode inst).
  rewrite Hauto. destruct Hi as [[v [Hv Hm]] _]. split.
  - intros Hno.
    match goal with |- context [has_unreleased_voices ?i] =>
      assert (has_unreleased_voices i = false) as ->; [|done]
    end.
    apply not_true_is_false.
    intros (j & w & Hj & Ha & Hr)%has_unreleased_voices_iff.
    destruct (decide (i = j)) as [<-|Hne].
    + erewrite lookup_upd_voice_eq in Hj by done. injection Hj as <-.
      destruct (note_off_lookup inst n i v Hv) as [Hfirst _].
      destruct Hfirst as (_ & Hst & _).
      { by apply find_voice_Some. }
      rewrite isReleased_current in Hr. unfold env_isReleased in Hr.
      by rewrite Hst in Hr.
    + rewrite lookup_upd_voice_ne in Hj by done. apply Hno.
      exists j, w. by repeat split.
  - intros (j & w & Hne & Hj & Hheld).
    match goal with |- context [has_unreleased_voices ?i] =>
      assert (has_unreleased_voices i = true) as ->; [|done]
    end.
    apply has_unreleased_voices_iff. exists j, w. split; [|done].
    by rewrite lookup_upd_voice_ne.
Qed.

(** C7 fails on the code in one case.  After the session
    [stale_session] the LFO is key-triggered and no voice is active, let
    alone held; slot 0 is free but its normal envelope is still in its
    attack stage, because [all_notes_off] shut down the gate envelope that
    governed the voice at that time.  The next note-on takes slot 0, finds
    it "active and unreleased" in its own scan, and does not trigger the
    LFO.  The same happens after [stale_calls], where rendered blocks
    separate the calls and the voice was deactivated by a block. *)
Theorem lfo_trigger_missed :
  let s := @stale_session run_deps in
  let s' := @api_run run_deps stale_calls (@v2_create_instance run_deps []) in
  (lfoMode s = kHeraLFOAuto
   /\ forallb (fun v => negb (active v)) (voices s) = true
   /\ find_free_voice s = 0%nat
   /\ (env_state <$> (normalEnvelope <$> voices s !! 0%nat)) = Some Attack
   /\ lfo (@v2_on_midi run_deps s [0x90; 81; 100]) = lfo s
   /\ lfo_calls (lfo s) = [LfoNoteOn])
  /\ (lfoMode s' = kHeraLFOAuto
      /\ forallb (fun v => negb (active v)) (voices s') = true
      /\ find_free_voice s' = 0%nat
      /\ (env_state <$> (normalEnvelope <$> voices s' !! 0%nat)) = Some Sustain
      /\ lfo (@v2_on_midi run_deps s' [0x90; 81; 100]) = lfo s'
      /\ lfo_calls (lfo s') = [LfoNoteOn]).
Proof. vm_compute. repeat split. Qed.

(** ** Float comparison and the clamp idiom *)

Lemma SFcompare_antisym x y :
  SFcompare y x = CompOpp <$> SFcompare x y.
Proof.
  destruct x as [sx|sx| |sx mx ex], y as [sy|sy| |sy my ey]; simpl;
    try reflexivity; try (by destruct sx); try (by destruct sy);
    try (by destruct sx, sy).
  pose proof (Pos.compare_cont_antisym mx my Eq) as Ha. simpl in Ha.
  destruct sx, sy; simpl; try reflexivity;
    rewrite (Z.compare_antisym ex ey); destruct (ex ?= ey); simpl;
    try reflexivity; rewrite <- Ha; by destruct (Pos.compare_cont Eq mx my).
Qed.

Lemma SFcompare_refl x : F32.is_nan x = false -> SFcompare x x = Some Eq.
Proof.
  destruct x as [s|s| |s m e]; simpl; try done; try (by destruct s).
  intros _. rewrite Z.compare_refl, Pos.compare_cont_refl. by destruct s.
Qed.

Lemma SFcompare_None x y :
  SFcompare x y = None -> F32.is_nan x = true \/ F32.is_nan y = true.
Proof.
  destruct x as [sx|sx| |sx mx ex], y as [sy|sy| |sy my ey]; simpl;
    try discriminate; auto.
Qed.

Lemma SFltb_false_leb x y :
  F32.is_nan x = false -> F32.is_nan y = false ->
  SFltb x y = false -> SFleb y x = true.
Proof.
  intros Hx Hy. unfold SFltb, SFleb. rewrite (SFcompare_antisym x y).
  destruct (SFcompare x y) as [[]|] eqn:Hc; simpl; try done.
  apply SFcompare_None in Hc as [Hc|Hc]; congruence.
Qed.

Lemma SFleb_not_ltb x y : SFleb x y = true -> SFltb y x = false.
Proof.
  unfold SFltb, SFleb. rewrite (SFcompare_antisym x y).
  by destruct (SFcompare x y) as [[]|].
Qed.

Lemma SFleb_refl x : F32.is_nan x = false -> SFleb x x = true.
Proof. intros Hx. unfold SFleb. by rewrite SFcompare_refl. Qed.

(** The clamp idiom puts every value except a NaN into the range; a NaN
    passes both comparisons unchanged. *)
Lemma clamp_float_range lo hi x :
  F32.is_nan lo = false -> F32.is_nan hi = false -> SFleb lo hi = true ->
  F32.is_nan x = false ->
  SFleb lo (clamp_float lo hi x) = true
  /\ SFleb (clamp_float lo hi x) hi = true.
Proof.
  intros Hlo Hhi Hle Hx. unfold clamp_float, F32.ltb.
  destruct (SFltb x lo) eqn:E1.
  - rewrite (SFleb_not_ltb lo hi Hle). split; [by apply SFleb_refl|done].
  - destruct (SFltb hi x) eqn:E2.
    + split; [done|by apply SFleb_refl].
    + split; by apply SFltb_false_leb.
Qed.

Lemma clamp_float_nan lo hi : clamp_float lo hi S754_nan = S754_nan.
Proof. unfold clamp_float, F32.ltb, SFltb. simpl. by destruct hi. Qed.

(** ** The parameter store *)

Lemma params_apply_param `{HeraDeps} inst idx x :
  params (apply_param inst idx x)
  = match param_of_index idx with
    | Some _ => <[Z.to_nat idx := x]> (params inst)
    | None => params inst
    end.
Proof.
  unfold apply_param. destruct (param_of_index idx) as [p|]; [|done].
  destruct p; try reflexivity. simpl. by destruct (_ =? _).
Qed.

Lemma length_params_apply_param `{HeraDeps} inst idx x :
  length (params (apply_param inst idx x)) = length (params inst).
Proof.
  rewrite params_apply_param. destruct (param_of_index idx); [|done].
  apply length_insert.
Qed.

Lemma param_of_shadow_index p :
  param_of_index (Z.of_nat (param_index p)) = Some p
  /\ (param_index p < kHeraNumParameters)%nat.
Proof. destruct p; split; (reflexivity || (vm_compute; lia)). Qed.

Lemma params_apply_shadow `{HeraDeps} inst p x :
  params (apply_param inst (shadow_index p) x)
  = <[param_index (index p) := x]> (params inst).
Proof.
  rewrite params_apply_param. unfold shadow_index.
  destruct (param_of_shadow_index (index p)) as [-> _].
  by rewrite Nat2Z.id.
Qed.

Lemma catalog_ranges p : In p g_shadow_params -> range_ok p = true.
Proof.
  assert (forallb range_ok g_shadow_params = true) as Hall by (by vm_compute).
  rewrite forallb_forall in Hall. apply Hall.
Qed.

Lemma catalog_indices_NoDup :
  NoDup ((fun p => param_index (index p)) <$> g_shadow_params).
Proof. apply (bool_decide_unpack _). by vm_compute. Qed.

(** A key of the catalog selects its own entry, and none of the reserved
    keys: the named-parameter branch of [v2_set_param] is taken. *)
Lemma v2_set_param_named `{HeraDeps} p :
  In p g_shadow_params ->
  forall inst val,
    v2_set_param inst (key p) val
    = apply_param inst (shadow_index p)
        (clamp_float (min_val p) (max_val p) (text_atof val)).
Proof.
  assert (List.Forall
            (fun p => forall inst val,
               v2_set_param inst (key p) val
               = apply_param inst (shadow_index p)
                   (clamp_float (min_val p) (max_val p) (text_atof val)))
            g_shadow_params) as Hall.
  { unfold g_shadow_params.
    repeat (constructor; [intros inst val; reflexivity|]). constructor. }
  intros Hin. exact (proj1 (List.Forall_forall _ _) Hall p Hin).
Qed.

Lemma restore_shadow_param_length `{HeraDeps} val inst q :
  length (params (restore_shadow_param val inst q)) = length (params inst).
Proof.
  unfold restore_shadow_param. destruct (json_get_number _ _); [|done].
  apply length_params_apply_param.
Qed.

Lemma restore_fold_length `{HeraDeps} val ps :
  forall inst,
    length (params (foldl (restore_shadow_param val) inst ps))
    = length (params inst).
Proof.
  induction ps as [|q ps IH]; intros inst; simpl; [done|].
  by rewrite IH, restore_shadow_param_length.
Qed.

Lemma restore_fold_other `{HeraDeps} val ps j :
  (forall q, In q ps -> param_index (index q) <> j) ->
  forall inst,
    params (foldl (restore_shadow_param val) inst ps) !! j = params inst !! j.
Proof.
  induction ps as [|q ps IH]; intros Hne inst; simpl; [done|].
  rewrite IH by (intros q' Hq'; apply Hne; by right).
  unfold restore_shadow_param. destruct (json_get_number _ _); [|done].
  rewrite params_apply_shadow, list_lookup_insert_ne; [done|].
  apply Hne. by left.
Qed.

Lemma restore_fold_lookup `{HeraDeps} val ps :
  NoDup ((fun p => param_index (index p)) <$> ps) ->
  forall inst p fval,
    In p ps ->
    (param_index (index p) < length (params inst))%nat ->
    json_get_number val (key p) = Some fval ->
    params (foldl (restore_shadow_param val) inst ps) !! param_index (index p)
    = Some (clamp_float (min_val p) (max_val p) fval).
Proof.
  induction ps as [|q ps IH]; intros Hnd inst p fval Hin Hlen Hget; [done|].
  rewrite fmap_cons in Hnd. apply NoDup_cons in Hnd as [Hq Hnd]. simpl.
  destruct Hin as [->|Hin].
  - rewrite restore_fold_other.
    + unfold restore_shadow_param. rewrite Hget, params_apply_shadow.
      by apply list_lookup_insert_eq.
    + intros q' Hq' Heq. apply Hq. rewrite <- Heq.
      apply list_elem_of_fmap. exists q'. split; [done|].
      by apply list_elem_of_In.
  - apply IH; try done. by rewrite restore_shadow_param_length.
Qed.

Lemma length_params_apply_values `{HeraDeps} vals i inst :
  length (params (apply_values i vals inst)) = length (params inst).
Proof.
  revert i inst. induction vals as [|x vals IH]; intros i inst; simpl; [done|].
  by rewrite IH, length_params_apply_param.
Qed.

Lemma length_params_apply_preset `{HeraDeps} inst idx :
  length (params (apply_preset inst idx)) = length (params inst).
Proof.
  unfold apply_preset. destruct (_ || _); [done|].
  destruct (presets inst !! _); [|done].
  by rewrite length_params_apply_values.
Qed.

(** Applying parameters does not touch the preset bank, the preset index
    or the octave transpose. *)
Lemma apply_param_meta `{HeraDeps} inst idx x :
  presets (apply_param inst idx x) = presets inst
  /\ current_preset (apply_param inst idx x) = current_preset inst
  /\ octave_transpose (apply_param inst idx x) = octave_transpose inst.
Proof.
  unfold apply_param. destruct (param_of_index idx) as [p|]; [|done].
  destruct p; try done. simpl. by destruct (_ =? _).
Qed.

Lemma apply_values_meta `{HeraDeps} vals i inst :
  presets (apply_values i vals inst) = presets inst
  /\ current_preset (apply_values i vals inst) = current_preset inst
  /\ octave_transpose (apply_values i vals inst) = octave_transpose inst.
Proof.
  revert i inst. induction vals as [|x vals IH]; intros i inst; simpl; [done|].
  destruct (IH (S i) (apply_param inst (Z.of_nat i) x)) as (-> & -> & ->).
  apply apply_param_meta.
Qed.

Lemma apply_preset_meta `{HeraDeps} inst idx :
  presets (apply_preset inst idx) = presets inst
  /\ octave_transpose (apply_preset inst idx) = octave_transpose inst
  /\ (0 <= idx < preset_count inst ->
      current_preset (apply_preset inst idx) = idx).
Proof.
  unfold apply_preset.
  destruct ((idx <? 0) || (preset_count inst <=? idx)) eqn:E.
  - split; [done|]. split; [done|]. intros Hidx.
    apply orb_true_iff in E as [E|E]; lia.
  - destruct (presets inst !! Z.to_nat idx) as [q|] eqn:Hq.
    + match goal with |- context [apply_values ?i ?v ?s] =>
        destruct (apply_values_meta v i s) as (-> & -> & ->)
      end. done.
    + split; [done|]. split; [done|]. intros Hidx.
      apply lookup_ge_None in Hq. unfold preset_count in Hidx. lia.
Qed.

Lemma restore_fold_meta `{HeraDeps} val ps :
  forall inst,
    presets (foldl (restore_shadow_param val) inst ps) = presets inst
    /\ current_preset (foldl (restore_shadow_param val) inst ps)
       = current_preset inst
    /\ octave_transpose (foldl (restore_shadow_param val) inst ps)
       = octave_transpose inst.
Proof.
  induction ps as [|q ps IH]; intros inst; simpl; [done|].
  destruct (IH (restore_shadow_param val inst q)) as (-> & -> & ->).
  unfold restore_shadow_param. destruct (json_get_number _ _); [|done].
  apply apply_param_meta.
Qed.

(** The instance a state restore has built when it reaches the loop over
    the catalog. *)
Lemma v2_set_param_state `{HeraDeps} inst val :
  exists inst1,
    v2_set_param inst "state" val
    = foldl (restore_shadow_param val) inst1 g_shadow_params
    /\ length (params inst1) = length (params inst)
    /\ presets inst1 = presets inst
    /\ current_preset inst1
       = match json_get_number val "preset" with
         | Some fval =>
             if (0 <=? F32.to_int fval) && (F32.to_int fval <? preset_count inst)
             then F32.to_int fval else current_preset inst
         | None => current_preset inst
         end
    /\ octave_transpose inst1
       = match json_get_number val "octave_transpose" with
         | Some fval => clamp_int (-3) 3 (F32.to_int fval)
         | None => octave_transpose inst
         end.
Proof.
  unfold v2_set_param. change (String.eqb "state" "state") with true.
  cbv iota. eexists. split; [reflexivity|].
  assert (forall idx,
            (0 <=? idx) && (idx <? preset_count inst) = true ->
            let i1 := apply_preset (upd_current_preset (fun _ => idx) inst) idx in
            length (params i1) = length (params inst)
            /\ presets i1 = presets inst
            /\ current_preset i1 = idx
            /\ octave_transpose i1 = octave_transpose inst) as Hpre.
  { intros idx Hidx i1. subst i1. rewrite length_params_apply_preset.
    split; [done|].
    destruct (apply_preset_meta (upd_current_preset (fun _ => idx) inst) idx)
      as (Hp & Ho & Hc).
    split; [exact Hp|]. split; [|exact Ho]. apply Hc.
    apply andb_prop in Hidx as [H1 H2].
    change (preset_count (upd_current_preset (fun _ => idx) inst))
      with (preset_count inst). lia. }
  destruct (json_get_number val "preset") as [f1|];
    destruct (json_get_number val "octave_transpose") as [f2|];
    try (destruct ((0 <=? F32.to_int f1) && _) eqn:E;
         [destruct (Hpre _ E) as (Hl & Hp & Hc & Ho)|]);
    cbn [params presets current_preset octave_transpose upd_octave_transpose];
    repeat split; done.
Qed.

(** C4 (as amended): a value written through the named-parameter
    interface, and a catalog value found in the record of a state restore,
    is put through the clamp of its catalog entry before [apply_param]
    stores and distributes it: the stored value is the clamped one, and it
    lies in the entry's [min, max] range unless the value read is a NaN.
    (Preset application is not part of the statement: it hands the
    preset's values to [apply_param] as they are.) *)
Theorem param_writes_clamped `{HeraDeps} inst p :
  In p g_shadow_params ->
  length (params inst) = kHeraNumParameters ->
  (forall val,
     let x := clamp_float (min_val p) (max_val p) (text_atof val) in
     v2_set_param inst (key p) val = apply_param inst (shadow_index p) x
     /\ params (v2_set_param inst (key p) val) !! param_index (index p)
        = Some x
     /\ (F32.is_nan (text_atof val) = false ->
         SFleb (min_val p) x = true /\ SFleb x (max_val p) = true))
  /\ (forall r fval,
        json_get_number (TextRecord r) (key p) = Some fval ->
        let x := clamp_float (min_val p) (max_val p) fval in
        params (v2_set_param inst "state" (TextRecord r))
          !! param_index (index p) = Some x
        /\ (F32.is_nan fval = false ->
            SFleb (min_val p) x = true /\ SFleb x (max_val p) = true)).
Proof.
  intros Hin Hlen.
  assert (forall y, F32.is_nan y = false ->
            SFleb (min_val p) (clamp_float (min_val p) (max_val p) y) = true
            /\ SFleb (clamp_float (min_val p) (max_val p) y) (max_val p) = true)
    as Hrange.
  { intros y Hy. pose proof (catalog_ranges p Hin) as Hok.
    unfold range_ok in Hok.
    apply andb_prop in Hok as [Hok Hle]. apply andb_prop in Hok as [Hlo Hhi].
    apply negb_true_iff in Hlo, Hhi. by apply clamp_float_range. }
  destruct (param_of_shadow_index (index p)) as [_ Hidx].
  split.
  - intros val x. rewrite (v2_set_param_named p Hin). split; [done|].
    split; [|by apply Hrange].
    rewrite params_apply_shadow. apply list_lookup_insert_eq. lia.
  - intros r fval Hget x. split; [|by apply Hrange].
    destruct (v2_set_param_state inst (TextRecord r)) as (i1 & -> & Hl & _).
    apply restore_fold_lookup;
      [apply catalog_indices_NoDup | exact Hin | lia | exact Hget].
Qed.

Lemma param_writes_clamped_witness :
  params (@v2_set_param run_deps new_instance "vcf_env"
            (TextNum (Dec true 25 1))) !! param_index kHeraParamVCFEnvelopeModDepth
  = Some (F32.of_int (-1)).
Proof.
  destruct (@param_writes_clamped run_deps new_instance
              (pd "vcf_env" "VCF Env" PARAM_TYPE_FLOAT
                 kHeraParamVCFEnvelopeModDepth (-1) 1)) as [Hnamed _].
  - vm_compute. tauto.
  - reflexivity.
  - destruct (Hnamed (TextNum (Dec true 25 1))) as (_ & Hst & _).
    exact Hst.
Defined.

(** C4 as stated fails for preset application: selecting a preset whose
    filter cutoff is 5 stores 5 in the parameter store and hands 5 to the
    cutoff smoother, although the catalog range of the cutoff is [0, 1]. *)
Lemma preset_write_unclamped :
  let inst :=
    @v2_set_param run_deps
      (@v2_create_instance run_deps [init_preset; hot_preset])
      "preset" (TextNum (Dec false 1 0)) in
  params inst !! param_index kHeraParamVCFCutoff = Some (F32.of_int 5)
  /\ targetValue (smoothCutoff inst) = F32.of_int 5
  /\ (max_val <$> find_shadow_param "vcf_cutoff") = Some F32.one
  /\ SFleb (F32.of_int 5) F32.one = false.
Proof. vm_compute. repeat split. Qed.

(** ** The state snapshot *)

Lemma int_round_trip_all :
  forallb (fun z => int_round_trip (z - 3)) (zrange 131) = true.
Proof. by vm_compute. Qed.

Lemma int_round_trip_ok z :
  -3 <= z < 128 -> F32.to_int (F32.of_double (atof (print_int z))) = z.
Proof.
  intros Hz. pose proof int_round_trip_all as Hall.
  rewrite forallb_forall in Hall.
  specialize (Hall (z + 3) (elem_of_zrange 131 (z + 3) ltac:(lia))).
  replace (z + 3 - 3) with z in Hall by lia. by apply Z.eqb_eq.
Qed.

Lemma state_record_preset inst :
  json_get_number (TextRecord (state_record inst)) "preset"
  = Some (F32.of_double (atof (print_int (current_preset inst)))).
Proof. reflexivity. Qed.

Lemma state_record_octave inst :
  json_get_number (TextRecord (state_record inst)) "octave_transpose"
  = Some (F32.of_double (atof (print_int (octave_transpose inst)))).
Proof. reflexivity. Qed.

Lemma state_record_param inst p :
  In p g_shadow_params ->
  json_get_number (TextRecord (state_record inst)) (key p)
  = Some (F32.of_double
            (atof (print_float4
                     (default F32.zero
                        (params inst !! param_index (index p)))))).
Proof.
  assert (List.Forall
            (fun p =>
               json_get_number (TextRecord (state_record inst)) (key p)
               = Some (F32.of_double
                         (atof (print_float4
                                  (default F32.zero
                                     (params inst
                                        !! param_index (index p)))))))
            g_shadow_params) as Hall.
  { unfold g_shadow_params. repeat (constructor; [reflexivity|]). constructor. }
  intros Hin. exact (proj1 (List.Forall_forall _ _) Hall p Hin).
Qed.

Lemma state_record_keys inst : (fst <$> state_record inst) = state_keys.
Proof. reflexivity. Qed.

Lemma state_keys_NoDup : NoDup state_keys.
Proof. apply (bool_decide_unpack _). by vm_compute. Qed.

Lemma catalog_entries_one q : catalog_entries q = 1%nat.
Proof. by destruct q. Qed.

(** C9 (as amended): restoring the snapshot an instance serialises - into
    that instance or any other with the same preset bank - gives an
    instance with the same preset index and the same octave transpose,
    and whose every parameter is the serialised one after its rounding to
    four decimals by the snapshot's number format and the clamp of its
    catalog entry.  The snapshot has the keys "preset", "volume",
    "octave_transpose" and the catalog keys, each once, and every
    parameter id has exactly one catalog entry. *)
Theorem state_round_trip `{HeraDeps} inst target buf_len r :
  instance_ok inst -> instance_ok target ->
  presets target = presets inst ->
  v2_get_param_state inst buf_len = Some r ->
  let inst' := v2_set_param target "state" (TextRecord r) in
  current_preset inst' = current_preset inst
  /\ octave_transpose inst' = octave_transpose inst
  /\ (forall p, In p g_shadow_params ->
      exists x,
        params inst !! param_index (index p) = Some x
        /\ params inst' !! param_index (index p)
           = Some (clamp_float (min_val p) (max_val p)
                     (F32.of_double (atof (print_float4 x)))))
  /\ (fst <$> r) = state_keys
  /\ NoDup (fst <$> r)
  /\ (forall q, catalog_entries q = 1%nat).
Proof.
  intros (Hlen & Hbank & Hcp0 & Hcp & Hoct) (Hlen' & _ & Hcp0' & Hcp' & _)
    Hpre Hser inst'.
  unfold v2_get_param_state in Hser.
  destruct (_ <? buf_len); [|discriminate]. injection Hser as <-.
  destruct (v2_set_param_state target (TextRecord (state_record inst)))
    as (i1 & Hi' & Hl1 & _ & Hc1 & Ho1).
  fold inst' in Hi'.
  destruct (restore_fold_meta (TextRecord (state_record inst)) g_shadow_params
              i1) as (_ & Hc2 & Ho2).
  rewrite <- Hi' in Hc2, Ho2.
  assert (preset_count target = preset_count inst) as Hcount.
  { unfold preset_count. by rewrite Hpre. }
  assert (preset_count inst <= 128) as Hbank'.
  { unfold preset_count. unfold MAX_PRESETS in Hbank. lia. }
  split; [|split; [|split; [|split; [|split]]]].
  - rewrite Hc2, Hc1, state_record_preset.
    rewrite int_round_trip_ok by lia. rewrite Hcount.
    destruct ((0 <=? current_preset inst)
              && (current_preset inst <? preset_count inst)) eqn:E; [done|].
    apply andb_false_iff in E as [E|E]; [lia|].
    destruct Hcp as [Hcp|Hcp]; [lia|]. rewrite Hcp.
    destruct Hcp' as [Hcp'|Hcp']; [|done]. lia.
  - rewrite Ho2, Ho1, state_record_octave.
    rewrite int_round_trip_ok by lia.
    unfold clamp_int.
    destruct (octave_transpose inst <? -3) eqn:E1; [lia|].
    destruct (3 <? octave_transpose inst) eqn:E2; [lia|done].
  - intros p Hin. destruct (param_of_shadow_index (index p)) as [_ Hidx].
    destruct (lookup_lt_is_Some_2 (params inst) (param_index (index p)))
      as [x Hx]; [lia|].
    exists x. split; [done|]. rewrite Hi'.
    apply restore_fold_lookup;
      [apply catalog_indices_NoDup | exact Hin | lia |].
    by rewrite (state_record_param inst p Hin), Hx.
  - apply state_record_keys.
  - rewrite state_record_keys. apply state_keys_NoDup.
  - apply catalog_entries_one.
Qed.

(** C9 as stated fails: a filter cutoff of 1/64 is serialised as 0.0156,
    and the restore stores the float nearest to 0.0156. *)
Lemma state_round_trip_counterexample :
  let inst := @fine_instance run_deps in
  exists r,
    v2_get_param_state inst 4096 = Some r
    /\ params inst !! param_index kHeraParamVCFCutoff
       = Some (F32.dec 1 64)
    /\ List.find (fun kv => String.eqb (fst kv) "vcf_cutoff") r
       = Some ("vcf_cutoff", Dec false 156 4)
    /\ params (@v2_set_param run_deps inst "state" (TextRecord r))
         !! param_index kHeraParamVCFCutoff
       = Some (F32.of_double (atof (Dec false 156 4)))
    /\ F32.of_double (atof (Dec false 156 4)) <> F32.dec 1 64.
Proof.
  eexists. split; [by vm_compute|]. split; [by vm_compute|].
  split; [by vm_compute|]. split; [by vm_compute|]. by vm_compute.
Qed.

Lemma state_round_trip_witness :
  current_preset
    (@v2_set_param run_deps new_instance "state"
       (TextRecord (state_record new_instance)))
  = current_preset new_instance.
Proof.
  assert (instance_ok new_instance) as Hok.
  { unfold instance_ok. simpl. unfold kHeraNumParameters, MAX_PRESETS,
      preset_count. simpl. lia. }
  destruct (@state_round_trip run_deps new_instance new_instance 4096
              (state_record new_instance) Hok Hok eq_refl) as (Hcp & _).
  - by vm_compute.
  - exact Hcp.
Defined.

(** ** Every instance the plugin builds is well formed *)

Lemma clamp_int_range lo hi z : lo <= hi -> lo <= clamp_int lo hi z <= hi.
Proof.
  intros Hle. unfold clamp_int.
  destruct (z <? lo) eqn:E1; destruct (hi <? _) eqn:E2; lia.
Qed.

Lemma preset_count_upd_current_preset g inst :
  preset_count (upd_current_preset g inst) = preset_count inst.
Proof. reflexivity. Qed.

Lemma load_presets_meta `{HeraDeps} bank vals init :
  let i0 := upd_presets (fun _ => take MAX_PRESETS bank)
              (apply_values 0 vals init) in
  length (params i0) = length (params init)
  /\ presets i0 = take MAX_PRESETS bank
  /\ current_preset i0 = current_preset init
  /\ octave_transpose i0 = octave_transpose init.
Proof.
  destruct (apply_values_meta vals 0%nat init) as (_ & Hc & Ho).
  cbn [params presets current_preset octave_transpose upd_presets].
  by rewrite length_params_apply_values, Hc, Ho.
Qed.

Lemma instance_ok_first_preset `{HeraDeps} i0 :
  length (params i0) = kHeraNumParameters ->
  (length (presets i0) <= MAX_PRESETS)%nat ->
  current_preset i0 = 0 -> octave_transpose i0 = 0 ->
  instance_ok
    (if 0 <? preset_count i0
     then apply_preset (upd_current_preset (fun _ => 0) i0) 0 else i0).
Proof.
  intros Hl Hp Hc Ho. destruct (0 <? preset_count i0) eqn:E.
  - destruct (apply_preset_meta (upd_current_preset (fun _ => 0) i0) 0)
      as (Hp' & Ho' & Hc').
    rewrite preset_count_upd_current_preset in Hc'.
    unfold instance_ok, preset_count.
    rewrite length_params_apply_preset, Hp', Ho'.
    cbn [params presets octave_transpose upd_current_preset].
    rewrite Hl, Ho, Hc' by lia. unfold preset_count in E.
    repeat split; try lia; left; lia.
  - unfold instance_ok. rewrite Hl, Hc, Ho. repeat split; try lia; auto.
Qed.

Lemma instance_ok_create `{HeraDeps} bank :
  instance_ok (v2_create_instance bank).
Proof.
  unfold v2_create_instance.
  destruct (load_presets_meta bank g_param_defaults new_instance)
    as (Hl & Hp & Hc & Ho).
  apply instance_ok_first_preset.
  - rewrite Hl. reflexivity.
  - rewrite Hp, length_take. lia.
  - rewrite Hc. reflexivity.
  - rewrite Ho. reflexivity.
Qed.

Lemma instance_ok_same_meta a b : same_meta a b -> instance_ok b -> instance_ok a.
Proof.
  intros (Hp & Hb & Hc & Ho). unfold instance_ok, preset_count.
  by rewrite Hp, Hb, Hc, Ho.
Qed.

Lemma same_meta_lfo_gate c inst : same_meta (lfo_gate c inst) inst.
Proof.
  unfold lfo_gate. destruct (_ =? _); [destruct (negb _)|]; by repeat split.
Qed.

Lemma same_meta_trans a b c : same_meta a b -> same_meta b c -> same_meta a c.
Proof.
  intros (H1 & H2 & H3 & H4) (H5 & H6 & H7 & H8).
  repeat split; congruence.
Qed.

Lemma same_meta_upd_voices g inst : same_meta (upd_voices g inst) inst.
Proof. by repeat split. Qed.

Lemma same_meta_note_on `{HeraDeps} inst n vel :
  same_meta (note_on inst n vel) inst.
Proof.
  rewrite note_on_unfold. unfold upd_voice.
  eapply same_meta_trans; [apply same_meta_upd_voices|].
  eapply same_meta_trans; [apply same_meta_lfo_gate|].
  apply same_meta_upd_voices.
Qed.

Lemma same_meta_note_off inst n : same_meta (note_off inst n) inst.
Proof.
  rewrite note_off_unfold. destruct (find_voice _ _); [|by repeat split].
  eapply same_meta_trans; [apply same_meta_lfo_gate|].
  apply same_meta_upd_voices.
Qed.

Lemma same_meta_on_midi `{HeraDeps} inst msg :
  same_meta (v2_on_midi inst msg) inst.
Proof.
  unfold v2_on_midi. destruct (_ <? 2)%nat; [by repeat split|].
  repeat match goal with
         | |- same_meta (if ?b then _ else _) _ => destruct b
         end;
    try apply same_meta_note_on; try apply same_meta_note_off;
    by repeat split.
Qed.

Lemma length_voices_on_midi `{HeraDeps} inst msg :
  length (voices (v2_on_midi inst msg)) = length (voices inst).
Proof.
  unfold v2_on_midi. destruct (_ <? 2)%nat; [done|].
  repeat match goal with
         | |- length (voices (if ?b then _ else _)) = _ => destruct b
         end;
    try apply length_voices_note_on; try apply length_voices_note_off;
    try done; cbn [voices upd_voices all_notes_off]; by rewrite length_fmap.
Qed.

Lemma same_meta_render `{HeraDeps} inst frames stages :
  same_meta (v2_render_block inst frames stages) inst.
Proof. by repeat split. Qed.

Lemma length_voices_restore_fold `{HeraDeps} val ps :
  forall inst,
    length (voices (foldl (restore_shadow_param val) inst ps))
    = length (voices inst).
Proof.
  induction ps as [|q ps IH]; intros inst; simpl; [done|].
  rewrite IH. unfold restore_shadow_param.
  destruct (json_get_number _ _); [|done]. apply length_voices_apply_param.
Qed.

Lemma length_voices_set_param `{HeraDeps} inst k val :
  length (voices (v2_set_param inst k val)) = length (voices inst).
Proof.
  unfold v2_set_param.
  destruct (String.eqb k "state").
  { rewrite length_voices_restore_fold.
    destruct (json_get_number val "preset") as [f1|];
      destruct (json_get_number val "octave_transpose") as [f2|];
      try destruct (_ && _);
      cbn [voices upd_octave_transpose];
      rewrite ?length_voices_apply_preset; done. }
  destruct (String.eqb k "preset").
  { destruct (_ && _); [|done]. rewrite length_voices_apply_preset.
    cbn [voices upd_current_preset upd_voices all_notes_off].
    by rewrite length_fmap. }
  destruct (String.eqb k "volume"); [done|].
  destruct (String.eqb k "octave_transpose"); [done|].
  destruct (String.eqb k "all_notes_off").
  { cbn [voices upd_voices all_notes_off]. by rewrite length_fmap. }
  destruct (find_shadow_param k); [|done]. apply length_voices_apply_param.
Qed.

Lemma instance_ok_set_param `{HeraDeps} inst k val :
  instance_ok inst -> instance_ok (v2_set_param inst k val).
Proof.
  intros Hok. pose proof Hok as (Hl & Hb & Hc0 & Hc & Ho).
  destruct (String.eqb k "state") eqn:Ek.
  { apply String.eqb_eq in Ek as ->.
    destruct (v2_set_param_state inst val) as (i1 & -> & Hl1 & Hp1 & Hc1 & Ho1).
    destruct (restore_fold_meta val g_shadow_params i1) as (Hp2 & Hc2 & Ho2).
    unfold instance_ok, preset_count.
    rewrite restore_fold_length, Hp2, Hc2, Ho2, Hl1, Hp1, Hc1, Ho1.
    split; [done|]. split; [done|].
    assert (0 <= match json_get_number val "preset" with
                 | Some fval =>
                     if (0 <=? F32.to_int fval)
                        && (F32.to_int fval <? preset_count inst)
                     then F32.to_int fval else current_preset inst
                 | None => current_preset inst
                 end
            /\ (match json_get_number val "preset" with
                | Some fval =>
                    if (0 <=? F32.to_int fval)
                       && (F32.to_int fval <? preset_count inst)
                    then F32.to_int fval else current_preset inst
                | None => current_preset inst
                end < preset_count inst
                \/ match json_get_number val "preset" with
                   | Some fval =>
                       if (0 <=? F32.to_int fval)
                          && (F32.to_int fval <? preset_count inst)
                       then F32.to_int fval else current_preset inst
                   | None => current_preset inst
                   end = 0)) as [H1 H2].
    { destruct (json_get_number val "preset") as [f|]; [|done].
      destruct (_ && _) eqn:E; [|done].
      apply andb_prop in E as [E1 E2]. split; [lia|left; lia]. }
    split; [done|]. split; [done|].
    destruct (json_get_number val "octave_transpose"); [|done].
    apply clamp_int_range. lia. }
  unfold v2_set_param. rewrite Ek.
  destruct (String.eqb k "preset").
  { destruct ((0 <=? text_atoi val) && _) eqn:E; [|done].
    apply andb_prop in E as [E1 E2].
    destruct (apply_preset_meta
                (upd_current_preset (fun _ => text_atoi val)
                   (all_notes_off inst)) (text_atoi val)) as (Hp' & Ho' & Hc').
    unfold instance_ok, preset_count.
    rewrite length_params_apply_preset, Hp', Ho', Hc'.
    - cbn [params presets octave_transpose upd_current_preset upd_voices
             all_notes_off].
      unfold preset_count in E2. repeat split; try lia; left; lia.
    - change (preset_count _) with (preset_count inst). lia. }
  destruct (String.eqb k "volume"); [done|].
  destruct (String.eqb k "octave_transpose").
  { unfold instance_ok.
    cbn [params presets current_preset octave_transpose upd_octave_transpose].
    repeat split; try done; apply clamp_int_range; lia. }
  destruct (String.eqb k "all_notes_off"); [done|].
  destruct (find_shadow_param k) as [p|]; [|done].
  destruct (apply_param_meta inst (shadow_index p)
              (clamp_float (min_val p) (max_val p) (text_atof val)))
    as (Hp' & Hc' & Ho').
  unfold instance_ok, preset_count.
  by rewrite length_params_apply_param, Hp', Hc', Ho'.
Qed.

(** Every instance reached through the API is well formed and has its
    pool of [MAX_VOICES] voices. *)
Lemma api_run_ok `{HeraDeps} bank calls :
  instance_ok (api_run calls (v2_create_instance bank))
  /\ length (voices (api_run calls (v2_create_instance bank))) = MAX_VOICES.
Proof.
  assert (forall inst,
            instance_ok inst /\ length (voices inst) = MAX_VOICES ->
            instance_ok (api_run calls inst)
            /\ length (voices (api_run calls inst)) = MAX_VOICES) as Hrun.
  { induction calls as [|c calls IH]; intros inst [Hok Hlen]; [done|].
    change (api_run (c :: calls) inst) with (api_run calls (api_step inst c)).
    apply IH. destruct c as [msg|k val|frames stages]; cbn [api_step].
    - split.
      + eapply instance_ok_same_meta; [apply same_meta_on_midi|done].
      + by rewrite length_voices_on_midi.
    - split; [by apply instance_ok_set_param|].
      by rewrite length_voices_set_param.
    - split.
      + eapply instance_ok_same_meta; [apply same_meta_render|done].
      + by rewrite length_voices_render. }
  apply Hrun. split; [apply instance_ok_create|apply length_voices_create].
Qed.

(** The parameters of a fresh instance are four-decimal numbers within
    their ranges: its snapshot restores them exactly. *)
Lemma fresh_state_round_trip :
  let inst := @v2_create_instance run_deps [] in
  params (@v2_set_param run_deps inst "state" (TextRecord (state_record inst)))
  = params inst.
Proof. by vm_compute. Qed.

(** ** Concrete runs *)

Example snapshot_text :
  numeral_text (print_float4 (F32.dec 5 10)) = "0.5000"
  /\ numeral_text (print_float4 (F32.dec (-15625) 1000000)) = "-0.0156"
  /\ numeral_text (print_int (-3)) = "-3"
  /\ String.length
       (record_text (state_record (@v2_create_instance run_deps []))) = 527%nat.
Proof. by vm_compute. Qed.

Example concert_pitch :
  @midi_to_freq run_deps 69 = F32.of_int 440
  /\ @midi_to_freq run_deps 81 = F32.of_int 880.
Proof. by vm_compute. Qed.

Example seventh_note :
  let s := @run run_deps six_notes (@v2_create_instance run_deps []) in
  (note <$> voices s) = [60; 62; 64; 65; 67; 69]
  /\ (note <$> voices (@note_on run_deps s 71 F32.one))
     = [71; 62; 64; 65; 67; 69]
  /\ active_count (@note_on run_deps s 71 F32.one) = 6%nat.
Proof. by vm_compute. Qed.

Example released_slot_is_taken_first :
  let s := @run run_deps (six_notes ++ [NoteOff 64])
             (@v2_create_instance run_deps []) in
  find_free_voice s = 2%nat
  /\ (note <$> voices (@note_on run_deps s 71 F32.one))
     = [60; 62; 71; 65; 67; 69].
Proof. by vm_compute. Qed.

Example named_write_is_clamped :
  params (@v2_set_param run_deps (@v2_create_instance run_deps [])
            "vcf_cutoff" (TextNum (Dec false 75 1)))
    !! param_index kHeraParamVCFCutoff
  = Some F32.one.
Proof. by vm_compute. Qed.

(** * Further properties of the wrapper *)

(** ** All notes off *)

Lemma all_notes_off_lookup inst i :
  voices (all_notes_off inst) !! i
  = (fun voice =>
       if active voice then
         set_note (-1)
           (set_active false (with_currentEnvelope env_shutdown voice))
       else voice) <$> voices inst !! i.
Proof. unfold all_notes_off. cbn [voices upd_voices]. apply list_lookup_fmap. Qed.

Lemma all_notes_off_inactive inst v :
  v ∈ voices (all_notes_off inst) -> active v = false.
Proof.
  intros [i Hi]%list_elem_of_lookup. rewrite all_notes_off_lookup in Hi.
  destruct (voices inst !! i) as [v0|]; [|done]. injection Hi as <-.
  by destruct (active v0) eqn:E.
Qed.

Lemma filter_active_nil vs :
  (forall v, v ∈ vs -> active v = false) -> List.filter active vs = [].
Proof.
  induction vs as [|v vs IH]; intros Hall; simpl; [done|].
  rewrite (Hall v) by left. apply IH. intros w Hw. apply Hall. by right.
Qed.

(** X1: [all_notes_off] frees the whole pool.  Afterwards no voice is
    active, so none is held and the next note-on takes slot 0; a voice that
    was active has note -1 and its governing envelope shut down (Idle); a
    voice that was free is left as it was; the shared LFO receives no call;
    and a second [all_notes_off] changes nothing. *)
Theorem all_notes_off_frees_pool inst :
  (forall v, v ∈ voices (all_notes_off inst) -> active v = false)
  /\ active_count (all_notes_off inst) = 0%nat
  /\ has_unreleased_voices (all_notes_off inst) = false
  /\ (forall i v0, voices inst !! i = Some v0 ->
        exists v, voices (all_notes_off inst) !! i = Some v
          /\ (active v0 = true ->
                note v = -1 /\ env_state (getCurrentEnvelope v) = Idle)
          /\ (active v0 = false -> v = v0))
  /\ lfo (all_notes_off inst) = lfo inst
  /\ all_notes_off (all_notes_off inst) = all_notes_off inst.
Proof.
  split; [apply all_notes_off_inactive|].
  split.
  { unfold active_count. rewrite filter_active_nil; [done|].
    apply all_notes_off_inactive. }
  split.
  { apply not_true_is_false. intros Hu.
    apply has_unreleased_voices_iff in Hu as (j & v & Hv & Ha & _).
    apply list_elem_of_lookup_2, all_notes_off_inactive in Hv. congruence. }
  split.
  { intros i v0 Hv0. rewrite all_notes_off_lookup, Hv0. simpl.
    eexists. split; [reflexivity|]. split.
    - intros ->. split; [done|].
      unfold getCurrentEnvelope, with_currentEnvelope.
      destruct (voice_vcaType v0 =? _) eqn:E; simpl; by rewrite E.
    - by intros ->. }
  split; [done|].
  unfold all_notes_off at 1 3. unfold upd_voices. simpl. f_equal.
  rewrite <- list_fmap_compose. apply list_fmap_ext. intros i v _. simpl.
  destruct (active v) eqn:E; simpl; [done|]. by rewrite E.
Qed.

(** ** Rendering and the voice pool *)

Lemma render_block_lookup `{HeraDeps} inst frames stages i :
  voices (v2_render_block inst frames stages) !! i
  = (fun voice =>
       if active voice
       then render_voice (stages i) (Nat.min frames MAX_BLOCK_SIZE) voice
       else voice) <$> voices inst !! i.
Proof.
  unfold v2_render_block. cbn [voices upd_voices].
  cbn [voices upd_smoothVCFBendDepth upd_smoothVCFKeyboardModDepth
         upd_smoothVCFLFOModDepth upd_smoothVCFEnvModDepth
         upd_smoothResonance upd_smoothCutoff upd_smoothPitchModDepth].
  apply list_lookup_imap.
Qed.

(** The governing envelope of a voice after [render_voice] has processed
    the envelopes, and what the deactivation check makes of it. *)
Lemma render_voice_cases `{HeraDeps} stages frames v :
  let e := env_processNextBlock (governing_stages stages v)
             (getCurrentEnvelope v) in
  (env_isActive e = true ->
     active (render_voice stages frames v) = active v
     /\ note (render_voice stages frames v) = note v
     /\ getCurrentEnvelope (render_voice stages frames v) = e)
  /\ (env_isActive e = false ->
      active (render_voice stages frames v) = false
      /\ note (render_voice stages frames v) = -1
      /\ env_state (getCurrentEnvelope (render_voice stages frames v)) = Idle
      /\ env_state (gateEnvelope (render_voice stages frames v)) = Idle).
Proof.
  unfold render_voice, governing_stages, getCurrentEnvelope,
    with_currentEnvelope.
  destruct (voice_vcaType v =? kHeraVCATypeEnvelope) eqn:E; simpl; rewrite E;
    simpl; rewrite ?E; split; intros ->; simpl; rewrite ?E; done.
Qed.

Lemma filter_active_imap_le (g : nat -> HeraVoiceState -> HeraVoiceState) vs :
  (forall i v, active (g i v) = true -> active v = true) ->
  (length (List.filter active (imap g vs))
   <= length (List.filter active vs))%nat.
Proof.
  revert g. induction vs as [|v vs IH]; intros g Hg; simpl; [done|].
  specialize (IH (g ∘ S) (fun i w => Hg (S i) w)).
  destruct (active (g 0%nat v)) eqn:E.
  - rewrite (Hg _ _ E). simpl. lia.
  - destruct (active v); simpl; lia.
Qed.

(** X2: what a render pass does to the pool.  A free voice is left as it
    was.  An active voice stays active, with its note, exactly when its
    governing envelope is still active after the block; otherwise the
    voice is freed: its note becomes -1 and its governing and its gate
    envelope are reset to Idle.  A render pass never activates a voice. *)
Theorem render_block_frees_finished `{HeraDeps} inst frames stages i v0 :
  voices inst !! i = Some v0 ->
  (active_count (v2_render_block inst frames stages) <= active_count inst)%nat
  /\ exists v,
       voices (v2_render_block inst frames stages) !! i = Some v
       /\ (active v0 = false -> v = v0)
       /\ (active v0 = true ->
           let e := env_processNextBlock (governing_stages (stages i) v0)
                      (getCurrentEnvelope v0) in
           active v = env_isActive e
           /\ (env_isActive e = true ->
                 note v = note v0 /\ getCurrentEnvelope v = e)
           /\ (env_isActive e = false ->
                 note v = -1
                 /\ env_state (getCurrentEnvelope v) = Idle
                 /\ env_state (gateEnvelope v) = Idle)).
Proof.
  intros Hv0. split.
  { unfold active_count, v2_render_block. cbn [voices upd_voices].
    cbn [voices upd_smoothVCFBendDepth upd_smoothVCFKeyboardModDepth
           upd_smoothVCFLFOModDepth upd_smoothVCFEnvModDepth
           upd_smoothResonance upd_smoothCutoff upd_smoothPitchModDepth].
    apply filter_active_imap_le. intros j v.
    destruct (active v) eqn:E; [done|]. by rewrite E. }
  rewrite render_block_lookup, Hv0. simpl. eexists. split; [reflexivity|].
  split; [by intros ->|]. intros Ha. rewrite Ha.
  destruct (render_voice_cases (stages i) (Nat.min frames MAX_BLOCK_SIZE) v0)
    as [Hon Hoff].
  set (e := env_processNextBlock (governing_stages (stages i) v0)
              (getCurrentEnvelope v0)) in *.
  destruct (env_isActive e) eqn:E.
  - destruct (Hon eq_refl) as (H1 & H2 & H3). rewrite H1, Ha.
    split; [done|]. split; [done|discriminate].
  - destruct (Hoff eq_refl) as (H1 & H2 & H3 & H4). rewrite H1.
    split; [done|]. split; [discriminate|done].
Qed.

Lemma render_block_frees_finished_witness :
  exists v, voices (@v2_render_block run_deps chord_instance 64
                      (fun _ => (1, 1)%nat)) !! 0%nat = Some v
            /\ active v = true /\ note v = 60.
Proof.
  destruct (@render_block_frees_finished run_deps chord_instance 64
              (fun _ => (1, 1)%nat) 0%nat (held_voice 60) eq_refl)
    as (_ & v & Hv & _ & Hact).
  destruct (Hact eq_refl) as (Ha & Hon & _).
  destruct (Hon eq_refl) as (Hn & _).
  exists v. split; [exact Hv|]. split; [exact Ha|exact Hn].
Defined.

(** ** Notes and [active] flags agree in every reachable instance *)

Lemma note_ok_same v v' :
  active v' = active v -> note v' = note v -> note_ok v -> note_ok v'.
Proof. unfold note_ok. by intros -> ->. Qed.

Lemma Forall_note_ok_fmap (g : HeraVoiceState -> HeraVoiceState) vs :
  (forall v, active (g v) = active v /\ note (g v) = note v) ->
  Forall note_ok vs -> Forall note_ok (g <$> vs).
Proof.
  intros Hg Hok. apply Forall_fmap. eapply Forall_impl; [exact Hok|].
  intros v Hv. destruct (Hg v) as [Ha Hn]. by eapply note_ok_same.
Qed.

Lemma apply_param_note_ok `{HeraDeps} inst idx x :
  Forall note_ok (voices inst) ->
  Forall note_ok (voices (apply_param inst idx x)).
Proof.
  intros Hok. unfold apply_param.
  destruct (param_of_index idx) as [p|]; [|exact Hok].
  destruct p; cbn -[note_ok];
    first [ exact Hok
          | apply Forall_note_ok_fmap; [intros v; split; reflexivity|exact Hok]
          | idtac ].
  by destruct (_ =? _).
Qed.

Lemma apply_values_note_ok `{HeraDeps} vals i inst :
  Forall note_ok (voices inst) ->
  Forall note_ok (voices (apply_values i vals inst)).
Proof.
  revert i inst. induction vals as [|x vals IH]; intros i inst Hok; simpl.
  - exact Hok.
  - by apply IH, apply_param_note_ok.
Qed.

Lemma apply_preset_note_ok `{HeraDeps} inst idx :
  Forall note_ok (voices inst) ->
  Forall note_ok (voices (apply_preset inst idx)).
Proof.
  intros Hok. unfold apply_preset. destruct (_ || _); [exact Hok|].
  destruct (presets inst !! _); [|exact Hok].
  by apply apply_values_note_ok.
Qed.

Lemma note_on_note_ok `{HeraDeps} inst n vel :
  0 <= n <= 127 -> Forall note_ok (voices inst) ->
  Forall note_ok (voices (note_on inst n vel)).
Proof.
  intros Hn Hok. rewrite note_on_unfold, voices_upd_voice.
  apply Forall_alter.
  - rewrite voices_lfo_gate, voices_upd_voice. apply Forall_alter; [exact Hok|].
    intros v _ _. unfold note_ok. simpl. lia.
  - intros v _ Hv. revert Hv. apply note_ok_same; simpl.
    + apply active_with_currentEnvelope.
    + apply note_with_currentEnvelope.
Qed.

Lemma note_off_note_ok inst n :
  Forall note_ok (voices inst) -> Forall note_ok (voices (note_off inst n)).
Proof.
  intros Hok. rewrite note_off_unfold.
  destruct (find_voice _ _) as [i|]; [|exact Hok].
  rewrite voices_lfo_gate, voices_upd_voice. apply Forall_alter; [exact Hok|].
  intros v _. apply note_ok_same.
  - apply active_with_currentEnvelope.
  - apply note_with_currentEnvelope.
Qed.

Lemma all_notes_off_note_ok inst :
  Forall note_ok (voices inst) -> Forall note_ok (voices (all_notes_off inst)).
Proof.
  intros Hok. unfold all_notes_off. cbn [voices upd_voices].
  apply Forall_fmap. eapply Forall_impl; [exact Hok|].
  intros v Hv. simpl. destruct (active v) eqn:E; [by unfold note_ok|exact Hv].
Qed.

Lemma render_block_note_ok `{HeraDeps} inst frames stages :
  Forall note_ok (voices inst) ->
  Forall note_ok (voices (v2_render_block inst frames stages)).
Proof.
  intros Hok. apply Forall_lookup. intros i v.
  rewrite render_block_lookup.
  destruct (voices inst !! i) as [v0|] eqn:Hv0; [|done]. simpl.
  intros [= <-]. pose proof (proj1 (Forall_lookup _ _) Hok i v0 Hv0) as H0.
  destruct (active v0) eqn:Ha; [|exact H0].
  destruct (render_voice_cases (stages i) (Nat.min frames MAX_BLOCK_SIZE) v0)
    as [Hon Hoff].
  destruct (env_isActive _) eqn:E.
  - destruct (Hon eq_refl) as (H1 & H2 & _). by eapply note_ok_same.
  - destruct (Hoff eq_refl) as (H1 & H2 & _). unfold note_ok. by rewrite H1.
Qed.

Lemma on_midi_note_ok `{HeraDeps} inst msg :
  Forall note_ok (voices inst) -> Forall note_ok (voices (v2_on_midi inst msg)).
Proof.
  intros Hok. unfold v2_on_midi. destruct (_ <? 2)%nat; [exact Hok|].
  destruct (Z.land _ _ =? 0x90) eqn:E1.
  { cbn [orb]. destruct (0 <? _).
    - apply note_on_note_ok; [|exact Hok]. apply clamp_int_range. lia.
    - by apply note_off_note_ok. }
  destruct (Z.land _ _ =? 0x80) eqn:E2.
  { by apply note_off_note_ok. }
  destruct (Z.land _ _ =? 0xB0).
  { destruct (_ || _); [by apply all_notes_off_note_ok|exact Hok]. }
  destruct (Z.land _ _ =? 0xE0); [|exact Hok].
  cbn [voices upd_voices]. apply Forall_fmap.
  eapply Forall_impl; [exact Hok|]. intros v Hv. simpl.
  by destruct (active v).
Qed.

Lemma restore_fold_note_ok `{HeraDeps} val ps :
  forall inst,
    Forall note_ok (voices inst) ->
    Forall note_ok (voices (foldl (restore_shadow_param val) inst ps)).
Proof.
  induction ps as [|q ps IH]; intros inst Hok; simpl; [exact Hok|].
  apply IH. unfold restore_shadow_param.
  destruct (json_get_number _ _); [|exact Hok]. by apply apply_param_note_ok.
Qed.

Lemma set_param_note_ok `{HeraDeps} inst k val :
  Forall note_ok (voices inst) ->
  Forall note_ok (voices (v2_set_param inst k val)).
Proof.
  intros Hok. unfold v2_set_param.
  destruct (String.eqb k "state").
  { apply restore_fold_note_ok.
    assert (Forall note_ok
              (voices
                 match json_get_number val "preset" with
                 | Some fval =>
                     if (0 <=? F32.to_int fval)
                        && (F32.to_int fval <? preset_count inst)
                     then apply_preset
                            (upd_current_preset (fun _ => F32.to_int fval) inst)
                            (F32.to_int fval)
                     else inst
                 | None => inst
                 end)) as H1.
    { destruct (json_get_number val "preset"); [|exact Hok].
      destruct (_ && _); [|exact Hok]. by apply apply_preset_note_ok. }
    by destruct (json_get_number val "octave_transpose"). }
  destruct (String.eqb k "preset").
  { destruct (_ && _); [|exact Hok].
    apply apply_preset_note_ok. by apply all_notes_off_note_ok. }
  destruct (String.eqb k "volume"); [exact Hok|].
  destruct (String.eqb k "octave_transpose"); [exact Hok|].
  destruct (String.eqb k "all_notes_off"); [by apply all_notes_off_note_ok|].
  destruct (find_shadow_param k); [|exact Hok]. by apply apply_param_note_ok.
Qed.

Lemma create_note_ok `{HeraDeps} bank :
  Forall note_ok (voices (v2_create_instance bank)).
Proof.
  assert (Forall note_ok (voices new_instance)) as H0.
  { apply Forall_replicate. by unfold note_ok. }
  unfold v2_create_instance. destruct (0 <? _).
  - apply apply_preset_note_ok. rewrite voices_upd_current_preset.
    rewrite voices_upd_presets. by apply apply_values_note_ok.
  - rewrite voices_upd_presets. by apply apply_values_note_ok.
Qed.

(** X3: in every instance reached through the API - any sequence of MIDI
    messages, parameter writes and render passes after creation - every
    active voice holds a MIDI note number in 0..127 and every free voice
    has note -1. *)
Theorem api_run_notes_ok `{HeraDeps} bank calls :
  forall v, v ∈ voices (api_run calls (v2_create_instance bank)) ->
    (active v = true -> 0 <= note v <= 127)
    /\ (active v = false -> note v = -1).
Proof.
  assert (forall inst, Forall note_ok (voices inst) ->
            Forall note_ok (voices (api_run calls inst))) as Hrun.
  { induction calls as [|c calls IH]; intros inst Hok; [exact Hok|].
    change (api_run (c :: calls) inst) with (api_run calls (api_step inst c)).
    apply IH. destruct c as [msg|k val|frames stages]; cbn [api_step].
    - by apply on_midi_note_ok.
    - by apply set_param_note_ok.
    - by apply render_block_note_ok. }
  intros v Hv.
  pose proof (proj1 (Forall_forall _ _) (Hrun _ (create_note_ok bank)) v Hv)
    as Hok.
  unfold note_ok in Hok. destruct (active v); split; intros; done.
Qed.

Lemma api_run_notes_ok_witness :
  0 <= note (slot0 (@api_run run_deps one_note (@v2_create_instance run_deps [])))
    <= 127.
Proof.
  refine (proj1 (@api_run_notes_ok run_deps [] one_note
                   (slot0 (@api_run run_deps one_note
                             (@v2_create_instance run_deps []))) _) _).
  - apply (list_elem_of_lookup_2 _ 0%nat). by vm_compute.
  - by vm_compute.
Defined.

(** ** A key pressed and released *)

Lemma note_on_no_slot `{HeraDeps} inst n vel :
  voices inst !! find_free_voice inst = None ->
  voices (note_on inst n vel) = voices inst.
Proof.
  intros Hnone. rewrite note_on_unfold, voices_upd_voice, voices_lfo_gate.
  rewrite voices_upd_voice.
  assert (forall f, alter f (find_free_voice inst) (voices inst) = voices inst)
    as Hid.
  { intros f. apply list_eq. intros j.
    destruct (decide (find_free_voice inst = j)) as [<-|Hne].
    - rewrite list_lookup_alter_eq, Hnone. done.
    - by rewrite list_lookup_alter_ne. }
  by rewrite !Hid.
Qed.

(** X4: a key pressed and released leaves no hung note.  If no voice
    holds note [n] (active, on [n], not released) before a note-on for [n],
    then after that note-on and a note-off for [n] no voice holds [n]
    either: the slot the note-on took is still assigned to [n] with its
    governing envelope in Release, and every other slot is as it was
    before the note-on. *)
Theorem press_release_no_hung_note `{HeraDeps} inst n vel :
  (forall v, v ∈ voices inst -> note_off_match n v = false) ->
  let vi := find_free_voice inst in
  let inst' := note_off (note_on inst n vel) n in
  (forall v, v ∈ voices inst' -> note_off_match n v = false)
  /\ (forall j, j <> vi -> voices inst' !! j = voices inst !! j)
  /\ (forall v0, voices inst !! vi = Some v0 ->
        exists v, voices inst' !! vi = Some v
          /\ active v = true /\ note v = n
          /\ env_state (getCurrentEnvelope v) = Release).
Proof.
  intros Hfree vi inst'.
  destruct (voices inst !! vi) as [v0|] eqn:Hv0.
  2:{ (* no slot to take: both calls change nothing *)
      assert (voices inst' = voices inst) as Heq.
      { subst inst'. rewrite note_off_no_match.
        - by apply note_on_no_slot.
        - intros v Hv. rewrite note_on_no_slot in Hv by done. by apply Hfree. }
      rewrite Heq. split; [exact Hfree|]. split; [done|]. intros v1 [=]. }
  destruct (note_on_voice inst n vel v0 Hv0) as (v1 & Hv1 & Ha1 & Hn1 & _ & Hs1).
  fold vi in Hv1.
  assert (first_voice (note_off_match n) (voices (note_on inst n vel)) vi)
    as Hfirst.
  { split.
    - exists v1. split; [exact Hv1|]. unfold note_off_match.
      rewrite Ha1, Hn1, Z.eqb_refl, isReleased_current. unfold env_isReleased.
      by rewrite Hs1.
    - intros j v Hj Hv. rewrite note_on_other in Hv by (fold vi; lia).
      apply Hfree. by eapply list_elem_of_lookup_2. }
  destruct (note_off_lookup (note_on inst n vel) n vi v1 Hv1) as [Hhit _].
  destruct (Hhit Hfirst) as (Hv2 & Hs2 & _).
  assert (forall j, j <> vi -> voices inst' !! j = voices inst !! j) as Hother.
  { intros j Hne. subst inst'.
    destruct (voices (note_on inst n vel) !! j) as [w|] eqn:Hw.
    - destruct (note_off_lookup (note_on inst n vel) n j w Hw) as [_ Hmiss].
      rewrite Hmiss.
      + rewrite <- Hw. apply note_on_other. fold vi. congruence.
      + intros Hj. apply Hne. by eapply first_voice_unique.
    - rewrite note_on_other in Hw by (fold vi; congruence). rewrite Hw.
      apply lookup_ge_None. apply lookup_ge_None in Hw.
      by rewrite length_voices_note_off, length_voices_note_on. }
  split; [|split; [exact Hother|]].
  - intros v [j Hj]%list_elem_of_lookup.
    destruct (decide (j = vi)) as [->|Hne].
    + subst inst'. rewrite Hv2 in Hj. injection Hj as <-.
      unfold note_off_match. rewrite isReleased_current. unfold env_isReleased.
      rewrite Hs2. by rewrite andb_false_r.
    + rewrite Hother in Hj by done. apply Hfree.
      by eapply list_elem_of_lookup_2.
  - intros w [= <-]. subst inst'. eexists. split; [exact Hv2|].
    rewrite active_with_currentEnvelope, note_with_currentEnvelope.
    by rewrite Ha1, Hn1, Hs2.
Qed.

Lemma press_release_no_hung_note_witness :
  voices (note_off (@note_on run_deps new_instance 60 F32.one) 60) !! 1%nat
  = voices new_instance !! 1%nat.
Proof.
  refine (proj1 (proj2 (@press_release_no_hung_note run_deps new_instance 60
                          F32.one _)) 1%nat _).
  - intros v Hv. apply elem_of_replicate in Hv as [-> _]. reflexivity.
  - intros Heq. vm_compute in Heq. discriminate.
Defined.

(** ** MIDI dispatch: what is ignored, what silences, what assigns *)

(** X5: the messages [v2_on_midi] ignores.  A message shorter than two
    bytes, a message whose status nibble is none of note-on, note-off,
    control change and pitch bend (aftertouch, program change, system
    messages), and a control change other than 120 and 123 (mod wheel and
    sustain pedal included) leave the instance exactly as it was. *)
Theorem on_midi_ignored `{HeraDeps} inst msg :
  (length msg < 2)%nat
  \/ (Z.land (nth 0 msg 0) 0xF0 <> 0x90 /\ Z.land (nth 0 msg 0) 0xF0 <> 0x80
      /\ Z.land (nth 0 msg 0) 0xF0 <> 0xB0 /\ Z.land (nth 0 msg 0) 0xF0 <> 0xE0)
  \/ (Z.land (nth 0 msg 0) 0xF0 = 0xB0
      /\ nth 1 msg 0 <> 120 /\ nth 1 msg 0 <> 123) ->
  v2_on_midi inst msg = inst.
Proof.
  intros Hcase. unfold v2_on_midi.
  destruct (length msg <? 2)%nat eqn:El; [done|].
  apply Nat.ltb_ge in El.
  destruct Hcase as [Hl|[(H9 & H8 & Hb & He)|(Hb & H120 & H123)]]; [lia| |].
  - apply Z.eqb_neq in H9, H8, Hb, He. by rewrite H9, H8, Hb, He.
  - rewrite Hb. apply Z.eqb_neq in H120, H123. by rewrite H120, H123.
Qed.

Lemma on_midi_ignored_witness :
  @v2_on_midi run_deps chord_instance [0xB3; 64; 127] = chord_instance.
Proof.
  apply (@on_midi_ignored run_deps chord_instance [0xB3; 64; 127]).
  right. right. split; [reflexivity|split; simpl; lia].
Defined.

(** X6: all sound off, all notes off.  A control change 120 or 123, on any
    channel and with any value byte (or none), is [all_notes_off]: after it
    no voice is active and no voice is held. *)
Theorem on_midi_all_off `{HeraDeps} inst st d1 tl :
  Z.land st 0xF0 = 0xB0 -> d1 = 120 \/ d1 = 123 ->
  v2_on_midi inst (st :: d1 :: tl) = all_notes_off inst
  /\ (forall v, v ∈ voices (v2_on_midi inst (st :: d1 :: tl)) ->
        active v = false)
  /\ has_unreleased_voices (v2_on_midi inst (st :: d1 :: tl)) = false.
Proof.
  intros Hst Hd.
  assert (v2_on_midi inst (st :: d1 :: tl) = all_notes_off inst) as ->.
  { unfold v2_on_midi. cbn [length nth Nat.ltb Nat.leb]. rewrite Hst.
    cbn [Z.eqb Pos.eqb orb]. by destruct Hd as [-> | ->]. }
  split; [done|]. split; [apply all_notes_off_inactive|].
  apply not_true_is_false. intros Hu.
  apply has_unreleased_voices_iff in Hu as (j & v & Hv & Ha & _).
  apply list_elem_of_lookup_2, all_notes_off_inactive in Hv. congruence.
Qed.

Lemma on_midi_all_off_witness :
  has_unreleased_voices (@v2_on_midi run_deps chord_instance [0xB0; 123])
  = false.
Proof.
  apply (proj2 (proj2 (@on_midi_all_off run_deps chord_instance 0xB0 123 []
                         eq_refl (or_intror eq_refl)))).
Defined.

Lemma velocity_ok_all :
  forallb (fun z => velocity_ok (z + 1)) (zrange 127) = true.
Proof. by vm_compute. Qed.

(** The voice a note-on writes, member by member. *)
Lemma note_on_voice_members `{HeraDeps} inst n vel v :
  voices inst !! find_free_voice inst = Some v ->
  exists v',
    voices (note_on inst n vel) !! find_free_voice inst = Some v'
    /\ active v' = true /\ note v' = n /\ velocity v' = vel
    /\ frequency v' = midi_to_freq n
    /\ dco_frequency (dco v') = midi_to_freq n
    /\ voice_vcaType v' = vcaType inst
    /\ env_state (getCurrentEnvelope v') = Attack
    /\ currentValue (smoothPWMDepth v') = targetValue (smoothPWMDepth v).
Proof.
  intros Hv. rewrite note_on_unfold. eexists. split.
  - apply lookup_upd_voice_eq. rewrite voices_lfo_gate.
    by apply lookup_upd_voice_eq.
  - unfold with_currentEnvelope, getCurrentEnvelope. simpl.
    destruct (vcaType inst =? _) eqn:E; simpl; rewrite ?E; done.
Qed.

(** X7: a note-on message.  For a status byte with nibble 0x9 and a
    velocity byte in 1..127, [v2_on_midi] is [note_on] on the transposed
    note, which lies in 0..127, with velocity [data2 / 127]: a binary32
    number in (0, 1] whose mix gain velocity^2 / 6 lies in (0, 1/6].  The
    slot it takes holds that note and velocity with its governing envelope
    in Attack, and its oscillator is set to the frequency of the note
    itself: the pitch bend in force is not applied to a new note. *)
Theorem on_midi_note_on `{HeraDeps} inst st d1 d2 tl v0 :
  Z.land st 0xF0 = 0x90 -> 1 <= d2 <= 127 ->
  voices inst !! find_free_voice inst = Some v0 ->
  let n := midi_note inst d1 in
  let vel := F32.div (F32.of_int d2) (F32.of_int 127) in
  let inst' := v2_on_midi inst (st :: d1 :: d2 :: tl) in
  inst' = note_on inst n vel
  /\ 0 <= n <= 127
  /\ SFltb F32.zero vel = true /\ SFleb vel F32.one = true
  /\ SFltb F32.zero (noteVolume vel) = true
  /\ SFleb (noteVolume vel) (F32.div F32.one (F32.of_int 6)) = true
  /\ exists v, voices inst' !! find_free_voice inst = Some v
       /\ active v = true /\ note v = n /\ velocity v = vel
       /\ env_state (getCurrentEnvelope v) = Attack
       /\ dco_frequency (dco v) = midi_to_freq n.
Proof.
  intros Hst Hd2 Hv0 n vel inst'.
  assert (inst' = note_on inst n vel) as ->.
  { subst inst' n vel. unfold v2_on_midi, midi_note.
    cbn [length nth Nat.ltb Nat.leb]. rewrite Hst. cbn [Z.eqb Pos.eqb orb].
    by destruct (Z.ltb_spec 0 d2); [|lia]. }
  split; [done|]. split; [apply clamp_int_range; lia|].
  assert (velocity_ok d2 = true) as Hok.
  { pose proof (proj1 (forallb_forall _ _) velocity_ok_all (d2 - 1)) as Hall.
    cbv beta in Hall. replace (d2 - 1 + 1) with d2 in Hall by lia.
    apply Hall, elem_of_zrange. lia. }
  unfold velocity_ok in Hok. fold vel in Hok.
  apply andb_prop in Hok as [Hok H4]. apply andb_prop in Hok as [Hok H3].
  apply andb_prop in Hok as [H1 H2].
  do 4 (split; [done|]).
  destruct (note_on_voice_members inst n vel v0 Hv0)
    as (v & Hv & Ha & Hn & Hvel & _ & Hf & _ & Hs & _).
  exists v. by repeat split.
Qed.

Lemma on_midi_note_on_witness :
  @v2_on_midi run_deps chord_instance [0x91; 72; 100]
  = @note_on run_deps chord_instance 72 (F32.div (F32.of_int 100) (F32.of_int 127)).
Proof.
  apply (proj1 (@on_midi_note_on run_deps chord_instance 0x91 72 100 []
                  new_voice eq_refl ltac:(lia) eq_refl)).
Defined.

(** ** The engine plays the stored parameters *)

Lemma pitch_factor_lookup old x :
  default old
    ([F32.dec 5 10; F32.one; F32.of_int 2]
       !! Z.to_nat (Z.max 0 (Z.min 2 (F32.to_int x))))
  = pitch_range_factor x.
Proof.
  unfold pitch_range_factor.
  assert (Z.max 0 (Z.min 2 (F32.to_int x)) = 0
          \/ Z.max 0 (Z.min 2 (F32.to_int x)) = 1
          \/ Z.max 0 (Z.min 2 (F32.to_int x)) = 2) as [-> | [-> | ->]] by lia;
    reflexivity.
Qed.

Lemma param_index_inj idx p q :
  param_of_index idx = Some p -> Z.to_nat idx = param_index q -> p = q.
Proof.
  unfold param_of_index. destruct (idx <? 0) eqn:E; [done|].
  intros Hp Hq. destruct (param_of_shadow_index q) as [Hq' _].
  unfold param_of_index in Hq'. rewrite <- Hq, Z2Nat.id in Hq' by lia.
  rewrite E in Hq'. congruence.
Qed.

(** [apply_param] puts the value it is given in force. *)
Lemma apply_param_sets `{HeraDeps} inst idx x p :
  param_of_index idx = Some p -> in_force p x (apply_param inst idx x).
Proof.
  intros Hp. unfold apply_param. rewrite Hp. unfold in_force.
  destruct p; cbn -[pitch_range_factor F32.to_int];
    try (split; [reflexivity|]);
    try (split; [exact I|]);
    try (apply Forall_fmap, Forall_true; intros v; reflexivity);
    try (apply Forall_true; done).
  - split; [apply pitch_factor_lookup|by apply Forall_true].
  - destruct (lfoMode inst =? F32.to_int x) eqn:E; cbn.
    + split; [by apply Z.eqb_eq|by apply Forall_true].
    + split; [done|by apply Forall_true].
  - split; [by split|by apply Forall_true].
Qed.

(** [apply_param] leaves the other parameters in force. *)
Lemma apply_param_keeps `{HeraDeps} inst idx x p q y :
  param_of_index idx = Some p -> p <> q ->
  in_force q y inst -> in_force q y (apply_param inst idx x).
Proof.
  intros Hp Hne [He Hv]. unfold apply_param. rewrite Hp. unfold in_force.
  destruct p; cbn -[pitch_range_factor F32.to_int engine_holds voice_holds];
    try destruct (lfoMode inst =? F32.to_int x);
    (destruct q; try congruence;
     (split;
      [exact He
      |first [ exact Hv
             | apply Forall_fmap; eapply Forall_impl; [exact Hv|];
               intros v Hx; exact Hx ]])).
Qed.

Lemma hera_params_lookup p : hera_params !! param_index p = Some p.
Proof. by destruct p. Qed.

Lemma hera_params_NoDup : NoDup hera_params.
Proof. apply (bool_decide_unpack _). by vm_compute. Qed.

Lemma apply_param_in_force_at `{HeraDeps} inst idx x q :
  in_force_at inst q -> in_force_at (apply_param inst idx x) q.
Proof.
  intros Hq y. rewrite params_apply_param.
  destruct (param_of_index idx) as [p|] eqn:Hp.
  - intros [(Heq & <- & _)|[Hne Hy]]%list_lookup_insert_Some.
    + rewrite <- (param_index_inj idx p q Hp Heq). by apply apply_param_sets.
    + eapply apply_param_keeps; [exact Hp| |by apply Hq].
      intros <-. apply Hne.
      unfold param_of_index in Hp. destruct (idx <? 0) eqn:E; [done|].
      apply (NoDup_lookup hera_params _ _ p);
        [apply hera_params_NoDup|exact Hp|apply hera_params_lookup].
  - intros Hy. unfold apply_param. rewrite Hp. by apply Hq.
Qed.

Lemma apply_param_in_force_new `{HeraDeps} inst x q :
  (param_index q < length (params inst))%nat ->
  in_force_at (apply_param inst (Z.of_nat (param_index q)) x) q.
Proof.
  intros Hlen y. destruct (param_of_shadow_index q) as [Hq _].
  rewrite params_apply_param, Hq, Nat2Z.id.
  rewrite list_lookup_insert_eq by done. intros [= <-].
  by apply apply_param_sets.
Qed.

(** A run of [apply_param] over consecutive indices puts every entry it
    writes in force and keeps the others. *)
Lemma apply_values_in_force_at `{HeraDeps} vals q :
  forall i inst,
    in_force_at inst q
    \/ ((i <= param_index q < i + length vals)%nat
        /\ (param_index q < length (params inst))%nat) ->
    in_force_at (apply_values i vals inst) q.
Proof.
  induction vals as [|x vals IH]; intros i inst Hq; simpl.
  - destruct Hq as [Hq|[Hq _]]; [exact Hq|simpl in Hq; lia].
  - apply IH. destruct Hq as [Hq|[Hq Hlen]].
    + left. by apply apply_param_in_force_at.
    + destruct (decide (param_index q = i)) as [<-|Hne].
      * left. by apply apply_param_in_force_new.
      * right. rewrite length_params_apply_param. simpl in Hq. lia.
Qed.

Lemma apply_preset_in_force_at `{HeraDeps} inst idx q :
  in_force_at inst q -> in_force_at (apply_preset inst idx) q.
Proof.
  intros Hq. unfold apply_preset. destruct (_ || _); [exact Hq|].
  destruct (presets inst !! _); [|exact Hq].
  apply apply_values_in_force_at. left. exact Hq.
Qed.

(** Operations that write no parameter: what is in force depends on the
    controls of the instance and of its voices only. *)
Lemma engine_holds_controls `{HeraDeps} a b q y :
  controls a = controls b -> engine_holds q y b -> engine_holds q y a.
Proof.
  unfold controls. intros [= Hp Hvca Hty Hpf H1 H2 H3 H4 H5 H6 H7 Hm Hf Hd Ha
                             Hh Hc].
  destruct q; simpl; congruence.
Qed.

Lemma voice_holds_controls v v' q y :
  voice_controls v' = voice_controls v ->
  voice_holds q y v -> voice_holds q y v'.
Proof.
  unfold voice_controls. intros [= Hty Hpw Hpm H1 H2 H3 H4 H5 H6 H7 H8].
  destruct q; simpl; congruence.
Qed.

Lemma in_force_at_controls `{HeraDeps} a b q :
  controls a = controls b ->
  (forall y, engine_holds q y b -> Forall (voice_holds q y) (voices b) ->
     Forall (voice_holds q y) (voices a)) ->
  in_force_at b q -> in_force_at a q.
Proof.
  intros Hc Hv Hb y Hy.
  assert (params a = params b) as Hp by (unfold controls in Hc; congruence).
  rewrite Hp in Hy. destruct (Hb y Hy) as [He Hvs]. split.
  - by eapply engine_holds_controls.
  - by apply Hv.
Qed.

Lemma controls_lfo_gate c inst : controls (lfo_gate c inst) = controls inst.
Proof.
  unfold lfo_gate. destruct (_ =? _); [destruct (negb _)|]; reflexivity.
Qed.

Lemma note_on_in_force_at `{HeraDeps} inst n vel q :
  in_force_at inst q -> in_force_at (note_on inst n vel) q.
Proof.
  apply in_force_at_controls.
  - rewrite note_on_unfold. unfold upd_voice.
    change (controls (upd_voices ?g ?i)) with (controls i).
    rewrite controls_lfo_gate. reflexivity.
  - intros y He Hv. rewrite note_on_unfold, voices_upd_voice.
    apply Forall_alter.
    + rewrite voices_lfo_gate, voices_upd_voice.
      apply Forall_alter; [exact Hv|]. intros v _ Hx.
      destruct q; simpl in *; done.
    + intros v _. apply voice_holds_controls.
      unfold voice_controls, with_currentEnvelope.
      destruct (voice_vcaType v =? _); reflexivity.
Qed.

Lemma note_off_in_force_at `{HeraDeps} inst n q :
  in_force_at inst q -> in_force_at (note_off inst n) q.
Proof.
  apply in_force_at_controls.
  - rewrite note_off_unfold. destruct (find_voice _ _); [|done].
    by rewrite controls_lfo_gate.
  - intros y He Hv. rewrite note_off_unfold.
    destruct (find_voice _ _); [|exact Hv].
    rewrite voices_lfo_gate, voices_upd_voice. apply Forall_alter; [exact Hv|].
    intros v _. apply voice_holds_controls.
    unfold voice_controls, with_currentEnvelope, env_noteOff.
    destruct (voice_vcaType v =? _); simpl; [|destruct (env_state (gateEnvelope v)); reflexivity].
    destruct (env_state (normalEnvelope v)); reflexivity.
Qed.

Lemma all_notes_off_in_force_at `{HeraDeps} inst q :
  in_force_at inst q -> in_force_at (all_notes_off inst) q.
Proof.
  apply in_force_at_controls; [reflexivity|].
  intros y He Hv. unfold all_notes_off. cbn [voices upd_voices].
  apply Forall_fmap. eapply Forall_impl; [exact Hv|]. intros v. simpl.
  destruct (active v); [|done]. apply voice_holds_controls.
  unfold voice_controls, with_currentEnvelope.
  destruct (voice_vcaType v =? _); reflexivity.
Qed.

Lemma targetValue_smooth_advance `{HeraDeps} n s :
  targetValue (smooth_advance n s) = targetValue s.
Proof.
  unfold smooth_advance. induction n as [|n IH]; simpl; [done|]. exact IH.
Qed.

Lemma voice_controls_render `{HeraDeps} stages frames v :
  voice_controls (render_voice stages frames v) = voice_controls v.
Proof.
  unfold voice_controls, render_voice, getCurrentEnvelope,
    with_currentEnvelope.
  destruct (voice_vcaType v =? kHeraVCATypeEnvelope) eqn:E; simpl; rewrite E;
    simpl; destruct (env_isActive _); simpl; rewrite ?E; simpl;
    by rewrite targetValue_smooth_advance.
Qed.

Lemma render_block_in_force_at `{HeraDeps} inst frames stages q :
  in_force_at inst q -> in_force_at (v2_render_block inst frames stages) q.
Proof.
  apply in_force_at_controls.
  - unfold controls, v2_render_block. simpl.
    by rewrite !targetValue_smooth_advance.
  - intros y He Hv. apply Forall_lookup. intros i v.
    rewrite render_block_lookup.
    destruct (voices inst !! i) as [v0|] eqn:Hv0; [|done]. simpl.
    intros [= <-]. pose proof (proj1 (Forall_lookup _ _) Hv i v0 Hv0) as H0.
    destruct (active v0); [|exact H0].
    revert H0. apply voice_holds_controls, voice_controls_render.
Qed.

Lemma on_midi_in_force_at `{HeraDeps} inst msg q :
  in_force_at inst q -> in_force_at (v2_on_midi inst msg) q.
Proof.
  intros Hq. unfold v2_on_midi. destruct (_ <? 2)%nat; [exact Hq|].
  destruct (Z.land _ _ =? 0x90).
  { cbn [orb]. destruct (0 <? _).
    - by apply note_on_in_force_at.
    - by apply note_off_in_force_at. }
  destruct (Z.land _ _ =? 0x80); [by apply note_off_in_force_at|].
  destruct (Z.land _ _ =? 0xB0).
  { destruct (_ || _); [by apply all_notes_off_in_force_at|exact Hq]. }
  destruct (Z.land _ _ =? 0xE0); [|exact Hq].
  revert Hq. apply in_force_at_controls; [reflexivity|].
  intros y He Hv. cbn [voices upd_voices upd_pitchBendSemitones].
  apply Forall_fmap. eapply Forall_impl; [exact Hv|]. intros v. simpl.
  destruct (active v); [|done]. by apply voice_holds_controls.
Qed.

Lemma restore_fold_in_force_at `{HeraDeps} val q ps :
  forall inst,
    in_force_at inst q ->
    in_force_at (foldl (restore_shadow_param val) inst ps) q.
Proof.
  induction ps as [|p ps IH]; intros inst Hq; simpl; [exact Hq|].
  apply IH. unfold restore_shadow_param.
  destruct (json_get_number _ _); [|exact Hq].
  by apply apply_param_in_force_at.
Qed.

Lemma set_param_in_force_at `{HeraDeps} inst k val q :
  in_force_at inst q -> in_force_at (v2_set_param inst k val) q.
Proof.
  intros Hq. unfold v2_set_param.
  destruct (String.eqb k "state").
  { apply restore_fold_in_force_at.
    assert (in_force_at
              match json_get_number val "preset" with
              | Some fval =>
                  if (0 <=? F32.to_int fval)
                     && (F32.to_int fval <? preset_count inst)
                  then apply_preset
                         (upd_current_preset (fun _ => F32.to_int fval) inst)
                         (F32.to_int fval)
                  else inst
              | None => inst
              end q) as H1.
    { destruct (json_get_number val "preset"); [|exact Hq].
      destruct (_ && _); [|exact Hq]. by apply apply_preset_in_force_at. }
    by destruct (json_get_number val "octave_transpose"). }
  destruct (String.eqb k "preset").
  { destruct (_ && _); [|exact Hq].
    apply apply_preset_in_force_at.
    by apply (all_notes_off_in_force_at inst q) in Hq. }
  destruct (String.eqb k "volume"); [exact Hq|].
  destruct (String.eqb k "octave_transpose"); [exact Hq|].
  destruct (String.eqb k "all_notes_off");
    [by apply all_notes_off_in_force_at|].
  destruct (find_shadow_param k); [|exact Hq].
  by apply apply_param_in_force_at.
Qed.

Lemma in_force_at_upd_presets `{HeraDeps} g inst q :
  in_force_at inst q -> in_force_at (upd_presets g inst) q.
Proof.
  apply in_force_at_controls; [reflexivity|]. intros y _ Hv. exact Hv.
Qed.

Lemma in_force_at_upd_current_preset `{HeraDeps} g inst q :
  in_force_at inst q -> in_force_at (upd_current_preset g inst) q.
Proof.
  apply in_force_at_controls; [reflexivity|]. intros y _ Hv. exact Hv.
Qed.

Lemma create_in_force_at `{HeraDeps} bank q :
  in_force_at (v2_create_instance bank) q.
Proof.
  assert (in_force_at (apply_values 0 g_param_defaults new_instance) q) as H0.
  { apply apply_values_in_force_at. right.
    destruct (param_of_shadow_index q) as [_ Hlt].
    change (length g_param_defaults) with kHeraNumParameters.
    change (length (params new_instance)) with kHeraNumParameters. lia. }
  unfold v2_create_instance. destruct (0 <? _).
  - apply apply_preset_in_force_at, in_force_at_upd_current_preset,
      in_force_at_upd_presets, H0.
  - apply in_force_at_upd_presets, H0.
Qed.

(** X8: the engine plays the stored parameters.  In every instance
    reached through the API, each of the 26 parameters has an entry in the
    store, and that entry is in force: it is the amount of the effect, the
    target of the smoother, the level or the envelope time of every one of
    the voices, the mode ([int] cast) of the instance and of every voice,
    the pitch factor 0.5, 1 or 2 selected by the clamped range switch, or
    the LFO setting read off the slider curve that the parameter stands
    for.  No call of the API lets the store and the engine drift apart. *)
Theorem api_run_store_in_force `{HeraDeps} bank calls p :
  exists x,
    params (api_run calls (v2_create_instance bank)) !! param_index p = Some x
    /\ engine_holds p x (api_run calls (v2_create_instance bank))
    /\ forall v, v ∈ voices (api_run calls (v2_create_instance bank)) ->
         voice_holds p x v.
Proof.
  assert (forall inst, in_force_at inst p -> in_force_at (api_run calls inst) p)
    as Hrun.
  { induction calls as [|c calls IH]; intros inst Hq; [exact Hq|].
    change (api_run (c :: calls) inst) with (api_run calls (api_step inst c)).
    apply IH. destruct c as [msg|k val|frames stages]; cbn [api_step].
    - by apply on_midi_in_force_at.
    - by apply set_param_in_force_at.
    - by apply render_block_in_force_at. }
  destruct (api_run_ok bank calls) as [(Hlen & _) _].
  destruct (param_of_shadow_index p) as [_ Hlt].
  destruct (lookup_lt_is_Some_2
              (params (api_run calls (v2_create_instance bank)))
              (param_index p)) as [x Hx]; [lia|].
  exists x. split; [exact Hx|].
  destruct (Hrun _ (create_in_force_at bank p) x Hx) as [He Hv].
  split; [exact He|]. by apply Forall_forall.
Qed.

(** ** Presets *)

Lemma apply_param_names `{HeraDeps} inst idx x :
  preset_name (apply_param inst idx x) = preset_name inst
  /\ volume (apply_param inst idx x) = volume inst
  /\ output_gain (apply_param inst idx x) = output_gain inst.
Proof.
  unfold apply_param. destruct (param_of_index idx) as [p|]; [|done].
  destruct p; try done. simpl. by destruct (_ =? _).
Qed.

Lemma apply_values_names `{HeraDeps} vals i inst :
  preset_name (apply_values i vals inst) = preset_name inst
  /\ volume (apply_values i vals inst) = volume inst
  /\ output_gain (apply_values i vals inst) = output_gain inst.
Proof.
  revert i inst. induction vals as [|x vals IH]; intros i inst; simpl; [done|].
  destruct (IH (S i) (apply_param inst (Z.of_nat i) x)) as (-> & -> & ->).
  apply apply_param_names.
Qed.

(** The store after a run of [apply_param] over the indices from [i]
    on. *)
Lemma params_apply_values `{HeraDeps} vals :
  forall i inst,
    (i + length vals <= kHeraNumParameters)%nat ->
    length (params inst) = kHeraNumParameters ->
    params (apply_values i vals inst)
    = take i (params inst) ++ vals
      ++ drop (i + length vals) (params inst).
Proof.
  induction vals as [|x vals IH]; intros i inst Hi Hlen; simpl.
  - by rewrite Nat.add_0_r, take_drop.
  - simpl in Hi.
    assert (param_of_index (Z.of_nat i) <> None) as Hp.
    { unfold param_of_index. destruct (Z.of_nat i <? 0) eqn:E; [lia|].
      rewrite Nat2Z.id. intros Hnone%lookup_ge_None.
      change (length hera_params) with kHeraNumParameters in Hnone. lia. }
    rewrite IH by (rewrite ?length_params_apply_param; lia).
    rewrite params_apply_param.
    destruct (param_of_index (Z.of_nat i)); [|done]. rewrite Nat2Z.id.
    rewrite (take_S_r _ _ x) by (apply list_lookup_insert_eq; lia).
    rewrite take_insert_ge by lia. rewrite drop_insert_lt by lia.
    replace (i + S (length vals))%nat with (S i + length vals)%nat by lia.
    by rewrite <- app_assoc.
Qed.

(** X9: selecting a preset loads it whole.  For a preset index of the
    bank, [apply_preset] makes the parameter store equal to the preset's
    26 values - as they are, unclamped -, the current preset index equal
    to the index and the preset name equal to the preset's name; the
    volume is not part of a preset and stays. *)
Theorem apply_preset_loads `{HeraDeps} inst idx p :
  length (params inst) = kHeraNumParameters ->
  0 <= idx -> presets inst !! Z.to_nat idx = Some p ->
  length (values p) = kHeraNumParameters ->
  params (apply_preset inst idx) = values p
  /\ current_preset (apply_preset inst idx) = idx
  /\ preset_name (apply_preset inst idx) = pname p
  /\ volume (apply_preset inst idx) = volume inst.
Proof.
  intros Hlen Hidx Hp Hvals. unfold apply_preset.
  pose proof (lookup_lt_Some _ _ _ Hp) as Hlt.
  assert ((idx <? 0) || (preset_count inst <=? idx) = false) as ->.
  { unfold preset_count. apply orb_false_iff.
    split; [apply Z.ltb_ge|apply Z.leb_gt]; lia. }
  rewrite Hp.
  match goal with |- context [apply_values ?i ?v ?s] =>
    destruct (apply_values_meta v i s) as (_ & Hc & _);
    destruct (apply_values_names v i s) as (Hn & Hv & _);
    pose proof (params_apply_values v i s) as Hps
  end.
  rewrite Hc, Hn, Hv. split; [|done].
  rewrite Hps.
  - rewrite (take_ge (values p)) by lia. simpl.
    rewrite drop_ge; [by rewrite app_nil_r|].
    cbn [params upd_preset_name upd_current_preset]. rewrite Hlen, Hvals. lia.
  - rewrite length_take. lia.
  - exact Hlen.
Qed.

Lemma apply_preset_loads_witness :
  params (@apply_preset run_deps quarter_instance 0)
  = replicate kHeraNumParameters (F32.dec 25 100).
Proof.
  apply (proj1 (@apply_preset_loads run_deps quarter_instance 0 quarter_preset
                  eq_refl ltac:(lia) eq_refl eq_refl)).
Defined.

(** X10: indices out of range are ignored.  [apply_param] with an index
    outside 0..25 and [apply_preset] with an index outside the bank leave
    the instance exactly as it was. *)
Theorem index_out_of_range_ignored `{HeraDeps} inst idx x :
  (idx < 0 \/ Z.of_nat kHeraNumParameters <= idx ->
   apply_param inst idx x = inst)
  /\ (idx < 0 \/ preset_count inst <= idx -> apply_preset inst idx = inst).
Proof.
  split.
  - intros Hidx. unfold apply_param, param_of_index.
    destruct (idx <? 0) eqn:E; [done|].
    assert (hera_params !! Z.to_nat idx = None) as ->; [|done].
    apply lookup_ge_None. change (length hera_params) with kHeraNumParameters.
    lia.
  - intros Hidx. unfold apply_preset.
    assert ((idx <? 0) || (preset_count inst <=? idx) = true) as ->; [|done].
    apply orb_true_iff. rewrite Z.ltb_lt, Z.leb_le. lia.
Qed.

Lemma index_out_of_range_ignored_witness :
  @apply_param run_deps new_instance 26 F32.one = new_instance.
Proof.
  apply (proj1 (@index_out_of_range_ignored run_deps new_instance 26 F32.one)).
  right. vm_compute. discriminate.
Defined.

(** ** Parameter writes that change nothing, and what a write leaves alone *)





Lemma apply_param_assignment `{HeraDeps} inst idx x :
  active <$> voices (apply_param inst idx x) = active <$> voices inst
  /\ note <$> voices (apply_param inst idx x) = note <$> voices inst.
Proof.
  unfold apply_param. destruct (param_of_index idx) as [p|]; [|done].
  destruct p; cbn; rewrite <- ?list_fmap_compose; try done.
  by destruct (_ =? _).
Qed.

Lemma apply_values_assignment `{HeraDeps} vals i inst :
  active <$> voices (apply_values i vals inst) = active <$> voices inst
  /\ note <$> voices (apply_values i vals inst) = note <$> voices inst.
Proof.
  revert i inst. induction vals as [|x vals IH]; intros i inst; simpl; [done|].
  destruct (IH (S i) (apply_param inst (Z.of_nat i) x)) as (-> & ->).
  apply apply_param_assignment.
Qed.

Lemma apply_preset_keeps `{HeraDeps} inst idx :
  volume (apply_preset inst idx) = volume inst
  /\ output_gain (apply_preset inst idx) = output_gain inst
  /\ active <$> voices (apply_preset inst idx) = active <$> voices inst
  /\ note <$> voices (apply_preset inst idx) = note <$> voices inst.
Proof.
  unfold apply_preset. destruct (_ || _); [done|].
  destruct (presets inst !! _) as [p|]; [|done].
  match goal with |- context [apply_values ?i ?v ?s] =>
    destruct (apply_values_names v i s) as (_ & -> & ->);
    destruct (apply_values_assignment v i s) as (-> & ->)
  end. done.
Qed.

Lemma restore_fold_keeps `{HeraDeps} val ps :
  forall inst,
    volume (foldl (restore_shadow_param val) inst ps) = volume inst
    /\ output_gain (foldl (restore_shadow_param val) inst ps)
       = output_gain inst
    /\ active <$> voices (foldl (restore_shadow_param val) inst ps)
       = active <$> voices inst
    /\ note <$> voices (foldl (restore_shadow_param val) inst ps)
       = note <$> voices inst.
Proof.
  induction ps as [|q ps IH]; intros inst; simpl; [done|].
  destruct (IH (restore_shadow_param val inst q)) as (-> & -> & -> & ->).
  unfold restore_shadow_param.
  destruct (json_get_number _ _) as [f|]; [|done].
  destruct (apply_param_names inst (shadow_index q)
              (clamp_float (min_val q) (max_val q) f)) as (_ & -> & ->).
  destruct (apply_param_assignment inst (shadow_index q)
              (clamp_float (min_val q) (max_val q) f)) as (-> & ->).
  done.
Qed.

(** X12: what a state restore leaves alone.  Whatever the text, a
    restore does not change the volume - although the snapshot records
    it - and assigns or frees no voice: the [active] flags and the notes
    of the pool stay as they are (unlike a preset selection, which
    silences the pool first). *)
Theorem state_restore_keeps `{HeraDeps} inst val :
  volume (v2_set_param inst "state" val) = volume inst
  /\ active <$> voices (v2_set_param inst "state" val) = active <$> voices inst
  /\ note <$> voices (v2_set_param inst "state" val) = note <$> voices inst.
Proof.
  unfold v2_set_param. cbn [String.eqb Ascii.eqb Bool.eqb andb].
  match goal with |- context [foldl _ ?s _] =>
    destruct (restore_fold_keeps val g_shadow_params s) as (-> & _ & -> & ->)
  end.
  assert (forall idx,
            let i1 := apply_preset (upd_current_preset (fun _ => idx) inst) idx in
            volume i1 = volume inst
            /\ active <$> voices i1 = active <$> voices inst
            /\ note <$> voices i1 = note <$> voices inst) as Hpre.
  { intros idx.
    destruct (apply_preset_keeps (upd_current_preset (fun _ => idx) inst) idx)
      as (Hv & _ & Ha & Hn). done. }
  destruct (json_get_number val "preset") as [f1|];
    destruct (json_get_number val "octave_transpose") as [f2|];
    try (destruct ((0 <=? F32.to_int f1) && _);
         [destruct (Hpre (F32.to_int f1)) as (Hv & Ha & Hn)|]);
    cbn [volume voices upd_octave_transpose]; done.
Qed.

(** ** Values written are the values read back *)




(** ** The output of a block *)






(** ** The volume *)

Lemma volume_lfo_gate c inst :
  volume (lfo_gate c inst) = volume inst
  /\ output_gain (lfo_gate c inst) = output_gain inst.
Proof.
  unfold lfo_gate. destruct (_ =? _); [destruct (negb _)|]; done.
Qed.

Lemma volume_on_midi `{HeraDeps} inst msg :
  volume (v2_on_midi inst msg) = volume inst
  /\ output_gain (v2_on_midi inst msg) = output_gain inst.
Proof.
  assert (forall n vel,
            volume (note_on inst n vel) = volume inst
            /\ output_gain (note_on inst n vel) = output_gain inst) as Hon.
  { intros n vel. rewrite note_on_unfold. unfold upd_voice.
    change (volume (upd_voices ?g ?i)) with (volume i).
    change (output_gain (upd_voices ?g ?i)) with (output_gain i).
    destruct (volume_lfo_gate LfoNoteOn
                (upd_voices
                   (alter
                      (fun voice =>
                         set_voice_vcaType (vcaType inst)
                           (set_velocity vel
                              (set_frequency (midi_to_freq n)
                                 (set_note n (set_active true voice)))))
                      (find_free_voice inst)) inst)) as (-> & ->). done. }
  assert (forall n,
            volume (note_off inst n) = volume inst
            /\ output_gain (note_off inst n) = output_gain inst) as Hoff.
  { intros n. rewrite note_off_unfold. destruct (find_voice _ _) as [i|]; [|done].
    destruct (volume_lfo_gate LfoNoteOff
                (upd_voice i (with_currentEnvelope env_noteOff) inst))
      as (-> & ->). done. }
  unfold v2_on_midi. destruct (_ <? 2)%nat; [done|].
  repeat match goal with
         | |- context [if ?b then _ else _] => destruct b
         end; try apply Hon; try apply Hoff; done.
Qed.

Lemma volume_ok_clamp x : volume_ok (clamp_float F32.zero F32.one x).
Proof.
  destruct (F32.is_nan x) eqn:E.
  - left. destruct x; try discriminate. by rewrite clamp_float_nan.
  - right. by apply clamp_float_range.
Qed.

Lemma volume_set_param `{HeraDeps} inst k val :
  output_gain (v2_set_param inst k val) = output_gain inst
  /\ (volume (v2_set_param inst k val) = volume inst
      \/ (k = "volume"
          /\ volume (v2_set_param inst k val)
             = clamp_float F32.zero F32.one (text_atof val))).
Proof.
  unfold v2_set_param.
  destruct (String.eqb k "state").
  { match goal with |- context [foldl _ ?s _] =>
      destruct (restore_fold_keeps val g_shadow_params s) as (-> & -> & _)
    end.
    assert (forall idx,
              let i1 := apply_preset (upd_current_preset (fun _ => idx) inst)
                          idx in
              volume i1 = volume inst /\ output_gain i1 = output_gain inst)
      as Hpre.
    { intros idx.
      destruct (apply_preset_keeps (upd_current_preset (fun _ => idx) inst) idx)
        as (Hv & Hg & _). done. }
    destruct (json_get_number val "preset") as [f1|];
      destruct (json_get_number val "octave_transpose") as [f2|];
      try (destruct ((0 <=? F32.to_int f1) && _);
           [destruct (Hpre (F32.to_int f1)) as (Hv & Hg)|]);
      cbn [volume output_gain upd_octave_transpose]; split; auto. }
  destruct (String.eqb k "preset").
  { destruct (_ && _); [|by auto].
    match goal with |- context [apply_preset ?s ?i] =>
      destruct (apply_preset_keeps s i) as (-> & -> & _)
    end. by auto. }
  destruct (String.eqb k "volume") eqn:Ek.
  { apply String.eqb_eq in Ek as ->. split; [done|]. by right. }
  destruct (String.eqb k "octave_transpose"); [by auto|].
  destruct (String.eqb k "all_notes_off"); [by auto|].
  destruct (find_shadow_param k) as [p|]; [|by auto].
  match goal with |- context [apply_param ?s ?i ?x] =>
    destruct (apply_param_names s i x) as (_ & -> & ->)
  end. by auto.
Qed.

Lemma volume_upd_presets g inst :
  volume (upd_presets g inst) = volume inst
  /\ output_gain (upd_presets g inst) = output_gain inst.
Proof. done. Qed.

Lemma volume_upd_current_preset g inst :
  volume (upd_current_preset g inst) = volume inst
  /\ output_gain (upd_current_preset g inst) = output_gain inst.
Proof. done. Qed.

Lemma volume_defaults `{HeraDeps} :
  volume (apply_values 0 g_param_defaults new_instance) = F32.dec 8 10
  /\ output_gain (apply_values 0 g_param_defaults new_instance) = F32.one.
Proof.
  destruct (apply_values_names g_param_defaults 0 new_instance)
    as (_ & -> & ->). done.
Qed.

Lemma volume_create `{HeraDeps} bank :
  volume (v2_create_instance bank) = F32.dec 8 10
  /\ output_gain (v2_create_instance bank) = F32.one.
Proof.
  unfold v2_create_instance. destruct (0 <? _).
  - match goal with |- context [apply_preset ?s ?i] =>
      destruct (apply_preset_keeps s i) as (-> & -> & _)
    end.
    match goal with |- context [upd_current_preset ?g ?s] =>
      destruct (volume_upd_current_preset g s) as (-> & ->)
    end.
    match goal with |- context [upd_presets ?g ?s] =>
      destruct (volume_upd_presets g s) as (-> & ->)
    end.
    apply volume_defaults.
  - match goal with |- context [upd_presets ?g ?s] =>
      destruct (volume_upd_presets g s) as (-> & ->)
    end.
    apply volume_defaults.
Qed.

(** X15: the output gain.  In every instance reached through the API the
    output gain is 1 and the volume is a number in [0, 1] - 0.8 until it is
    first written - or a NaN (which the clamp of the "volume" key lets
    through, and which mutes the output). *)
Theorem api_run_volume `{HeraDeps} bank calls :
  output_gain (api_run calls (v2_create_instance bank)) = F32.one
  /\ volume_ok (volume (api_run calls (v2_create_instance bank)))
  /\ ((forall k val, SetParam k val ∈ calls -> k <> "volume") ->
      volume (api_run calls (v2_create_instance bank)) = F32.dec 8 10).
Proof.
  assert (forall inst,
            output_gain (api_run calls inst) = output_gain inst
            /\ (volume_ok (volume inst) ->
                volume_ok (volume (api_run calls inst)))
            /\ ((forall k val, SetParam k val ∈ calls -> k <> "volume") ->
                volume (api_run calls inst) = volume inst)) as Hrun.
  { induction calls as [|c calls IH]; intros inst; [done|].
    change (api_run (c :: calls) inst) with (api_run calls (api_step inst c)).
    destruct (IH (api_step inst c)) as (-> & Hok & Hsame).
    assert (output_gain (api_step inst c) = output_gain inst
            /\ (volume (api_step inst c) = volume inst
                \/ exists val, c = SetParam "volume" val
                     /\ volume (api_step inst c)
                        = clamp_float F32.zero F32.one (text_atof val)))
      as (Hg & Hv).
    { destruct c as [msg|k val|frames stages]; cbn [api_step].
      - destruct (volume_on_midi inst msg) as (-> & ->). by auto.
      - destruct (volume_set_param inst k val) as (-> & [->|[-> ->]]);
          [by auto|]. split; [done|]. right. by eauto.
      - by auto. }
    split; [exact Hg|]. split.
    - intros H0. apply Hok. destruct Hv as [->|(val & _ & ->)]; [done|].
      apply volume_ok_clamp.
    - intros Hno. rewrite Hsame.
      + destruct Hv as [->|(val & -> & _)]; [done|].
        exfalso. by apply (Hno "volume" val); [left|].
      + intros k val Hin. apply (Hno k val). by right. }
  destruct (Hrun (v2_create_instance bank)) as (-> & Hok & Hsame).
  destruct (volume_create bank) as (Hv & ->).
  split; [done|]. split.
  - apply Hok. rewrite Hv. right. by vm_compute.
  - intros Hno. by rewrite Hsame.
Qed.

(** ** Preset files *)

Lemma length_advance n s :
  String.length (advance n s) = (String.length s - n)%nat.
Proof.
  revert s. induction n as [|n IH]; intros [|c s]; simpl;
    first [done | lia | apply IH].
Qed.

Lemma strstr_eq s pat :
  strstr s pat
  = if starts_with pat s then Some s
    else match s with
         | EmptyString => None
         | String _ s' => strstr s' pat
         end.
Proof. by destruct s. Qed.

Lemma strstr_length s pat pos :
  strstr s pat = Some pos -> (String.length pos <= String.length s)%nat.
Proof.
  induction s as [|c s IH]; rewrite strstr_eq;
    (destruct (starts_with pat _); [by intros [= <-]|]); [done|].
  intros Hs%IH. simpl. lia.
Qed.

Lemma strstr_prefix s pat pos :
  strstr s pat = Some pos -> starts_with pat pos = true.
Proof.
  induction s as [|c s IH]; rewrite strstr_eq.
  - destruct (starts_with pat "") eqn:E; [|done].
    intros Heq. injection Heq as <-. exact E.
  - destruct (starts_with pat (String c s)) eqn:E; [|exact IH].
    intros Heq. injection Heq as <-. exact E.
Qed.

Lemma length_store_param id val vals :
  length (store_param id val vals) = length vals.
Proof.
  unfold store_param. destruct (list_find _ _) as [[i ?]|]; [|done].
  apply length_insert.
Qed.

Lemma length_param_tag atof_c pos vals :
  length (param_tag atof_c pos vals) = length vals.
Proof.
  unfold param_tag. destruct (find_xml_attr pos "id" 64); [|done].
  destruct (find_xml_attr pos "value" 32); [|done]. apply length_store_param.
Qed.

Lemma length_param_loop atof_c fuel :
  forall pos vals, length (param_loop atof_c fuel pos vals) = length vals.
Proof.
  induction fuel as [|fuel IH]; intros pos vals; simpl; [done|].
  destruct (strstr pos "<PARAM "); [|done].
  by rewrite IH, length_param_tag.
Qed.

Lemma length_substring n m s : (String.length (String.substring n m s) <= m)%nat.
Proof.
  revert n m. induction s as [|c s IH]; intros [|n] [|m]; simpl;
    first [lia | apply IH | specialize (IH 0%nat m); lia].
Qed.

(** One round of the tag loop, on the scan over all positions. *)
Lemma param_scan_strstr atof_c pos :
  forall vals,
    param_scan atof_c pos vals
    = match strstr pos "<PARAM " with
      | None => vals
      | Some pos' =>
          param_scan atof_c (advance 1 pos') (param_tag atof_c pos' vals)
      end.
Proof.
  induction pos as [|c rest IH]; intros vals; [done|].
  rewrite strstr_eq. cbn [param_scan].
  destruct (starts_with "<PARAM " (String c rest)); [done|]. apply IH.
Qed.

(** The fuel of the tag loop is enough: the loop visits every tag. *)
Lemma param_loop_enough atof_c fuel :
  forall pos vals,
    (String.length pos < fuel)%nat ->
    param_loop atof_c fuel pos vals = param_scan atof_c pos vals.
Proof.
  induction fuel as [|fuel IH]; intros pos vals Hlen; [lia|].
  rewrite param_scan_strstr. cbn [param_loop].
  destruct (strstr pos "<PARAM ") as [pos'|] eqn:Hs; [|done].
  apply IH. rewrite length_advance.
  pose proof (strstr_length _ _ _ Hs) as Hle.
  apply strstr_prefix in Hs. destruct pos' as [|c pos']; [done|].
  simpl in *. lia.
Qed.

Lemma load_preset_xml_shape atof_c file idx p :
  load_preset_xml atof_c file idx = Some p ->
  length (values p) = kHeraNumParameters
  /\ (String.length (pname p) <= 63)%nat.
Proof.
  unfold load_preset_xml. destruct (_ <=? idx); [done|].
  destruct file as [bytes|]; [|done]. destruct (_ || _); [done|].
  cbv zeta. set (vals := param_loop atof_c _ _ _).
  set (nm := match find_xml_attr _ _ _ with Some _ => _ | None => _ end).
  intros [= <-]. cbn [values pname]. split.
  - subst vals. by rewrite length_param_loop.
  - subst nm. destruct (find_xml_attr _ _ _); apply length_substring.
Qed.

Lemma load_presets_loop_shape atof_c files :
  forall bank,
    (length bank <= length (load_presets_loop atof_c files bank)
     <= length bank + length files)%nat
    /\ (Forall (fun p => length (values p) = kHeraNumParameters
                         /\ (String.length (pname p) <= 63)%nat) bank ->
        Forall (fun p => length (values p) = kHeraNumParameters
                         /\ (String.length (pname p) <= 63)%nat)
          (load_presets_loop atof_c files bank)).
Proof.
  induction files as [|[bytes|] files IH]; intros bank; simpl.
  - split; [lia|done].
  - destruct (load_preset_xml _ _ _) as [p|] eqn:Hp.
    + destruct (IH (bank ++ [p])) as [Hlen Hall].
      rewrite length_app in Hlen. simpl in Hlen. split; [lia|].
      intros Hb. apply Hall, Forall_app. split; [done|].
      apply Forall_singleton. by eapply load_preset_xml_shape.
    + destruct (IH bank) as [Hlen Hall]. split; [lia|done].
  - split; [lia|done].
Qed.

(** X16: the bank read from the preset directory.  Whatever the files
    hold, [load_presets] builds a bank of at most [MAX_PRESETS] presets,
    each with exactly 26 parameter values and a name of at most 63
    characters, so the bank fits the instance as it is; and a directory
    whose first file is missing gives the empty bank. *)
Theorem load_presets_bank atof_c dir :
  (length (load_presets atof_c dir) <= MAX_PRESETS)%nat
  /\ take MAX_PRESETS (load_presets atof_c dir) = load_presets atof_c dir
  /\ (forall p, p ∈ load_presets atof_c dir ->
        length (values p) = kHeraNumParameters
        /\ (String.length (pname p) <= 63)%nat)
  /\ (dir 0%nat = None -> load_presets atof_c dir = []).
Proof.
  unfold load_presets.
  destruct (load_presets_loop_shape atof_c (dir <$> seq 0 MAX_PRESETS) [])
    as [Hlen Hall].
  rewrite length_fmap, length_seq in Hlen. cbn [length Nat.add] in Hlen.
  split; [lia|]. split; [apply take_ge; lia|]. split.
  - intros p Hp. by apply (proj1 (Forall_forall _ _) (Hall (Forall_nil_2 _))).
  - intros H0. change (seq 0 MAX_PRESETS) with (0%nat :: seq 1 127).
    rewrite fmap_cons, H0. reflexivity.
Qed.

(** *** The attribute parser on a well-formed element *)

Lemma has_char_app c s t :
  has_char c (s +:+ t) = has_char c s || has_char c t.
Proof.
  induction s as [|a s IH]; simpl; [done|]. by rewrite IH, orb_assoc.
Qed.

Lemma strchr_skip c v rest :
  has_char c v = false ->
  strchr (v +:+ String c rest) c = Some (String c rest).
Proof.
  induction v as [|a v IH]; simpl.
  - by rewrite Ascii.eqb_refl.
  - intros [Ha Hv]%orb_false_iff. by rewrite Ha, IH.
Qed.

Lemma substring_app_l v rest :
  String.substring 0 (String.length v) (v +:+ rest) = v.
Proof.
  induction v as [|a v IH]; simpl.
  - by destruct rest.
  - by rewrite IH.
Qed.

Lemma length_append s t :
  String.length (s +:+ t) = (String.length s + String.length t)%nat.
Proof. induction s as [|a s IH]; simpl; [done|]. by rewrite IH. Qed.

(** The text of an attribute value that ends at the next quote and fits
    the buffer is copied whole. *)
Lemma copy_value v rest buf_len :
  has_char dquote v = false -> (String.length v < buf_len)%nat ->
  match strchr (v +:+ String dquote rest) dquote with
  | None => None
  | Some end_ =>
      let len := (String.length (v +:+ String dquote rest)
                  - String.length end_)%nat in
      let len := if (buf_len <=? len)%nat then (buf_len - 1)%nat else len in
      Some (String.substring 0 len (v +:+ String dquote rest))
  end = Some v.
Proof.
  intros Hq Hlen. rewrite strchr_skip by done. cbv zeta.
  rewrite length_append.
  replace (String.length v + String.length (String dquote rest)
           - String.length (String dquote rest))%nat
    with (String.length v) by lia.
  destruct (Nat.leb_spec buf_len (String.length v)); [lia|].
  by rewrite substring_app_l.
Qed.

Lemma find_xml_attr_id id rest :
  has_char dquote id = false -> (String.length id <= 63)%nat ->
  find_xml_attr ("<PARAM id=" +:+ String dquote (id +:+ String dquote rest))
    "id" 64
  = Some id.
Proof.
  intros Hq Hlen. unfold find_xml_attr.
  change (String.substring 0 63 ("id" +:+ "=" +:+ String dquote ""))
    with ("id=" +:+ String dquote "").
  change (strstr
            ("<PARAM id=" +:+ String dquote (id +:+ String dquote rest))
            ("id=" +:+ String dquote ""))
    with (Some ("id=" +:+ String dquote (id +:+ String dquote rest))).
  cbn [advance String.length String.append]. apply copy_value; [done|lia].
Qed.

Lemma append_cons c s t : String c s +:+ t = String c (s +:+ t).
Proof. reflexivity. Qed.

Lemma append_nil t : "" +:+ t = t.
Proof. reflexivity. Qed.

Lemma append_assoc s t u : (s +:+ t) +:+ u = s +:+ t +:+ u.
Proof. induction s as [|a s IH]; [done|]. by rewrite !append_cons, IH. Qed.

(** A comparison of two characters: decided if both are known, a case
    split otherwise. *)
Ltac eqb_step :=
  match goal with
  | |- context [Ascii.eqb ?a ?b] =>
      first
        [ is_var b; destruct (Ascii.eqb a b) eqn:?; cbn [andb];
          [|reflexivity]
        | let r := eval vm_compute in (Ascii.eqb a b) in
          change (Ascii.eqb a b) with r; cbn [andb] ]
  end.

(** No occurrence of the search text of the value attribute begins
    inside an id that holds no [=]. *)
Lemma value_no_match x rest :
  has_char eq_sign x = false ->
  starts_with ("value=" +:+ String dquote "")
    (x +:+ String dquote (" value=" +:+ String dquote rest)) = false.
Proof.
  intros Hx.
  destruct x as [|c0 [|c1 [|c2 [|c3 [|c4 [|c5 x]]]]]];
    rewrite ?append_cons, ?append_nil; cbn [starts_with];
    repeat eqb_step; try reflexivity.
  repeat match goal with
         | H : Ascii.eqb _ _ = true |- _ => apply Ascii.eqb_eq in H; subst
         end.
  vm_compute in Hx. discriminate.
Qed.

Lemma strstr_value id rest :
  has_char eq_sign id = false ->
  strstr (id +:+ String dquote (" value=" +:+ String dquote rest))
    ("value=" +:+ String dquote "")
  = Some ("value=" +:+ String dquote rest).
Proof.
  intros Hid. induction id as [|c id IH].
  - reflexivity.
  - rewrite strstr_eq, value_no_match by done. rewrite append_cons.
    apply IH. simpl in Hid. by apply orb_false_iff in Hid as [_ ?].
Qed.

Lemma find_xml_attr_value id v rest :
  has_char eq_sign id = false ->
  has_char dquote v = false -> (String.length v <= 31)%nat ->
  find_xml_attr
    ("<PARAM id="
     +:+ String dquote
           (id +:+ String dquote
                     (" value=" +:+ String dquote (v +:+ String dquote rest))))
    "value" 32
  = Some v.
Proof.
  intros Hid Hq Hlen. unfold find_xml_attr.
  change (String.substring 0 63 ("value" +:+ "=" +:+ String dquote ""))
    with ("value=" +:+ String dquote "").
  change (strstr
            ("<PARAM id="
             +:+ String dquote
                   (id +:+ String dquote
                             (" value="
                              +:+ String dquote (v +:+ String dquote rest))))
            ("value=" +:+ String dquote ""))
    with (strstr
            (id +:+ String dquote
                      (" value=" +:+ String dquote (v +:+ String dquote rest)))
            ("value=" +:+ String dquote "")).
  rewrite strstr_value by done.
  cbn [advance String.length String.append]. apply copy_value; [done|lia].
Qed.

(** The text of an element and what follows it, with the appends
    nested to the right. *)
Lemma entry_text_eq id v sep rest :
  entry_text (id, v, sep) +:+ rest
  = "<PARAM id="
    +:+ String dquote
          (id +:+ String dquote
                    (" value="
                     +:+ String dquote
                           (v +:+ String dquote ("/>" +:+ sep +:+ rest)))).
Proof.
  unfold entry_text, param_element. cbn [fst snd].
  repeat rewrite append_assoc. reflexivity.
Qed.

Lemma param_tag_entry atof_c id v sep rest vals :
  entry_ok (id, v, sep) = true ->
  param_tag atof_c (entry_text (id, v, sep) +:+ rest) vals
  = store_param id (F32.of_double (atof_c v)) vals.
Proof.
  unfold entry_ok. cbn [fst snd]. intros Hok.
  repeat match goal with
         | H : _ && _ = true |- _ => apply andb_prop in H as [H ?]
         end.
  repeat match goal with
         | H : negb _ = true |- _ => apply negb_true_iff in H
         | H : (_ <=? _)%nat = true |- _ => apply Nat.leb_le in H
         end.
  rewrite entry_text_eq. unfold param_tag.
  rewrite find_xml_attr_value by done.
  rewrite find_xml_attr_id by done. reflexivity.
Qed.

(** *** The tag loop on a well-formed document *)

(** Text without [<] holds no tag. *)
Lemma param_scan_skip atof_c x rest vals :
  has_char lt_sign x = false ->
  param_scan atof_c (x +:+ rest) vals = param_scan atof_c rest vals.
Proof.
  induction x as [|c x IH]; [done|]. simpl has_char.
  intros [Hc Hx]%orb_false_iff. rewrite append_cons. cbn [param_scan].
  assert (starts_with "<PARAM " (String c (x +:+ rest)) = false) as ->.
  { cbn [starts_with]. destruct (Ascii.eqb _ c) eqn:E; [|done].
    apply Ascii.eqb_eq in E. subst c. vm_compute in Hc. discriminate. }
  by apply IH.
Qed.

Lemma param_scan_entry atof_c e rest vals :
  entry_ok e = true ->
  param_scan atof_c (entry_text e +:+ rest) vals
  = param_scan atof_c rest
      (store_param e.1.1 (F32.of_double (atof_c e.1.2)) vals).
Proof.
  destruct e as [[id v] sep]. intros Hok. cbn [fst snd].
  pose proof (param_tag_entry atof_c id v sep rest vals Hok) as Htag.
  unfold entry_ok in Hok. cbn [fst snd] in Hok.
  repeat match goal with
         | H : _ && _ = true |- _ => apply andb_prop in H as [H ?]
         end.
  repeat match goal with
         | H : negb _ = true |- _ => apply negb_true_iff in H
         end.
  rewrite entry_text_eq in *.
  change ("<PARAM id=" +:+ ?t) with (String lt_sign ("PARAM id=" +:+ t)) in *.
  cbn [param_scan].
  assert (forall t, starts_with "<PARAM " (String lt_sign ("PARAM id=" +:+ t))
                    = true) as -> by done.
  rewrite Htag.
  transitivity
    (param_scan atof_c
       (("PARAM id="
         +:+ String dquote
               (id +:+ String dquote
                         (" value="
                          +:+ String dquote
                                (v +:+ String dquote ("/>" +:+ sep)))))
        +:+ rest)
       (store_param id (F32.of_double (atof_c v)) vals)).
  - f_equal.
    repeat first [rewrite append_assoc | rewrite append_cons
                 | rewrite append_nil].
    reflexivity.
  - apply param_scan_skip.
    repeat first [rewrite has_char_app | progress cbn [has_char]].
    repeat match goal with
           | H : has_char lt_sign _ = false |- _ => rewrite H; clear H
           end.
    reflexivity.
Qed.

Lemma entries_text_cons e es :
  entries_text (e :: es) = entry_text e +:+ entries_text es.
Proof.
  unfold entries_text. rewrite fmap_cons. simpl.
  destruct (entry_text <$> es) eqn:E; [|done].
  clear. induction (entry_text e) as [|a s IHs]; [done|].
  by rewrite append_cons, <- IHs.
Qed.

Lemma param_scan_entries atof_c es rest :
  Forall (fun e => entry_ok e = true) es ->
  forall vals,
    param_scan atof_c (entries_text es +:+ rest) vals
    = param_scan atof_c rest (store_entries atof_c es vals).
Proof.
  unfold store_entries.
  induction es as [|e es IH]; intros Hok vals; [done|].
  apply Forall_cons in Hok as [He Hes].
  rewrite entries_text_cons, append_assoc, param_scan_entry by done.
  simpl. by apply IH.
Qed.

(** A tag cannot begin in the head and end in the elements: the first
    character of the elements is [<], which is not in the tag after its
    first character. *)
Lemma starts_with_head t body :
  t <> "" -> starts_with "<PARAM " t = false ->
  body = "" \/ (exists b, body = String lt_sign b) ->
  starts_with "<PARAM " (t +:+ body) = false.
Proof.
  intros Ht Hno Hbody.
  destruct t as [|c0 [|c1 [|c2 [|c3 [|c4 [|c5 [|c6 t]]]]]]]; [done|..];
    rewrite ?append_cons, ?append_nil; cbn [starts_with] in *;
    try exact Hno;
    (destruct Hbody as [->|[b ->]]; cbn [starts_with];
     repeat eqb_step; reflexivity).
Qed.

Lemma param_scan_head atof_c head body vals :
  strstr head "<PARAM " = None ->
  body = "" \/ (exists b, body = String lt_sign b) ->
  param_scan atof_c (head +:+ body) vals = param_scan atof_c body vals.
Proof.
  intros Hno Hbody. induction head as [|c head IH]; [done|].
  rewrite strstr_eq in Hno.
  destruct (starts_with "<PARAM " (String c head)) eqn:E; [done|].
  pose proof (starts_with_head (String c head) body ltac:(done) E Hbody) as E'.
  rewrite append_cons in *. cbn [param_scan]. rewrite E'. by apply IH.
Qed.

Lemma c_str_id s : has_char Ascii.zero s = false -> c_str s = s.
Proof.
  induction s as [|c s IH]; [done|]. simpl.
  intros [-> Hs]%orb_false_iff. by rewrite IH.
Qed.

Lemma entries_text_head es :
  entries_text es = "" \/ (exists b, entries_text es = String lt_sign b).
Proof.
  destruct es as [|[[id v] sep] es]; [by left|]. right.
  unfold entries_text. rewrite fmap_cons.
  destruct (entry_text <$> es); simpl; eauto.
Qed.

Lemma store_param_cases id x vals :
  (forall i, g_param_ids !! i = Some id -> store_param id x vals = <[i := x]> vals)
  /\ (id ∉ g_param_ids -> store_param id x vals = vals).
Proof.
  unfold store_param. split.
  - intros i Hi.
    destruct (list_find (fun id0 => id0 = id) g_param_ids) as [[j id']|] eqn:Hf.
    + apply list_find_Some in Hf as (Hj & -> & _).
      assert (NoDup g_param_ids) as Hnd
        by (apply (bool_decide_unpack _); by vm_compute).
      by rewrite (NoDup_lookup _ _ _ _ Hnd Hi Hj).
    + apply list_find_None in Hf. exfalso.
      apply (proj1 (Forall_forall _ _) Hf id); [|done].
      by eapply list_elem_of_lookup_2.
  - intros Hnot.
    destruct (list_find (fun id0 => id0 = id) g_param_ids) as [[j id']|] eqn:Hf;
      [|done].
    apply list_find_Some in Hf as (Hj & -> & _).
    exfalso. apply Hnot. by eapply list_elem_of_lookup_2.
Qed.

(** X17: the preset parser on a well-formed file.  A file that consists
    of a head without a [<PARAM ] tag, a sequence of elements
    [<PARAM id=.. value=../>] - ids and values quoted, free of quotes and
    [<], the ids free of [=], at most 63 and 31 characters long, the text
    after each element free of [<] - and a foot without a tag, is loaded
    successfully, and the preset's 26 values are the defaults overwritten
    by the elements in their order: the value of an element whose id is
    the i-th parameter id goes to index i (a later element wins), an
    element with an unknown id is skipped.  The loop over the tags ends
    within its bound. *)
Theorem load_preset_xml_parses atof_c head es foot idx :
  let data := head +:+ entries_text es +:+ foot in
  idx < Z.of_nat MAX_PRESETS ->
  0 < Z.of_nat (String.length data) <= 65536 ->
  has_char Ascii.zero data = false ->
  strstr head "<PARAM " = None -> strstr foot "<PARAM " = None ->
  foot = "" \/ (exists b, foot = String lt_sign b) ->
  Forall (fun e => entry_ok e = true) es ->
  exists p,
    load_preset_xml atof_c (Some data) idx = Some p
    /\ values p = store_entries atof_c es g_param_defaults
    /\ length (values p) = kHeraNumParameters
    /\ (forall id x vals,
          (forall i, g_param_ids !! i = Some id ->
             store_param id x vals = <[i := x]> vals)
          /\ (id ∉ g_param_ids -> store_param id x vals = vals)).
Proof.
  intros data Hidx Hsize Hnul Hhead Hfoot Hfoot0 Hes.
  unfold load_preset_xml.
  destruct (Z.leb_spec (Z.of_nat MAX_PRESETS) idx) as [?|_]; [lia|].
  assert ((Z.of_nat (String.length data) <=? 0)
          || (65536 <? Z.of_nat (String.length data)) = false) as ->.
  { apply orb_false_iff. rewrite Z.leb_gt, Z.ltb_ge. lia. }
  rewrite (c_str_id data Hnul). eexists. split; [reflexivity|].
  cbn [values]. split; [|split; [by rewrite length_param_loop|]].
  - rewrite param_loop_enough by lia. subst data.
    rewrite param_scan_head; [|done|].
    + rewrite param_scan_entries by done.
      by rewrite param_scan_strstr, Hfoot.
    + destruct (entries_text_head es) as [->|[b ->]]; [exact Hfoot0|].
      right. rewrite append_cons. by eauto.
  - intros id x vals. apply store_param_cases.
Qed.

Lemma load_preset_xml_parses_witness :
  exists p,
    load_preset_xml run_atof (Some sample_document) 0 = Some p
    /\ values p
       = <[param_index kHeraParamAttack := F32.dec 5 10]>
           (<[param_index kHeraParamVCFCutoff := F32.dec 75 100]>
              g_param_defaults).
Proof.
  destruct (load_preset_xml_parses run_atof sample_head sample_entries
              "</PROGRAM>" 0) as (p & Hp & Hv & _).
  - reflexivity.
  - split; by vm_compute.
  - by vm_compute.
  - by vm_compute.
  - by vm_compute.
  - right. by eexists.
  - repeat constructor.
  - exists p. split; [exact Hp|]. rewrite Hv. by vm_compute.
Defined.

Lemma strchr_length s c e :
  strchr s c = Some e -> (String.length e <= String.length s)%nat.
Proof.
  induction s as [|a s IH]; simpl; [done|].
  destruct (Ascii.eqb a c); [by intros [= <-]|]. intros He%IH. lia.
Qed.

Lemma strchr_before s c e :
  strchr s c = Some e ->
  forall n, (n <= String.length s - String.length e)%nat ->
    has_char c (String.substring 0 n s) = false.
Proof.
  induction s as [|a s IH]; simpl; [done|].
  destruct (Ascii.eqb a c) eqn:E.
  - intros [= <-] n Hn. simpl in Hn.
    replace n with 0%nat by lia. reflexivity.
  - intros He n Hn. pose proof (strchr_length _ _ _ He) as Hle.
    destruct n as [|n]; [done|]. simpl. rewrite E. apply IH; [done|]. lia.
Qed.

Lemma strchr_has_char s c e : strchr s c = Some e -> has_char c s = true.
Proof.
  induction s as [|a s IH]; simpl; [done|].
  destruct (Ascii.eqb a c); [done|]. exact IH.
Qed.

(** X18: the attribute parser stays within its buffer.  Whatever the
    text and the attribute name, a value [find_xml_attr] delivers is
    shorter than the buffer it is given (so the terminator fits) and holds
    no quote: a longer value is cut to [buf_len - 1] characters; and
    without the attribute, or without a closing quote after it, the parser
    reports failure. *)
Theorem find_xml_attr_fits xml attr_name buf_len buf :
  (0 < buf_len)%nat ->
  find_xml_attr xml attr_name buf_len = Some buf ->
  (String.length buf < buf_len)%nat
  /\ has_char dquote buf = false
  /\ exists pos,
       strstr xml
         (String.substring 0 63 (attr_name +:+ "=" +:+ String dquote ""))
       = Some pos
       /\ has_char dquote
            (advance
               (String.length
                  (String.substring 0 63
                     (attr_name +:+ "=" +:+ String dquote ""))) pos) = true.
Proof.
  intros Hbuf. unfold find_xml_attr.
  destruct (strstr xml _) as [pos|]; [|done].
  set (val := advance _ pos).
  destruct (strchr val dquote) as [e|] eqn:He; [|done].
  intros [= <-]. split; [|split].
  - match goal with |- context [String.substring 0 ?n val] =>
      pose proof (length_substring 0 n val);
      assert (n <= buf_len - 1)%nat
    end.
    { destruct (Nat.leb_spec buf_len (String.length val - String.length e));
        lia. }
    lia.
  - eapply strchr_before; [exact He|].
    destruct (Nat.leb_spec buf_len (String.length val - String.length e)); lia.
  - exists pos. split; [done|]. by eapply strchr_has_char.
Qed.

Lemma find_xml_attr_fits_witness :
  (String.length "Brass" < 64)%nat.
Proof.
  apply (proj1 (find_xml_attr_fits sample_document "name" 64 "Brass"
                  ltac:(lia) eq_refl)).
Defined.

Lemma fallback_name_all :
  forallb fallback_name_ok (zrange MAX_PRESETS) = true.
Proof. by vm_compute. Qed.

(** X19: edge cases of the preset loader.  [load_preset_xml] refuses a
    slot index of 128 or more, a file that cannot be opened, an empty
    file and a file of more than 65536 bytes, and nothing else.  A file
    without a [<PARAM ] tag gives the 26 default values; a file without a
    name attribute gives the name "Preset i" for slot [i]. *)
Theorem load_preset_xml_edges atof_c file idx :
  (load_preset_xml atof_c file idx = None
   <-> Z.of_nat MAX_PRESETS <= idx \/ file = None
       \/ exists bytes, file = Some bytes
            /\ (bytes = "" \/ 65536 < Z.of_nat (String.length bytes)))
  /\ (forall bytes p,
        file = Some bytes -> load_preset_xml atof_c file idx = Some p ->
        (strstr (c_str bytes) "<PARAM " = None -> values p = g_param_defaults)
        /\ (0 <= idx -> find_xml_attr (c_str bytes) "name" 64 = None ->
            pname p = "Preset " +:+ numeral_text (print_int idx))).
Proof.
  unfold load_preset_xml. split.
  - destruct (Z.leb_spec (Z.of_nat MAX_PRESETS) idx) as [Hge|Hlt].
    { split; [by auto|done]. }
    destruct file as [bytes|]; [|split; [by auto|done]].
    destruct (Z.leb_spec (Z.of_nat (String.length bytes)) 0) as [H0|H0];
      destruct (Z.ltb_spec 65536 (Z.of_nat (String.length bytes))) as [H1|H1];
      cbn [orb].
    + split; [|done]. intros _. right. right. exists bytes. by auto.
    + split; [|done]. intros _. right. right. exists bytes. split; [done|].
      left. destruct bytes; [done|simpl in H0; lia].
    + split; [|done]. intros _. right. right. exists bytes. by auto.
    + split; [done|].
      intros [?|[?|(b & [= <-] & [->|?])]]; first [done | lia].
  - intros bytes p -> .
    destruct (Z.leb_spec (Z.of_nat MAX_PRESETS) idx) as [Hge|Hlt]; [done|].
    destruct (_ || _); [done|]. cbv zeta.
    set (vals := param_loop atof_c _ _ _).
    set (nm := match find_xml_attr _ _ _ with Some _ => _ | None => _ end).
    intros [= <-]. cbn [values pname]. split.
    + intros Hno. subst vals. cbn [param_loop]. by rewrite Hno.
    + intros Hidx Hname. subst nm. rewrite Hname.
      assert (fallback_name_ok idx = true) as Hok.
      { apply (proj1 (forallb_forall _ _) fallback_name_all).
        apply elem_of_zrange. lia. }
      by apply String.eqb_eq in Hok.
Qed.

(** ** The text search of [json_get_number] *)

Lemma has_char_pretty_go c x :
  digit_char c = false ->
  forall s, has_char c (pretty_N_go x s) = has_char c s.
Proof.
  intros Hc. induction (N.lt_wf_0 x) as [x _ IH]. intros s.
  destruct (decide (0 < x)%N) as [Hx|Hx].
  - rewrite pretty_N_go_step by done. rewrite IH by (by apply N.div_lt).
    cbn [has_char]. destruct (Ascii.eqb _ c) eqn:E; [|done].
    apply Ascii.eqb_eq in E. subst c. exfalso. revert Hc.
    unfold pretty_N_char. by repeat case_match.
  - assert (x = 0%N) as -> by lia. by rewrite pretty_N_go_0.
Qed.

Lemma has_char_pretty c (n : N) :
  digit_char c = false -> has_char c (pretty n) = false.
Proof.
  intros Hc. unfold pretty, pretty_N. destruct (decide (n = 0%N)).
  - cbn [has_char]. destruct (Ascii.eqb _ c) eqn:E; [|done].
    apply Ascii.eqb_eq in E. by subst c.
  - by rewrite has_char_pretty_go.
Qed.

Lemma pretty_go_nonempty x :
  forall s, s <> "" -> pretty_N_go x s <> "".
Proof.
  induction (N.lt_wf_0 x) as [x _ IH]. intros s Hs.
  destruct (decide (0 < x)%N) as [Hx|Hx].
  - rewrite pretty_N_go_step by done. apply IH; [by apply N.div_lt|done].
  - assert (x = 0%N) as -> by lia. by rewrite pretty_N_go_0.
Qed.

Lemma pretty_nonempty (n : N) : pretty n <> "".
Proof.
  unfold pretty, pretty_N. destruct (decide (n = 0%N)); [done|].
  rewrite pretty_N_go_step by lia. by apply pretty_go_nonempty.
Qed.

Lemma has_char_substring c s :
  has_char c s = false ->
  forall a b, has_char c (String.substring a b s) = false.
Proof.
  induction s as [|x s IH]; intros Hs a b.
  - by destruct a, b.
  - simpl in Hs. apply orb_false_iff in Hs as [Hx Hs].
    destruct a as [|a], b as [|b]; simpl; rewrite ?Hx; try done; by apply IH.
Qed.

(** The text of a numeral holds no quote and no space, and is not
    empty. *)
Lemma numeral_text_clean c x :
  digit_char c = false -> has_char c "-.infa" = false ->
  has_char c (numeral_text x) = false.
Proof.
  intros Hd Hc. simpl in Hc.
  repeat match goal with
         | H : _ || _ = false |- _ => apply orb_false_iff in H as [? H]
         end.
  destruct x as [neg n k|neg|]; simpl.
  - rewrite !has_char_app, has_char_pretty by done.
    assert (has_char c (if neg then "-" else "") = false) as ->.
    { destruct neg; simpl; [|done]. by rewrite orb_false_r. }
    destruct k as [|k]; [done|]. rewrite has_char_app. simpl.
    rewrite has_char_substring by (by apply has_char_pretty).
    by rewrite !orb_false_r.
  - destruct neg; simpl; repeat (apply orb_false_iff; split); done.
  - repeat (apply orb_false_iff; split); done.
Qed.

Lemma numeral_text_nonempty x : numeral_text x <> "".
Proof.
  destruct x as [[] n k|[]|]; simpl; try done.
  pose proof (pretty_nonempty (n / 10 ^ N.of_nat k)) as Hp.
  destruct (pretty (n / 10 ^ N.of_nat k)%N); done.
Qed.

Lemma skip_spaces_numeral x tail :
  skip_spaces (numeral_text x +:+ tail) = numeral_text x +:+ tail.
Proof.
  pose proof (numeral_text_nonempty x) as Hne.
  pose proof (numeral_text_clean space x eq_refl eq_refl) as Hsp.
  destruct (numeral_text x) as [|c s]; [done|].
  simpl in Hsp. apply orb_false_iff in Hsp as [Hc _].
  rewrite append_cons. simpl. by rewrite Hc.
Qed.

(** A search text that begins with a quote is not found in text without
    quotes. *)
Lemma strstr_skip x t p :
  has_char dquote x = false ->
  strstr (x +:+ t) (String dquote p) = strstr t (String dquote p).
Proof.
  induction x as [|c x IH]; [done|]. simpl has_char.
  intros [Hc Hx]%orb_false_iff. rewrite append_cons, strstr_eq.
  cbn [starts_with]. rewrite Ascii.eqb_sym, Hc. cbn [andb]. by apply IH.
Qed.

(** The search text matches at the opening quote of a field exactly when
    the field has the key. *)
Lemma starts_with_key k key rest :
  has_char dquote k = false -> has_char dquote key = false ->
  starts_with (k +:+ String dquote ":") (key +:+ String dquote (":" +:+ rest))
  = String.eqb key k.
Proof.
  revert key. induction k as [|a k IH]; intros [|c key] Hk Hkey;
    rewrite ?append_cons, ?append_nil; simpl in Hk, Hkey;
    try apply orb_false_iff in Hk as [Ha Hk];
    try apply orb_false_iff in Hkey as [Hc Hkey].
  - reflexivity.
  - cbn [starts_with String.eqb]. by rewrite Ascii.eqb_sym, Hc.
  - cbn [starts_with String.eqb]. by rewrite Ha.
  - cbn [starts_with String.eqb]. rewrite (Ascii.eqb_sym a c).
    destruct (Ascii.eqb c a); [|done]. cbn [andb]. by apply IH.
Qed.

Lemma fields_tail_head r :
  exists t, fields_tail r = "," +:+ t \/ fields_tail r = "}" +:+ t.
Proof. destruct r as [|kv r]; simpl; eauto. Qed.

Lemma record_text_tail kv r :
  record_text (kv :: r) = "{" +:+ field_text kv +:+ fields_tail r.
Proof.
  unfold record_text. f_equal. revert kv.
  induction r as [|kv' r IH]; intros kv; [done|].
  change (String.concat "," (field_text <$> kv :: kv' :: r))
    with (field_text kv +:+ "," +:+
          String.concat "," (field_text <$> kv' :: r)).
  rewrite !append_assoc. by rewrite IH.
Qed.

(** The search at one field of a record: found there if the field has
    the key, carried on behind the field if not. *)
Lemma strstr_field k key x r :
  has_char dquote k = false -> starts_with ":" k = false ->
  has_char dquote key = false ->
  strstr (fields_tail ((key, x) :: r)) (String dquote (k +:+ String dquote ":"))
  = if String.eqb key k
    then Some (String dquote
                 (k +:+ String dquote
                          (":" +:+ numeral_text x +:+ fields_tail r)))
    else strstr (fields_tail r) (String dquote (k +:+ String dquote ":")).
Proof.
  intros Hq Hc Hkey. cbn [fields_tail].
  assert ("," +:+ field_text (key, x) +:+ fields_tail r
          = String (Ascii.ascii_of_nat 44)
              (String dquote
                 (key +:+ String dquote
                            (":" +:+ numeral_text x +:+ fields_tail r))))
    as ->.
  { unfold field_text. cbn [fst snd]. repeat rewrite append_assoc. reflexivity. }
  rewrite strstr_eq.
  assert (starts_with (String dquote (k +:+ String dquote ":"))
            (String (Ascii.ascii_of_nat 44)
               (String dquote
                  (key +:+ String dquote
                             (":" +:+ numeral_text x +:+ fields_tail r))))
          = false) as -> by done.
  rewrite strstr_eq. cbn [starts_with]. rewrite Ascii.eqb_refl. cbn [andb].
  rewrite starts_with_key by done.
  destruct (String.eqb key k) eqn:E.
  - by apply String.eqb_eq in E as ->.
  - (* not this field: on through its key, its colon and its number *)
    rewrite strstr_skip by done. rewrite strstr_eq.
    assert (starts_with (String dquote (k +:+ String dquote ":"))
              (String dquote (":" +:+ numeral_text x +:+ fields_tail r))
            = false) as ->.
    { cbn [starts_with]. rewrite Ascii.eqb_refl. cbn [andb].
      destruct k as [|a k]; [done|]. rewrite !append_cons.
      cbn [starts_with] in *. destruct (Ascii.eqb _ a) eqn:Ea.
      - by rewrite Ascii.eqb_sym, Ea.
      - by rewrite Ascii.eqb_sym, Ea. }
    rewrite <- append_assoc. apply strstr_skip.
    rewrite has_char_app. simpl.
    by rewrite (numeral_text_clean dquote x eq_refl eq_refl).
Qed.

(** The search through the fields of a record. *)
Lemma strstr_fields k r :
  key_ok k = true ->
  Forall (fun kv => has_char dquote (fst kv) = false) r ->
  match List.find (fun kv => String.eqb (fst kv) k) r with
  | None =>
      strstr (fields_tail r) (String dquote (k +:+ String dquote ":")) = None
  | Some kv =>
      exists tail,
        strstr (fields_tail r) (String dquote (k +:+ String dquote ":"))
        = Some (String dquote
                  (k +:+ String dquote (":" +:+ numeral_text (snd kv) +:+ tail)))
        /\ exists t, tail = "," +:+ t \/ tail = "}" +:+ t
  end.
Proof.
  unfold key_ok. intros Hk Hr.
  apply andb_prop in Hk as [Hk _]. apply andb_prop in Hk as [Hq Hc].
  apply negb_true_iff in Hq, Hc.
  induction r as [|[key x] r IH]; [done|].
  apply Forall_cons in Hr as [Hkey Hr]. specialize (IH Hr).
  cbn [fst] in Hkey. rewrite strstr_field by done.
  cbn [List.find fst]. destruct (String.eqb key k); [|exact IH].
  exists (fields_tail r). split; [done|]. apply fields_tail_head.
Qed.

Lemma substring_all s n :
  (String.length s <= n)%nat -> String.substring 0 n s = s.
Proof.
  revert n. induction s as [|c s IH]; intros [|n] Hn; simpl in *;
    first [done | lia | (rewrite IH by lia; done)].
Qed.

Lemma advance_app s t : advance (String.length s) (s +:+ t) = t.
Proof. induction s as [|c s IH]; [by destruct t|]. exact IH. Qed.

(** X20: [json_get_number] on the text of a record.  In the text of a
    flat record whose keys hold no quote, the search for a key (itself
    without a quote, not beginning with a colon, at most 60 characters)
    fails exactly when no field has that key; otherwise what [atof] is
    handed is the number of the first field with the key, followed by the
    comma or the brace that ends it.  The lookup on the record
    ([json_get_number]) is the lookup on its text. *)
Theorem json_number_text_record r k :
  key_ok k = true ->
  Forall (fun kv => has_char dquote (fst kv) = false) r ->
  match List.find (fun kv => String.eqb (fst kv) k) r with
  | None =>
      json_number_text (record_text r) k = None
      /\ json_get_number (TextRecord r) k = None
  | Some kv =>
      (exists tail,
         json_number_text (record_text r) k
         = Some (numeral_text (snd kv) +:+ tail)
         /\ exists t, tail = "," +:+ t \/ tail = "}" +:+ t)
      /\ json_get_number (TextRecord r) k
         = Some (F32.of_double (atof (snd kv)))
  end.
Proof.
  intros Hk Hr. pose proof (strstr_fields k r Hk Hr) as Hfind.
  assert (String.substring 0 63 (String dquote (k +:+ String dquote ":"))
          = String dquote (k +:+ String dquote ":")) as Hsearch.
  { apply substring_all. unfold key_ok in Hk.
    apply andb_prop in Hk as [_ Hlen]. apply Nat.leb_le in Hlen.
    cbn [String.length]. rewrite length_append. simpl. lia. }
  assert (strstr (record_text r) (String dquote (k +:+ String dquote ":"))
          = strstr (fields_tail r) (String dquote (k +:+ String dquote ":")))
    as Htext.
  { destruct r as [|kv r]; [done|]. rewrite record_text_tail. done. }
  unfold json_number_text, json_get_number. rewrite Hsearch, Htext.
  destruct (List.find _ r) as [kv|]; cbn [fmap option_fmap option_map].
  - destruct Hfind as (tail & -> & Htail). split; [|done].
    exists tail. split; [|exact Htail]. f_equal.
    change (String dquote
              (k +:+ String dquote (":" +:+ numeral_text kv.2 +:+ tail)))
      with (String dquote k +:+ String dquote (":" +:+ numeral_text kv.2 +:+ tail)).
    replace (String dquote k +:+ String dquote (":" +:+ numeral_text kv.2 +:+ tail))
      with (String dquote (k +:+ String dquote ":")
            +:+ numeral_text kv.2 +:+ tail)
      by (rewrite !append_cons, !append_assoc; reflexivity).
    by rewrite advance_app, skip_spaces_numeral.
  - by rewrite Hfind.
Qed.

Lemma json_number_text_record_witness :
  exists tail,
    json_number_text (record_text fresh_record) "vcf_cutoff"
    = Some ("0.0000" +:+ tail).
Proof.
  pose proof (json_number_text_record fresh_record "vcf_cutoff" eq_refl)
    as Hthm.
  assert (Forall (fun kv => has_char dquote (fst kv) = false) fresh_record)
    as Hkeys by (repeat constructor).
  specialize (Hthm Hkeys).
  change (List.find (fun kv => String.eqb (fst kv) "vcf_cutoff") fresh_record)
    with (Some ("vcf_cutoff", Dec false 0 4)) in Hthm.
  destruct Hthm as [(tail & Htext & _) _]. exists tail. exact Htext.
Defined.

(** ** The state snapshot, call by call *)

Lemma snprintf_all_fits buf_len pieces :
  forall offset buf,
    0 <= offset ->
    snprintf_all buf_len pieces (offset, buf)
    = if offset + Z.of_nat (String.length (String.concat "" pieces)) <? buf_len
      then Some (offset + Z.of_nat (String.length (String.concat "" pieces)),
                 buf +:+ String.concat "" pieces)
      else if (length pieces =? 0)%nat then Some (offset, buf) else None.
Proof.
  induction pieces as [|s pieces IH]; intros offset buf Hoff.
  - cbn [snprintf_all String.concat String.length length Nat.eqb].
    rewrite Z.add_0_r. destruct (offset <? buf_len); [|done].
    f_equal. f_equal. clear. induction buf as [|c b IHb]; [done|].
    by rewrite append_cons, <- IHb.
  - assert (String.concat "" (s :: pieces) = s +:+ String.concat "" pieces)
      as ->.
    { simpl. destruct pieces; [|done]. clear.
      induction s as [|c b IHb]; [done|]. by rewrite append_cons, <- IHb. }
    cbn [snprintf_all snprintf_at fst length Nat.eqb]. rewrite length_append.
    destruct (Z.leb_spec buf_len (offset + Z.of_nat (String.length s)))
      as [Hover|Hfit].
    + destruct (Z.ltb_spec
                  (offset + Z.of_nat (String.length s
                                      + String.length (String.concat "" pieces)))
                  buf_len); [lia|done].
    + rewrite IH by lia. rewrite substring_all by lia.
      rewrite append_assoc, Nat2Z.inj_add, Z.add_assoc.
      destruct (_ <? buf_len) eqn:E; [done|].
      destruct pieces as [|s' pieces']; [|done].
      cbn [String.concat String.length] in E. apply Z.ltb_ge in E. lia.
Qed.

Lemma concat_app_strings l1 l2 :
  String.concat "" (l1 ++ l2) = String.concat "" l1 +:+ String.concat "" l2.
Proof.
  induction l1 as [|s l1 IH]; [done|].
  assert (forall l, String.concat "" (s :: l) = s +:+ String.concat "" l) as Hc.
  { intros l. simpl. destruct l; [|done]. clear.
    induction s as [|c b IHb]; [done|]. by rewrite append_cons, <- IHb. }
  change ((s :: l1) ++ l2) with (s :: (l1 ++ l2)).
  by rewrite !Hc, IH, append_assoc.
Qed.

Lemma state_pieces_text inst :
  String.concat "" (state_pieces inst) = record_text (state_record inst).
Proof.
  unfold state_pieces, state_record.
  rewrite !concat_app_strings.
  change ([("preset", print_int (current_preset inst));
           ("volume", print_float4 (volume inst));
           ("octave_transpose", print_int (octave_transpose inst))]
          ++ ?l)
    with (("preset", print_int (current_preset inst))
          :: ("volume", print_float4 (volume inst))
          :: ("octave_transpose", print_int (octave_transpose inst)) :: l).
  rewrite record_text_tail. cbn [fields_tail String.concat].
  repeat rewrite append_assoc. do 6 f_equal.
  induction g_shadow_params as [|p ps IH]; [done|].
  rewrite !fmap_cons. cbn [fields_tail].
  assert (forall s l, String.concat "" (s :: l) = s +:+ String.concat "" l) as Hc.
  { intros s l. simpl. destruct l; [|done]. clear.
    induction s as [|c b IHb]; [done|]. by rewrite append_cons, <- IHb. }
  rewrite Hc, !append_assoc. by rewrite IH.
Qed.

(** X21: the state snapshot and the buffer.  [get_param("state")]
    succeeds exactly when the whole snapshot and its terminator fit the
    buffer; the buffer then holds the text of the snapshot in full, and
    the result is its length.  Otherwise the result is -1: a snapshot cut
    short is never reported as a success. *)
Theorem v2_get_param_state_fits inst buf_len :
  v2_get_param_state_calls inst buf_len
  = (fun r => (Z.of_nat (String.length (record_text r)), record_text r))
      <$> v2_get_param_state inst buf_len.
Proof.
  unfold v2_get_param_state_calls, v2_get_param_state.
  rewrite snprintf_all_fits by lia. rewrite state_pieces_text.
  rewrite Z.add_0_l. destruct (_ <? buf_len); [done|].
  unfold state_pieces. rewrite !length_app. reflexivity.
Qed.

(** ** Chain params metadata: the buffer arithmetic *)

Lemma chain_loop_spec print_g buf_len ps :
  Forall (fun p => (String.length (chain_entry print_g p) <= 100)%nat) ps ->
  forall offset sizes n,
    exists offset' extra n',
      chain_loop print_g buf_len ps (offset, sizes, n)
      = (offset', sizes ++ extra, n')
      /\ Forall (fun size => 0 <= size) extra
      /\ (offset' <= buf_len <-> offset <= buf_len)
      /\ (n <= n' <= n + length ps)%nat
      /\ length extra = (n' - n)%nat
      /\ (n' = (n + length ps)%nat
          <-> ps = []
              \/ offset + entries_length print_g (removelast ps)
                 < buf_len - 100).
Proof.
  intros Hlen. induction Hlen as [|p ps Hp Hps IH]; intros offset sizes n.
  - exists offset, [], n. cbn [chain_loop length removelast].
    rewrite app_nil_r, Nat.add_0_r, Nat.sub_diag.
    repeat split; auto; lia.
  - cbn [chain_loop]. destruct (Z.ltb_spec offset (buf_len - 100)) as [Hgo|Hstop].
    + destruct (IH (offset + Z.of_nat (String.length (chain_entry print_g p)))
                  (sizes ++ [buf_len - offset]) (S n))
        as (offset' & extra & n' & -> & Hextra & Hoff & Hn & Hlen' & Hall).
      exists offset', ((buf_len - offset) :: extra), n'.
      rewrite <- app_assoc. split; [done|].
      split; [constructor; [lia|done]|].
      split; [split; intros _; [lia|apply Hoff; lia]|].
      cbn [length]. split; [lia|]. split; [lia|].
      replace (n + S (length ps))%nat with (S n + length ps)%nat by lia.
      rewrite Hall. destruct ps as [|p' ps'].
      * split; intros _; [right|left; done].
        cbn [removelast entries_length foldr]. lia.
      * change (removelast (p :: p' :: ps')) with (p :: removelast (p' :: ps')).
        unfold entries_length at 2. cbn [foldr].
        fold (entries_length print_g (removelast (p' :: ps'))).
        split; intros [?|?]; try done; right; lia.
    + exists offset, [], n. rewrite app_nil_r, Nat.sub_diag. cbn [length].
      split; [done|]. split; [done|]. split; [done|]. split; [lia|].
      split; [done|]. split; [lia|]. intros [?|Hsum]; [done|].
      assert (0 <= entries_length print_g (removelast (p :: ps))) as Hpos.
      { clear. induction (removelast (p :: ps)) as [|q qs IHq]; simpl; lia. }
      lia.
Qed.

(** X22: the buffer arithmetic of the chain-params metadata.  Provided
    the text of each catalog entry has at most 100 characters, every
    [snprintf] call of the branch is handed a size that is not negative -
    so nothing is written outside the buffer - exactly when the buffer
    holds the 202 characters of the three fixed entries; with a smaller
    buffer the closing bracket is written with a negative size.  The
    branch never reports failure: it writes as many catalog entries as
    pass the test [offset < buf_len - 100], all 26 exactly when the text
    up to the last entry ends more than 100 characters before the end of
    the buffer. *)
Theorem chain_params_sizes print_g buf_len :
  Forall (fun p => (String.length (chain_entry print_g p) <= 100)%nat)
    g_shadow_params ->
  exists ret sizes n,
    chain_params_calls print_g buf_len = (ret, sizes, n)
    /\ (Forall (fun size => 0 <= size) sizes
        <-> Z.of_nat (String.length chain_header) <= buf_len)
    /\ length sizes = (n + 2)%nat
    /\ (n <= length g_shadow_params)%nat
    /\ (n = length g_shadow_params
        <-> Z.of_nat (String.length chain_header)
            + entries_length print_g (removelast g_shadow_params)
            < buf_len - 100).
Proof.
  intros Hlen. unfold chain_params_calls.
  destruct (chain_loop_spec print_g buf_len g_shadow_params Hlen
              (Z.of_nat (String.length chain_header)) [buf_len] 0%nat)
    as (offset' & extra & n' & -> & Hextra & Hoff & Hn & Hlen' & Hall).
  eexists _, _, _. split; [reflexivity|]. split; [|split; [|split]].
  - rewrite !Forall_app, Forall_singleton, Forall_singleton. split.
    + intros [[_ _] Hlast]. apply Hoff. lia.
    + intros H0. split; [split; [lia|done]|]. apply Hoff in H0. lia.
  - rewrite !length_app. cbn [length]. lia.
  - lia.
  - rewrite Nat.add_0_l in Hall. rewrite Hall. split; [|by right].
    by intros [?|?].
Qed.

Lemma chain_params_sizes_witness :
  Forall (fun p => (String.length (chain_entry run_print_g p) <= 100)%nat)
    g_shadow_params
  /\ exists ret sizes n,
      chain_params_calls run_print_g 4096 = (ret, sizes, n)
      /\ (Forall (fun size => 0 <= size) sizes
          <-> Z.of_nat (String.length chain_header) <= 4096)
      /\ length sizes = (n + 2)%nat
      /\ (n <= length g_shadow_params)%nat
      /\ (n = length g_shadow_params
          <-> Z.of_nat (String.length chain_header)
              + entries_length run_print_g (removelast g_shadow_params)
              < 4096 - 100).
Proof.
  assert (Forall (fun p => (String.length (chain_entry run_print_g p)
                            <= 100)%nat) g_shadow_params) as Hlen.
  { apply Forall_fold_right. vm_compute. repeat split; apply Nat.leb_le; reflexivity. }
  split; [exact Hlen|]. exact (chain_params_sizes run_print_g 4096 Hlen).
Defined.

(** ** The xorshift generator *)

Lemma uint32_bits x i :
  0 <= i ->
  Z.testbit (uint32 x) i = if i <? 32 then Z.testbit x i else false.
Proof.
  intros Hi. unfold uint32. destruct (Z.ltb_spec i 32).
  - apply Z.mod_pow2_bits_low. lia.
  - apply Z.mod_pow2_bits_high. lia.
Qed.

Lemma word_bits x :
  0 <= x < 2 ^ 32 <-> uint32 x = x.
Proof.
  unfold uint32. split.
  - intros H. apply Z.mod_small. lia.
  - intros <-. apply Z.mod_pos_bound. lia.
Qed.

Lemma word_high x i : 0 <= x < 2 ^ 32 -> 32 <= i -> Z.testbit x i = false.
Proof.
  intros Hx Hi. apply word_bits in Hx. rewrite <- Hx.
  rewrite uint32_bits by lia. destruct (Z.ltb_spec i 32); [lia|done].
Qed.

Lemma xor_left_word k x :
  0 <= x < 2 ^ 32 -> 0 <= Z.lxor x (uint32 (Z.shiftl x k)) < 2 ^ 32.
Proof.
  intros Hx. apply word_bits. apply Z.bits_inj'. intros i Hi.
  rewrite uint32_bits by done. destruct (Z.ltb_spec i 32); [done|].
  rewrite Z.lxor_spec, uint32_bits by done.
  destruct (Z.ltb_spec i 32); [lia|]. by rewrite (word_high x i).
Qed.

Lemma xor_right_word k x :
  0 <= k -> 0 <= x < 2 ^ 32 -> 0 <= Z.lxor x (Z.shiftr x k) < 2 ^ 32.
Proof.
  intros Hk Hx. apply word_bits. apply Z.bits_inj'. intros i Hi.
  rewrite uint32_bits by done. destruct (Z.ltb_spec i 32); [done|].
  rewrite Z.lxor_spec, Z.shiftr_spec by done.
  by rewrite (word_high x i), (word_high x (i + k)) by lia.
Qed.

Lemma xor_left_inj k x y :
  0 < k -> 0 <= x < 2 ^ 32 -> 0 <= y < 2 ^ 32 ->
  Z.lxor x (uint32 (Z.shiftl x k)) = Z.lxor y (uint32 (Z.shiftl y k)) ->
  x = y.
Proof.
  intros Hk Hx Hy Heq. apply Z.bits_inj'. intros i Hi. revert Hi.
  induction i as [i IH] using (well_founded_induction (Z.lt_wf 0)).
  intros Hi.
  assert (Z.testbit (Z.lxor x (uint32 (Z.shiftl x k))) i
          = Z.testbit (Z.lxor y (uint32 (Z.shiftl y k))) i) as Hb
    by (by rewrite Heq).
  rewrite !Z.lxor_spec, !uint32_bits, !Z.shiftl_spec in Hb by done.
  destruct (Z.ltb_spec i 32).
  - destruct (Z.ltb_spec (i - k) 0).
    + rewrite !(Z.testbit_neg_r _ (i - k)) in Hb by done.
      by rewrite !xorb_false_r in Hb.
    + rewrite (IH (i - k)) in Hb by lia.
      destruct (Z.testbit x i), (Z.testbit y i), (Z.testbit y (i - k));
        done.
  - by rewrite (word_high x i), (word_high y i).
Qed.

Lemma xor_right_inj k x y :
  0 < k -> 0 <= x < 2 ^ 32 -> 0 <= y < 2 ^ 32 ->
  Z.lxor x (Z.shiftr x k) = Z.lxor y (Z.shiftr y k) ->
  x = y.
Proof.
  intros Hk Hx Hy Heq. apply Z.bits_inj'.
  assert (forall n i, 0 <= i -> 32 - Z.of_nat n <= i ->
                      Z.testbit x i = Z.testbit y i) as Hdown.
  { induction n as [|n IH]; intros i Hi Hn.
    - by rewrite (word_high x i), (word_high y i) by lia.
    - assert (Z.testbit (Z.lxor x (Z.shiftr x k)) i
              = Z.testbit (Z.lxor y (Z.shiftr y k)) i) as Hb
        by (by rewrite Heq).
      rewrite !Z.lxor_spec, !Z.shiftr_spec in Hb by done.
      rewrite (IH (i + k)) in Hb by lia.
      destruct (Z.testbit x i), (Z.testbit y i), (Z.testbit y (i + k));
        done. }
  intros i Hi. apply (Hdown 32%nat); lia.
Qed.

Lemma next_state_word state :
  0 <= state < 2 ^ 32 -> 0 <= next_state state < 2 ^ 32.
Proof.
  intros H. unfold next_state. cbv zeta.
  apply xor_left_word, xor_right_word, xor_left_word; [lia|done].
Qed.

Lemma next_state_inj s t :
  0 <= s < 2 ^ 32 -> 0 <= t < 2 ^ 32 -> next_state s = next_state t -> s = t.
Proof.
  intros Hs Ht Heq. unfold next_state in Heq. cbv zeta in Heq.
  apply xor_left_inj in Heq;
    [|lia|by apply xor_right_word; [lia|apply xor_left_word]..].
  apply xor_right_inj in Heq; [|lia|by apply xor_left_word..].
  by apply xor_left_inj in Heq; [|lia|..].
Qed.

Lemma draws_state n : forall state,
  0 <= state < 2 ^ 32 ->
  0 <= (draws n state).2 < 2 ^ 32
  /\ length (draws n state).1 = n
  /\ ((draws n state).2 = 0 <-> state = 0).
Proof.
  induction n as [|n IH]; intros state Hs; [done|].
  cbn [draws]. unfold nextFloat. cbv zeta.
  destruct (IH (next_state state) (next_state_word _ Hs)) as (Hw & Hl & H0).
  destruct (draws n (next_state state)) as [xs last]. cbn [fst snd] in *.
  split; [done|]. split; [by rewrite <- Hl|]. rewrite H0. split.
  - intros Hz. apply next_state_inj; [done|lia|]. by rewrite Hz.
  - by intros ->.
Qed.

Lemma draws_inj n : forall s t,
  0 <= s < 2 ^ 32 -> 0 <= t < 2 ^ 32 ->
  (draws n s).2 = (draws n t).2 -> s = t.
Proof.
  induction n as [|n IH]; intros s t Hs Ht; [done|].
  cbn [draws]. unfold nextFloat. cbv zeta.
  specialize (IH (next_state s) (next_state t)
                (next_state_word _ Hs) (next_state_word _ Ht)).
  destruct (draws n (next_state s)) as [xs ls].
  destruct (draws n (next_state t)) as [xt lt]. cbn [fst snd] in *.
  intros Heq. by apply next_state_inj, IH.
Qed.

(** X23: the xorshift generator of the LFO.  However many numbers are
    drawn, the state stays a 32-bit word, the state left is zero only if
    the generator was seeded with zero - from the seed 12345 of the code it
    never gets stuck at zero - and two generators in different states
    never come to the same state: the step loses no information. *)
Theorem nextFloat_never_stuck n s t :
  0 <= s < 2 ^ 32 -> 0 <= t < 2 ^ 32 ->
  0 <= (draws n s).2 < 2 ^ 32
  /\ length (draws n s).1 = n
  /\ ((draws n s).2 = 0 <-> s = 0)
  /\ ((draws n s).2 = (draws n t).2 -> s = t)
  /\ (draws n prng_seed).2 <> 0.
Proof.
  intros Hs Ht. destruct (draws_state n s Hs) as (Hw & Hl & H0).
  split; [done|]. split; [done|]. split; [done|].
  split; [by apply draws_inj|].
  intros Hz. by apply (draws_state n prng_seed) in Hz.
Qed.

Lemma nextFloat_never_stuck_witness :
  (0 <= 12345 < 2 ^ 32 /\ 0 <= 54321 < 2 ^ 32)
  /\ 0 <= (draws 3 12345).2 < 2 ^ 32
  /\ length (draws 3 12345).1 = 3%nat
  /\ ((draws 3 12345).2 = 0 <-> 12345 = 0)
  /\ ((draws 3 12345).2 = (draws 3 54321).2 -> 12345 = 54321)
  /\ (draws 3 prng_seed).2 <> 0.
Proof.
  assert (0 <= 12345 < 2 ^ 32) as Hs by lia.
  assert (0 <= 54321 < 2 ^ 32) as Ht by lia.
  split; [done|]. exact (nextFloat_never_stuck 3 12345 54321 Hs Ht).
Defined.
